(** * Options Categorizer: the item tree, its handlers and the import merge

    A shallow embedding of the data model of [src/types.ts], of the handlers
    of [src/components/CategoryDetail.tsx] ([handleDragEnd], [handleAddItem],
    [handleDeleteItem], [handleMoveOption]) and of the document store of
    [src/App.tsx] (initial load, [addCategory], [updateCategory],
    [deleteCategory], [importCategories] by id and by title), followed by
    the properties of the specification that concern them.  The last part
    adds the state of the category page, the sorted views, the list page
    ([CategoryList.tsx]) and the notification bell, with further properties
    of the code.

    Conventions of the embedding:
    - a JavaScript array is a [list]; [findIndex] returns [None] where the
      source gets [-1]; [arr[i] = x] is stdpp's [<[i:=x]>], used only at
      indices that [findIndex] returned;
    - a string is the UTF-8 encoding of the program's string, as a string
      literal of this file is; equality, emptiness and containment of
      strings are the same on both sides, and [blank] reads the white space
      of [trim] in this encoding;
    - objects are immutable values: every handler builds a new array
      ([[...category.items]]) before it changes anything;
    - [generateId()] and [Date.now()] are the two impure calls of the code.
      They read a [World] holding the sequence of results the calls will
      give, so that every theorem holds for whatever they return. *)

From Stdlib Require Import ZArith Sorted.
From stdpp Require Import base option list strings gmap.

Local Open Scope string_scope.
Local Open Scope list_scope.
#[local] Set Warnings "-register-all".

(** ** Data model ([src/types.ts]) *)

Definition ID := string.

(** [CategoryItem = OptionItem | GroupItem].  The values are the ones that
    exist at run time: the declaration [items: OptionItem[]] of a group is
    erased by the compiler and the handlers cast ([as OptionItem],
    [as GroupItem]) without a test, so a group's array can hold any item. *)
Inductive CategoryItem : Type :=
| OptionItem (id : ID) (title : string) (createdAt : Z)
| GroupItem (id : ID) (title : string) (createdAt : Z)
            (items : list CategoryItem).

Definition item_id (i : CategoryItem) : ID :=
  match i with OptionItem x _ _ | GroupItem x _ _ _ => x end.

Definition item_title (i : CategoryItem) : string :=
  match i with OptionItem _ t _ | GroupItem _ t _ _ => t end.

(** [i.type === 'GROUP'] and [i.type === 'OPTION']. *)
Definition isGroup (i : CategoryItem) : bool :=
  match i with GroupItem _ _ _ _ => true | OptionItem _ _ _ => false end.

Definition isOption (i : CategoryItem) : bool :=
  match i with OptionItem _ _ _ => true | GroupItem _ _ _ _ => false end.

(** [i.items]: [undefined] on an option. *)
Definition item_items (i : CategoryItem) : option (list CategoryItem) :=
  match i with GroupItem _ _ _ sub => Some sub | OptionItem _ _ _ => None end.

(** [{ ...i, id: x }]. *)
Definition with_id (x : ID) (i : CategoryItem) : CategoryItem :=
  match i with
  | OptionItem _ t c => OptionItem x t c
  | GroupItem _ t c sub => GroupItem x t c sub
  end.

Record Category : Type := mkCategory {
  cat_id : ID;
  cat_title : string;
  cat_description : option string;
  cat_createdAt : Z;
  cat_modifiedAt : Z;
  cat_items : list CategoryItem
}.

(** [{ ...category, items: newItems, modifiedAt: now }]. *)
Definition touch (c : Category) (newItems : list CategoryItem) (now : Z)
  : Category :=
  {| cat_id := cat_id c; cat_title := cat_title c;
     cat_description := cat_description c; cat_createdAt := cat_createdAt c;
     cat_modifiedAt := now; cat_items := newItems |}.

Inductive ItemSortField : Type := MANUAL | TITLE | CREATED_AT.

Inductive ModalMode : Type := createOption | createGroup | moveOption.

(** ** The impure calls: [generateId()] and [Date.now()] *)

Record World : Type := mkWorld {
  ids : nat -> ID;      (* the results of the coming [generateId()] calls *)
  clock : nat -> Z      (* the results of the coming [Date.now()] calls *)
}.

Definition M (A : Type) : Type := World -> A * World.

Definition ret {A} (a : A) : M A := fun w => (a, w).

Definition bind {A B} (m : M A) (k : A -> M B) : M B :=
  fun w => let (a, w') := m w in k a w'.

Notation "x <- m ;; k" := (bind m (fun x => k))
  (at level 100, m at next level, right associativity).

Definition generateId : M ID :=
  fun w => (ids w 0, {| ids := fun n => ids w (S n); clock := clock w |}).

Definition dateNow : M Z :=
  fun w => (clock w 0, {| ids := ids w; clock := fun n => clock w (S n) |}).

(** [arr.forEach(x => acc = step(acc, x))] and [arr.map(f)] with effects. *)
Fixpoint foldM {A B} (step : B -> A -> M B) (acc : B) (l : list A) : M B :=
  match l with
  | [] => ret acc
  | x :: l' => acc' <- step acc x ;; foldM step acc' l'
  end.

Fixpoint mapM {A B} (f : A -> M B) (l : list A) : M (list B) :=
  match l with
  | [] => ret []
  | x :: l' => y <- f x ;; ys <- mapM f l' ;; ret (y :: ys)
  end.

(** ** Array primitives *)

(** [arr.findIndex(p)], [None] for [-1]. *)
Fixpoint findIndex {A} (p : A -> bool) (l : list A) : option nat :=
  match l with
  | [] => None
  | x :: l' => if p x then Some 0 else S <$> findIndex p l'
  end.

(** [arr.some(p)]. *)
Definition some {A} (p : A -> bool) (l : list A) : bool := existsb p l.

(** [arr.splice(i, 0, x)]. *)
Definition splice_in {A} (i : nat) (x : A) (l : list A) : list A :=
  take i l ++ x :: drop i l.

(** [arr.splice(i, 1)] is stdpp's [delete i]. *)

(** [arrayMove] of [@dnd-kit/sortable]:
    [newArray.splice(to, 0, newArray.splice(from, 1)[0])].  The handlers call
    it with indices that [findIndex] found; outside the array the library
    would insert [undefined], which no list of items can hold, and the model
    returns the array as it is. *)
Definition arrayMove {A} (l : list A) (from to : nat) : list A :=
  match l !! from with
  | Some x => splice_in to x (delete from l)
  | None => l
  end.

(** Truth value of a [string | null] state variable or optional argument. *)
Definition truthy (s : option string) : bool :=
  match s with
  | Some s => negb (String.eqb s "")
  | None => false
  end.

Definition has_id (x : ID) (i : CategoryItem) : bool := String.eqb (item_id i) x.

(** [!inputText.trim()]: the text is empty once the white space at both ends
    is removed, that is, it is white space only.  [trim] removes the
    WhiteSpace and LineTerminator code points of the language: U+0009 to
    U+000D, U+0020, U+00A0, U+1680, U+2000 to U+200A, U+2028, U+2029,
    U+202F, U+205F, U+3000 and U+FEFF.  A string of this development is the
    UTF-8 encoding of the program's string, so the code points above U+007F
    are read as the two or three bytes that encode them. *)

(** The white space below U+0080: tab, line feed, vertical tab, form feed,
    carriage return, space. *)
Definition is_space (a : Ascii.ascii) : bool :=
  let n := Ascii.nat_of_ascii a in
  ((9 <=? n)%nat && (n <=? 13)%nat) || (n =? 32)%nat.

(** U+00A0 is [C2 A0]. *)
Definition is_space2 (a b : Ascii.ascii) : bool :=
  (Ascii.nat_of_ascii a =? 194)%nat && (Ascii.nat_of_ascii b =? 160)%nat.

(** U+1680 is [E1 9A 80]; U+2000 to U+200A are [E2 80 80] to [E2 80 8A];
    U+2028, U+2029 and U+202F are [E2 80 A8], [E2 80 A9] and [E2 80 AF];
    U+205F is [E2 81 9F]; U+3000 is [E3 80 80]; U+FEFF is [EF BB BF]. *)
Definition is_space3 (a b c : Ascii.ascii) : bool :=
  let a := Ascii.nat_of_ascii a in
  let b := Ascii.nat_of_ascii b in
  let c := Ascii.nat_of_ascii c in
  ((a =? 225) && (b =? 154) && (c =? 128))%nat
  || ((a =? 226) && (b =? 128)
      && (((128 <=? c) && (c <=? 138)) || (c =? 168) || (c =? 169)
          || (c =? 175)))%nat
  || ((a =? 226) && (b =? 129) && (c =? 159))%nat
  || ((a =? 227) && (b =? 128) && (c =? 128))%nat
  || ((a =? 239) && (b =? 187) && (c =? 191))%nat.

Fixpoint blank (s : string) : bool :=
  match s with
  | EmptyString => true
  | String a s1 =>
    if is_space a then blank s1 else
    match s1 with
    | EmptyString => false
    | String b s2 =>
      if is_space2 a b then blank s2 else
      match s2 with
      | EmptyString => false
      | String c s3 => is_space3 a b c && blank s3
      end
    end
  end.

(** The string of the bytes [l]. *)
Definition bytes (l : list nat) : string :=
  foldr (fun n s => String (Ascii.ascii_of_nat n) s) EmptyString l.

(** ** Handlers of [CategoryDetail.tsx] *)

(** What a handler does to the category: it returns without calling
    [updateCategory], it calls [updateCategory] with a new category, or it
    throws. *)
Inductive Outcome : Type :=
| NoUpdate
| Updated (c : Category)
| Threw.

(** [updateCategory({ ...category, items: newItems, modifiedAt: Date.now() })]. *)
Definition commit (category : Category) (newItems : list CategoryItem)
  : M Outcome :=
  now <- dateNow ;; ret (Updated (touch category newItems now)).

(** [useMemo]: [groups] and [options].  In manual mode they are the two
    filters of [category.items]; in the other modes they are sorted, and
    [handleDragEnd] has returned before it reads them. *)
Definition groups (category : Category) : list CategoryItem :=
  List.filter isGroup (cat_items category).

Definition options (category : Category) : list CategoryItem :=
  List.filter isOption (cat_items category).

(** [findItem] of [CategoryDetail.tsx]: the root first, then one level into
    each group. *)
Fixpoint findInGroups (x : ID) (l : list CategoryItem) : option CategoryItem :=
  match l with
  | [] => None
  | GroupItem _ _ _ sub :: rest =>
      match List.find (has_id x) sub with
      | Some s => Some s
      | None => findInGroups x rest
      end
  | OptionItem _ _ _ :: rest => findInGroups x rest
  end.

Definition findItem (category : Category) (x : ID) : option CategoryItem :=
  match List.find (has_id x) (cat_items category) with
  | Some root => Some root
  | None => findInGroups x (cat_items category)
  end.

(** The body shared by the branches "Reordering within the Groups section"
    and "Reordering within the Options section": an [arrayMove] on the full
    [category.items]. *)
Definition reorderRoot (category : Category) (active over : ID) : M Outcome :=
  match findIndex (has_id active) (cat_items category),
        findIndex (has_id over) (cat_items category) with
  | Some oldIndex, Some newIndex =>
      commit category (arrayMove (cat_items category) oldIndex newIndex)
  | _, _ => ret NoUpdate (* not reached: both ids are at the root *)
  end.

Definition handleDragEnd (sortField : ItemSortField) (category : Category)
    (active : ID) (over : option ID) : M Outcome :=
  match sortField with
  | MANUAL =>
    match over with
    | None => ret NoUpdate
    | Some over =>
      if String.eqb active over then ret NoUpdate else
      let isActiveGroup := some (has_id active) (groups category) in
      let isOverGroup := some (has_id over) (groups category) in
      let isActiveOption := some (has_id active) (options category) in
      let isOverOption := some (has_id over) (options category) in
      if isActiveGroup && isOverGroup then reorderRoot category active over
      else if isActiveOption && isOverOption then
        reorderRoot category active over
      else
        match findIndex
                (fun i => isGroup i &&
                          some (has_id active) (default [] (item_items i)))
                (cat_items category) with
        | Some parentGroupIndex =>
          match cat_items category !! parentGroupIndex with
          | Some (GroupItem gi gt gc gitems) =>
            if some (has_id over) gitems then
              match findIndex (has_id active) gitems,
                    findIndex (has_id over) gitems with
              | Some oldIndex, Some newIndex =>
                  commit category
                    (<[parentGroupIndex :=
                         GroupItem gi gt gc (arrayMove gitems oldIndex newIndex)]>
                       (cat_items category))
              | _, _ => ret NoUpdate (* not reached *)
              end
            else ret NoUpdate
          | _ => ret NoUpdate (* not reached: the index is a group's *)
          end
        | None => ret NoUpdate
        end
    end
  | _ => ret NoUpdate
  end.

(** The root insertion of an option, shared by [handleAddItem] and
    [handleMoveOption]: before the first option, at the end if there is
    none. *)
Definition insertBeforeFirstOption (newItem : CategoryItem)
    (newItems : list CategoryItem) : list CategoryItem :=
  match findIndex isOption newItems with
  | Some firstOptionIndex => splice_in firstOptionIndex newItem newItems
  | None => newItems ++ [newItem]
  end.

Definition is_createGroup (m : option ModalMode) : bool :=
  match m with Some createGroup => true | _ => false end.

Definition is_createOption (m : option ModalMode) : bool :=
  match m with Some createOption => true | _ => false end.

(** [inputText], [modalMode] and [targetGroupId] are the component's state
    when the button is pressed. *)
Definition handleAddItem (inputText : string) (modalMode : option ModalMode)
    (targetGroupId : option ID) (category : Category) : M Outcome :=
  if blank inputText then ret NoUpdate else
  newItem <-
    (if is_createGroup modalMode
     then (i <- generateId ;; c <- dateNow ;; ret (GroupItem i inputText c []))
     else (i <- generateId ;; c <- dateNow ;; ret (OptionItem i inputText c))) ;;
  let newItems := cat_items category in
  let newItems :=
    if is_createOption modalMode && truthy targetGroupId then
      match findIndex (has_id (default "" targetGroupId)) newItems with
      | Some groupIndex =>
        match newItems !! groupIndex with
        | Some (GroupItem gi gt gc gitems) =>
            <[groupIndex := GroupItem gi gt gc (newItem :: gitems)]> newItems
        | _ => newItems
        end
      | None => newItems
      end
    else
      if isGroup newItem then newItem :: newItems
      else insertBeforeFirstOption newItem newItems
  in
  commit category newItems.

Definition handleDeleteItem (confirmed : bool) (itemId : ID)
    (parentGroupId : option ID) (category : Category) : M Outcome :=
  if negb confirmed then ret NoUpdate else
  let newItems := cat_items category in
  if truthy parentGroupId then
    match findIndex (has_id (default "" parentGroupId)) newItems with
    | Some groupIndex =>
      match newItems !! groupIndex with
      | Some (GroupItem gi gt gc gitems) =>
          commit category
            (<[groupIndex :=
                 GroupItem gi gt gc
                   (List.filter (fun i => negb (has_id itemId i)) gitems)]>
               newItems)
      | _ =>
          (* [group.items] is [undefined]: [group.items.filter] is a
             TypeError *)
          ret Threw
      end
    | None => commit category newItems
    end
  else
    commit category (List.filter (fun i => negb (has_id itemId i)) newItems).

(** The loop "Search in groups" of [handleMoveOption]: the first group that
    holds the id loses it; the result is [itemToMove] and the new array. *)
Fixpoint searchGroups (moveTargetId : ID) (newItems : list CategoryItem)
  : option CategoryItem * list CategoryItem :=
  match newItems with
  | [] => (None, [])
  | it :: rest =>
    let continue :=
      let (found, rest') := searchGroups moveTargetId rest in
      (found, it :: rest') in
    match it with
    | GroupItem gi gt gc gitems =>
      match findIndex (has_id moveTargetId) gitems with
      | Some subIndex =>
          (gitems !! subIndex, GroupItem gi gt gc (delete subIndex gitems) :: rest)
      | None => continue
      end
    | OptionItem _ _ _ => continue
    end
  end.

Definition ROOT : string := "ROOT".

Definition handleMoveOption (moveTargetId : option ID) (targetGroupId : string)
    (category : Category) : M Outcome :=
  if negb (truthy moveTargetId) then ret NoUpdate else
  let target := default "" moveTargetId in
  let newItems := cat_items category in
  let (itemToMove, newItems) :=
    match findIndex (has_id target) newItems with
    | Some rootIndex => (newItems !! rootIndex, delete rootIndex newItems)
    | None => searchGroups target newItems
    end in
  match itemToMove with
  | None => ret NoUpdate
  | Some itemToMove =>
    let newItems :=
      if String.eqb targetGroupId ROOT then
        insertBeforeFirstOption itemToMove newItems
      else
        match findIndex (has_id targetGroupId) newItems with
        | Some destIndex =>
          match newItems !! destIndex with
          | Some (GroupItem gi gt gc gitems) =>
              <[destIndex := GroupItem gi gt gc (gitems ++ [itemToMove])]> newItems
          | _ => newItems
          end
        | None => newItems
        end
    in
    commit category newItems
  end.

(** ** The document store ([src/App.tsx]) *)

(** *** Initial load *)

(** The values [JSON.parse] can return. *)
Inductive JSONValue : Type :=
| JNull
| JBool (b : bool)
| JNumber (n : Z)
| JString (s : string)
| JArray (elems : list JSONValue)
| JObject (fields : list (string * JSONValue)).

(** [Array.isArray(v)]. *)
Definition isArray (v : JSONValue) : bool :=
  match v with JArray _ => true | _ => false end.

Section Load.
(** [JSON.parse] is the platform's: [None] when it throws a SyntaxError. *)
Variable JSON_parse : string -> option JSONValue.

(** The initialiser of the [categories] state; [stored] is
    [localStorage.getItem(STORAGE_KEY)]:
<<
    try { return stored ? JSON.parse(stored) : []; }
    catch (e) { console.error(...); return []; }
>>  *)
Definition loadCategories (stored : option string) : JSONValue :=
  if truthy stored then
    match JSON_parse (default "" stored) with
    | Some parsed => parsed
    | None => JArray []
    end
  else JArray [].
End Load.

(** *** [updateCategory] *)

Definition updateCategory (updatedCat : Category) (prev : list Category)
  : list Category :=
  map (fun c => if String.eqb (cat_id c) (cat_id updatedCat)
                then updatedCat else c) prev.

(** *** Save on change *)

(** What reaches the storage after a handler has run.  The effect
    [useEffect(() => localStorage.setItem(STORAGE_KEY,
    JSON.stringify(categories)), [categories])] runs when [setCategories]
    has produced a new array, that is, when the handler has called
    [updateCategory]; it writes the categories as they are then.  [None]:
    nothing is written.  The value stands for its JSON text. *)
Definition saved (out : Outcome) (categories : list Category)
  : option (list Category) :=
  match out with
  | Updated c => Some (updateCategory c categories)
  | NoUpdate | Threw => None
  end.

(** *** [importCategories], the merge by title *)

(** [items.map(sub => ({ ...sub, id: generateId() }))]. *)
Definition regenerateSubIds (subs : list CategoryItem) : M (list CategoryItem) :=
  mapM (fun sub => i <- generateId ;; ret (with_id i sub)) subs.

(** "Group exists: Merge options inside".  [existingSubTitles] is built once,
    from the group's items before the loop. *)
Definition mergeGroupOptions (existingGroupItems impSubItems : list CategoryItem)
  : M (list CategoryItem) :=
  let existingSubTitles : gset string :=
    list_to_set (item_title <$> existingGroupItems) in
  foldM (fun existingGroupItems impSubItem =>
           if negb (bool_decide (item_title impSubItem ∈ existingSubTitles))
           then i <- generateId ;;
                ret (existingGroupItems ++ [with_id i impSubItem])
           else ret existingGroupItems)
        existingGroupItems impSubItems.

(** The body of [impCat.items.forEach(impItem => ...)]. *)
Definition mergeItem (newItems : list CategoryItem) (impItem : CategoryItem)
  : M (list CategoryItem) :=
  match impItem with
  | GroupItem _ impTitle impCreatedAt impSubItems =>
    match findIndex (fun i => isGroup i && String.eqb (item_title i) impTitle)
                    newItems with
    | Some existingGroupIndex =>
      match newItems !! existingGroupIndex with
      | Some (GroupItem gi gt gc existingGroupItems) =>
          merged <- mergeGroupOptions existingGroupItems impSubItems ;;
          ret (<[existingGroupIndex := GroupItem gi gt gc merged]> newItems)
      | _ => ret newItems (* not reached: the index is a group's *)
      end
    | None =>
      i <- generateId ;;
      subs <- regenerateSubIds impSubItems ;;
      ret (newItems ++ [GroupItem i impTitle impCreatedAt subs])
    end
  | OptionItem _ impTitle _ =>
    let optionExists :=
      some (fun i => isOption i && String.eqb (item_title i) impTitle) newItems in
    if negb optionExists
    then i <- generateId ;; ret (newItems ++ [with_id i impItem])
    else ret newItems
  end.

(** "New Category: Add it (Regenerate IDs for everything to be safe)": the
    function mapped over [impCat.items]. *)
Definition regenerateItem (item : CategoryItem) : M CategoryItem :=
  match item with
  | GroupItem _ t c subs =>
      i <- generateId ;; subs' <- regenerateSubIds subs ;;
      ret (GroupItem i t c subs')
  | OptionItem _ _ _ => i <- generateId ;; ret (with_id i item)
  end.

(** The body of [imported.forEach(impCat => ...)]. *)
Definition importCategory (newCategories : list Category) (impCat : Category)
  : M (list Category) :=
  match findIndex (fun c => String.eqb (cat_title c) (cat_title impCat))
                  newCategories with
  | Some existingCatIndex =>
    match newCategories !! existingCatIndex with
    | Some existingCat =>
        newItems <- foldM mergeItem (cat_items existingCat) (cat_items impCat) ;;
        now <- dateNow ;;
        ret (<[existingCatIndex := touch existingCat newItems now]> newCategories)
    | None => ret newCategories (* not reached *)
    end
  | None =>
    i <- generateId ;;
    its <- mapM regenerateItem (cat_items impCat) ;;
    ret (newCategories ++
         [{| cat_id := i; cat_title := cat_title impCat;
             cat_description := cat_description impCat;
             cat_createdAt := cat_createdAt impCat;
             cat_modifiedAt := cat_modifiedAt impCat;
             cat_items := its |}])
  end.

Definition importCategories (imported prev : list Category) : M (list Category) :=
  foldM importCategory prev imported.

(** ** Notions used by the statements *)

(** The invariant of the data model: a group's items are options. *)
Definition groupHoldsOptions (i : CategoryItem) : bool :=
  match i with
  | GroupItem _ _ _ sub => forallb isOption sub
  | OptionItem _ _ _ => true
  end.

Definition groupsAreFlat (l : list CategoryItem) : Prop :=
  forallb groupHoldsOptions l = true.

(** Number of options of a category: those at the root plus those inside
    every group. *)
Definition optionsIn (i : CategoryItem) : nat :=
  match i with
  | OptionItem _ _ _ => 1
  | GroupItem _ _ _ sub => length sub
  end.

Definition optionCount (l : list CategoryItem) : nat :=
  list_sum (optionsIn <$> l).



(** The ids of the root items are pairwise distinct. *)
Definition uniqueRootIds (l : list CategoryItem) : Prop :=
  NoDup (item_id <$> l).


(** [arr.findLastIndex(p)]. *)
Fixpoint findLastIndex {A} (p : A -> bool) (l : list A) : option nat :=
  match l with
  | [] => None
  | x :: l' =>
    match findLastIndex p l' with
    | Some i => Some (S i)
    | None => if p x then Some 0 else None
    end
  end.

(** The words of the specification for the root insertion of an option:
    "after the last Group, or at position 0 if none exist". *)
Definition placedAfterLastGroup (newItem : CategoryItem)
    (old new : list CategoryItem) : Prop :=
  new = match findLastIndex isGroup old with
        | Some k => splice_in (S k) newItem old
        | None => newItem :: old
        end.

(** The layout in which the two readings agree: every root group comes
    before every root option. *)
Definition groupsFirst (l : list CategoryItem) : Prop :=
  exists gs os, l = gs ++ os /\
                forallb isGroup gs = true /\ forallb isOption os = true.

(** The user's commands on the category page, each with the state of the
    component that its handler reads. *)
Inductive Command : Type :=
| AddItem (inputText : string) (modalMode : option ModalMode)
          (targetGroupId : option ID)
| DeleteItem (confirmed : bool) (itemId : ID) (parentGroupId : option ID)
| DragEnd (sortField : ItemSortField) (active : ID) (over : option ID)
| MoveOption (moveTargetId : option ID) (targetGroupId : string).

Definition perform (cmd : Command) (category : Category) : M Outcome :=
  match cmd with
  | AddItem inputText modalMode targetGroupId =>
      handleAddItem inputText modalMode targetGroupId category
  | DeleteItem confirmed itemId parentGroupId =>
      handleDeleteItem confirmed itemId parentGroupId category
  | DragEnd sortField active over =>
      handleDragEnd sortField category active over
  | MoveOption moveTargetId targetGroupId =>
      handleMoveOption moveTargetId targetGroupId category
  end.

(** The command asks [handleMoveOption] to move a root group into a group:
    the id to move is found at the root and is a group's, and the
    destination is not the root and is the id of a group among the items
    that remain once the group is taken out. *)
Definition nestsGroup (cmd : Command) (category : Category) : Prop :=
  match cmd with
  | MoveOption (Some x) dest =>
      x <> "" /\ dest <> ROOT /\
      exists k g d gi gt gc gitems,
        findIndex (has_id x) (cat_items category) = Some k /\
        cat_items category !! k = Some g /\ isGroup g = true /\
        findIndex (has_id dest) (delete k (cat_items category)) = Some d /\
        delete k (cat_items category) !! d = Some (GroupItem gi gt gc gitems)
  | _ => False
  end.





(** ** Concrete worlds and values used in the examples *)

Definition idOfNat (n : nat) : ID :=
  String (Ascii.ascii_of_nat (65 + n)) "".

(** A world whose ids are "A", "B", "C", ... and whose clock reads 1000,
    1001, ... *)
Definition world0 : World :=
  {| ids := idOfNat; clock := fun n => (1000 + Z.of_nat n)%Z |}.

Definition mkCat (t : string) (its : list CategoryItem) : Category :=
  {| cat_id := String.append "c-" t; cat_title := t; cat_description := None;
     cat_createdAt := 1; cat_modifiedAt := 1; cat_items := its |}.

(** A behaviour of [JSON.parse] on four texts, to instantiate the examples:
    it agrees with the platform on the object [{}], the number [42], the
    array [[]] and the unparsable text [{]. *)
Definition parseSample (s : string) : option JSONValue :=
  if String.eqb s "{}" then Some (JObject [])
  else if String.eqb s "42" then Some (JNumber 42)
  else if String.eqb s "[]" then Some (JArray [])
  else None.


(** *** Notions for the import merge *)

(** [l'] is [l] with its entries replaced by [R]-related ones, followed by
    new entries. *)
Definition grows {A} (R : relation A) (l l' : list A) : Prop :=
  exists mid rest, l' = mid ++ rest /\ Forall2 R l mid.

(** An item after the merge stands for an item before it: an option is
    unchanged; a group keeps its id, title and date, and its items are a
    prefix of the new ones. *)
Definition itemExtends (old new : CategoryItem) : Prop :=
  match old, new with
  | OptionItem _ _ _, _ => new = old
  | GroupItem i t c sub, GroupItem i' t' c' sub' =>
      i' = i /\ t' = t /\ c' = c /\ sub `prefix_of` sub'
  | GroupItem _ _ _ _, OptionItem _ _ _ => False
  end.

Definition catExtends (old new : Category) : Prop :=
  cat_id new = cat_id old /\ cat_title new = cat_title old /\
  cat_description new = cat_description old /\
  cat_createdAt new = cat_createdAt old /\
  grows itemExtends (cat_items old) (cat_items new).

Definition docExtends (old new : list Category) : Prop :=
  grows catExtends old new.

(** The items [items] already hold what the imported item brings: for an
    option, a root option of the same title; for a group, the first root
    group of the same title has an option for every title of the imported
    group. *)
Definition coversItem (items : list CategoryItem) (impItem : CategoryItem)
  : Prop :=
  match impItem with
  | GroupItem _ t _ impSub =>
      exists j gi gc sub,
        findIndex (fun i => isGroup i && String.eqb (item_title i) t) items
          = Some j /\
        items !! j = Some (GroupItem gi t gc sub) /\
        Forall (fun o => item_title o ∈ item_title <$> sub) impSub
  | OptionItem _ t _ =>
      some (fun i => isOption i && String.eqb (item_title i) t) items = true
  end.

Definition coversCat (doc : list Category) (impCat : Category) : Prop :=
  exists k e,
    findIndex (fun c => String.eqb (cat_title c) (cat_title impCat)) doc
      = Some k /\
    doc !! k = Some e /\
    Forall (coversItem (cat_items e)) (cat_items impCat).

(** Two documents are equal except for the [modifiedAt] of their
    categories. *)
Definition sameContent (d d' : list Category) : Prop :=
  Forall2 (fun c c' => c' = touch c (cat_items c) (cat_modifiedAt c')) d d'.

(** No two root groups of the category have the same title. *)
Definition distinctGroupTitles (c : Category) : Prop :=
  NoDup (item_title <$> List.filter isGroup (cat_items c)).

(** Two items of the same kind and title whose sub-items, if any, have the
    same titles in the same order. *)
Definition sameShape (x y : CategoryItem) : Prop :=
  isGroup y = isGroup x /\ item_title y = item_title x /\
  item_title <$> default [] (item_items y)
  = item_title <$> default [] (item_items x).

(** The two predicates of the invariant, for [Forall]. *)
Abbreviation flat := (fun i : CategoryItem => groupHoldsOptions i = true).
Abbreviation opt := (fun i : CategoryItem => isOption i = true).

(** ** The rest of the document store ([src/App.tsx]) *)

(** [setCategories(prev => [category, ...prev])]. *)
Definition addCategory (category : Category) (prev : list Category)
  : list Category :=
  category :: prev.

(** [setCategories(prev => prev.filter(c => c.id !== id))]. *)
Definition deleteCategory (id : ID) (prev : list Category) : list Category :=
  List.filter (fun c => negb (String.eqb (cat_id c) id)) prev.

(** *** [importCategories], the merge by id (first version of the file) *)

(** A JavaScript [Map] with string keys: its entries in insertion order,
    each key once.  [map.set(k, v)] replaces the value of a key that is
    there, at its place, and appends a key that is not. *)
Fixpoint mapSet {V} (k : ID) (v : V) (m : list (ID * V)) : list (ID * V) :=
  match m with
  | [] => [(k, v)]
  | (k', v') :: m' =>
      if String.eqb k' k then (k, v) :: m' else (k', v') :: mapSet k v m'
  end.

(** [new Map(entries)]. *)
Definition newMap {V} (entries : list (ID * V)) : list (ID * V) :=
  fold_left (fun m e => mapSet (fst e) (snd e) m) entries [].

(** [map.get(k)]. *)
Definition mapGet {V} (k : ID) (m : list (ID * V)) : option V :=
  snd <$> List.find (fun e => String.eqb (fst e) k) m.

(**
<<
    const map = new Map(prev.map(c => [c.id, c]));
    imported.forEach(c => map.set(c.id, c));
    return Array.from(map.values());
>>  *)
Definition importCategoriesById (imported prev : list Category)
  : list Category :=
  let map := newMap ((fun c => (cat_id c, c)) <$> prev) in
  let map := fold_left (fun m c => mapSet (cat_id c) c m) imported map in
  snd <$> map.

(** The category of [l] with id [x] that comes first. *)
Definition categoryById (x : ID) (l : list Category) : option Category :=
  List.find (fun c => String.eqb (cat_id c) x) l.

(** A sequence without its repetitions, each member at its first place. *)
Definition firstOccurrences (l : list ID) : list ID :=
  reverse (remove_dups (reverse l)).

(** The map that the merge by id builds: the categories of [l] entered one
    after the other under their ids. *)
Definition setCategory (m : list (ID * Category)) (c : Category) :=
  mapSet (cat_id c) c m.

(** Every entry of the map sits under the id of its category. *)
Definition keyed (m : list (ID * Category)) : Prop :=
  Forall (fun e => cat_id (snd e) = fst e) m.

(** The ids of an item and of the items it holds, and all the ids of a flat
    sequence: the root items and, one level down, the items of the groups. *)
Definition idsOf (i : CategoryItem) : list ID :=
  item_id i :: (item_id <$> default [] (item_items i)).

Definition allIds (l : list CategoryItem) : list ID := l ≫= idsOf.

(** ** The state of the category page ([CategoryDetail.tsx]) *)

Inductive SortDirection : Type := ASC | DESC.

(** The [useState] variables of the component. *)
Record DetailState : Type := mkDetailState {
  st_activeId : option ID;
  st_modalMode : option ModalMode;
  st_targetGroupId : option ID;
  st_moveTargetId : option ID;
  st_inputText : string;
  st_sortField : ItemSortField;
  st_sortDir : SortDirection
}.

Definition closeModal (st : DetailState) : DetailState :=
  {| st_activeId := st_activeId st; st_modalMode := None;
     st_targetGroupId := None; st_moveTargetId := None; st_inputText := "";
     st_sortField := st_sortField st; st_sortDir := st_sortDir st |}.

Definition openCreateModal (mode : ModalMode) (groupId : option ID)
    (st : DetailState) : DetailState :=
  {| st_activeId := st_activeId st; st_modalMode := Some mode;
     st_targetGroupId := groupId; st_moveTargetId := st_moveTargetId st;
     st_inputText := ""; st_sortField := st_sortField st;
     st_sortDir := st_sortDir st |}.

Definition openMoveModal (itemId : ID) (st : DetailState) : DetailState :=
  {| st_activeId := st_activeId st; st_modalMode := Some moveOption;
     st_targetGroupId := st_targetGroupId st; st_moveTargetId := Some itemId;
     st_inputText := st_inputText st; st_sortField := st_sortField st;
     st_sortDir := st_sortDir st |}.

Definition flipDir (d : SortDirection) : SortDirection :=
  match d with ASC => DESC | DESC => ASC end.

Definition ItemSortField_eqb (a b : ItemSortField) : bool :=
  match a, b with
  | MANUAL, MANUAL | TITLE, TITLE | CREATED_AT, CREATED_AT => true
  | _, _ => false
  end.

(** [toggleSort] of the category page: the same field again flips the
    direction, except for the manual order; another field is taken
    ascending. *)
Definition toggleSort (field : ItemSortField) (st : DetailState)
  : DetailState :=
  if ItemSortField_eqb (st_sortField st) field
     && negb (ItemSortField_eqb field MANUAL)
  then {| st_activeId := st_activeId st; st_modalMode := st_modalMode st;
          st_targetGroupId := st_targetGroupId st;
          st_moveTargetId := st_moveTargetId st;
          st_inputText := st_inputText st; st_sortField := st_sortField st;
          st_sortDir := flipDir (st_sortDir st) |}
  else {| st_activeId := st_activeId st; st_modalMode := st_modalMode st;
          st_targetGroupId := st_targetGroupId st;
          st_moveTargetId := st_moveTargetId st;
          st_inputText := st_inputText st; st_sortField := field;
          st_sortDir := ASC |}.

(** The Manual button: [onClick={() => setSortField(ItemSortField.MANUAL)}].
    The two other buttons call [toggleSort], with [TITLE] and with
    [CREATED_AT]. *)
Definition selectManual (st : DetailState) : DetailState :=
  {| st_activeId := st_activeId st; st_modalMode := st_modalMode st;
     st_targetGroupId := st_targetGroupId st;
     st_moveTargetId := st_moveTargetId st;
     st_inputText := st_inputText st; st_sortField := MANUAL;
     st_sortDir := st_sortDir st |}.

(** The handlers with the state they read and leave.  [handleAddItem] and
    [handleMoveOption] call [closeModal] after [updateCategory], on the
    paths that reach it. *)
Definition onAddItem (st : DetailState) (category : Category)
  : M (Outcome * DetailState) :=
  out <- handleAddItem (st_inputText st) (st_modalMode st)
           (st_targetGroupId st) category ;;
  ret (out, if blank (st_inputText st) then st else closeModal st).

Definition onMoveOption (st : DetailState) (targetGroupId : string)
    (category : Category) : M (Outcome * DetailState) :=
  out <- handleMoveOption (st_moveTargetId st) targetGroupId category ;;
  ret (out, match out with Updated _ => closeModal st | _ => st end).

(** ** The sorted views *)

(** [arr.sort(cmp)].  The language requires a stable sort, and the
    comparators of the code order by a number or by [localeCompare]: the
    result is the one stable sorted arrangement, which insertion from the
    right computes. *)
Fixpoint insertSorted {A} (cmp : A -> A -> Z) (x : A) (l : list A) : list A :=
  match l with
  | [] => [x]
  | y :: l' =>
      if (cmp x y <=? 0)%Z then x :: y :: l' else y :: insertSorted cmp x l'
  end.

Definition jsSort {A} (cmp : A -> A -> Z) (l : list A) : list A :=
  foldr (insertSorted cmp) [] l.

Definition item_createdAt (i : CategoryItem) : Z :=
  match i with OptionItem _ _ c | GroupItem _ _ c _ => c end.

(** [sortDir === SortDirection.ASC ? cmp : -cmp]. *)
Definition directed (sortDir : SortDirection) (cmp : Z) : Z :=
  match sortDir with ASC => cmp | DESC => (- cmp)%Z end.

Section Views.
(** [a.localeCompare(b)] is the platform's. *)
Variable localeCompare : string -> string -> Z.

(** [sortFn] of the category page. *)
Definition itemSortFn (sortField : ItemSortField) (sortDir : SortDirection)
    (a b : CategoryItem) : Z :=
  match sortField with
  | TITLE => directed sortDir (localeCompare (item_title a) (item_title b))
  | CREATED_AT => directed sortDir (item_createdAt a - item_createdAt b)
  | MANUAL => 0
  end.

Definition sortedItems (sortField : ItemSortField) (sortDir : SortDirection)
    (l : list CategoryItem) : list CategoryItem :=
  match sortField with
  | MANUAL => l
  | _ => jsSort (itemSortFn sortField sortDir) l
  end.

(** The [groups] and [options] that the page shows, in every sort mode. *)
Definition groupsView (sortField : ItemSortField) (sortDir : SortDirection)
    (category : Category) : list CategoryItem :=
  sortedItems sortField sortDir (List.filter isGroup (cat_items category)).

Definition optionsView (sortField : ItemSortField) (sortDir : SortDirection)
    (category : Category) : list CategoryItem :=
  sortedItems sortField sortDir (List.filter isOption (cat_items category)).
End Views.

(** ** The list page ([CategoryList.tsx]) *)

(** [s.includes(sub)]. *)
Fixpoint includes (s sub : string) : bool :=
  match s with
  | EmptyString => String.eqb sub ""
  | String a s' => String.prefix sub (String a s') || includes s' sub
  end.

(** [a.createdAt - b.createdAt] and the like, in the direction of the sort. *)
Definition byKey {A} (key : A -> Z) (sortDir : SortDirection) (a b : A) : Z :=
  directed sortDir (key a - key b).

(** [a] may stand before [b] in the direction of the sort. *)
Definition inOrder {A} (key : A -> Z) (sortDir : SortDirection) (a b : A)
  : Prop :=
  match sortDir with
  | ASC => (key a <= key b)%Z
  | DESC => (key b <= key a)%Z
  end.

Module CategoryList.

Inductive CategorySortField : Type := TITLE | CREATED_AT | MODIFIED_AT.

Definition CategorySortField_eqb (a b : CategorySortField) : bool :=
  match a, b with
  | TITLE, TITLE | CREATED_AT, CREATED_AT | MODIFIED_AT, MODIFIED_AT => true
  | _, _ => false
  end.

(** The [useState] variables of the component. *)
Record State : Type := mkState {
  isModalOpen : bool;
  editingCategory : option Category;
  formTitle : string;
  formDesc : string;
  deleteId : option ID;
  search : string;
  sortField : CategorySortField;
  sortDir : SortDirection
}.

Definition closeModal (st : State) : State :=
  {| isModalOpen := false; editingCategory := None;
     formTitle := formTitle st; formDesc := formDesc st;
     deleteId := deleteId st; search := search st;
     sortField := sortField st; sortDir := sortDir st |}.

(** [toggleSort] of the list page: the same field again flips the
    direction; another field is taken ascending. *)
Definition toggleSort (field : CategorySortField) (st : State) : State :=
  if CategorySortField_eqb (sortField st) field
  then {| isModalOpen := isModalOpen st;
          editingCategory := editingCategory st;
          formTitle := formTitle st; formDesc := formDesc st;
          deleteId := deleteId st; search := search st;
          sortField := sortField st; sortDir := flipDir (sortDir st) |}
  else {| isModalOpen := isModalOpen st;
          editingCategory := editingCategory st;
          formTitle := formTitle st; formDesc := formDesc st;
          deleteId := deleteId st; search := search st;
          sortField := field; sortDir := ASC |}.

(** [handleSubmit]: the categories and the state it leaves.  The object
    literal of the new category reads [generateId()], then [Date.now()]
    twice. *)
Definition handleSubmit (st : State) (categories : list Category)
  : M (list Category * State) :=
  if blank (formTitle st) then ret (categories, st)
  else
    match editingCategory st with
    | Some editing =>
        now <- dateNow ;;
        ret (updateCategory
               {| cat_id := cat_id editing; cat_title := formTitle st;
                  cat_description := Some (formDesc st);
                  cat_createdAt := cat_createdAt editing;
                  cat_modifiedAt := now; cat_items := cat_items editing |}
               categories,
             closeModal st)
    | None =>
        i <- generateId ;;
        created <- dateNow ;;
        modified <- dateNow ;;
        ret (addCategory
               {| cat_id := i; cat_title := formTitle st;
                  cat_description := Some (formDesc st);
                  cat_createdAt := created; cat_modifiedAt := modified;
                  cat_items := [] |}
               categories,
             closeModal st)
    end.

Section View.
(** [s.toLowerCase()] and [a.localeCompare(b)] are the platform's. *)
Variable toLowerCase : string -> string.
Variable localeCompare : string -> string -> Z.

(** [c.title.toLowerCase().includes(lower) ||
     c.description?.toLowerCase().includes(lower)]. *)
Definition matchesSearch (lower : string) (c : Category) : bool :=
  includes (toLowerCase (cat_title c)) lower ||
  match cat_description c with
  | Some d => includes (toLowerCase d) lower
  | None => false
  end.

Definition categorySortFn (sortField : CategorySortField)
    (sortDir : SortDirection) (a b : Category) : Z :=
  directed sortDir
    match sortField with
    | TITLE => localeCompare (cat_title a) (cat_title b)
    | CREATED_AT => (cat_createdAt a - cat_createdAt b)%Z
    | MODIFIED_AT => (cat_modifiedAt a - cat_modifiedAt b)%Z
    end.

Definition filteredAndSortedCategories (categories : list Category)
    (search : string) (sortField : CategorySortField)
    (sortDir : SortDirection) : list Category :=
  let result :=
    if negb (String.eqb search "")
    then List.filter (matchesSearch (toLowerCase search)) categories
    else categories in
  jsSort (categorySortFn sortField sortDir) result.
End View.

(** *** [handleImportFile] *)

(** What the [onload] callback does with the text of the file. *)
Inductive ImportResult : Type :=
| Imported (parsed : list JSONValue)  (* [importCategories(parsed)] *)
| InvalidFormat                       (* "Invalid file format ..." *)
| FailedToParse.                      (* the [catch] branch *)

(** [c.id], [c.title], [c.items] on a parsed value: [None] is the TypeError
    on [null], [Some None] is [undefined].  Only an object has one of these
    three properties; [fields] lists the properties of a parsed object, each
    name once ([JSON.parse] keeps the last value of a repeated name). *)
Definition getProp (c : JSONValue) (k : string) : option (option JSONValue) :=
  match c with
  | JNull => None
  | JObject fields =>
      Some (snd <$> List.find (fun e => String.eqb (fst e) k) fields)
  | _ => Some None
  end.

(** The truth value of a parsed value or [undefined]. *)
Definition jsTruthy (v : option JSONValue) : bool :=
  match v with
  | None | Some JNull => false
  | Some (JBool b) => b
  | Some (JNumber n) => negb (n =? 0)%Z
  | Some (JString s) => negb (String.eqb s "")
  | Some (JArray _) | Some (JObject _) => true
  end.

(** [c.id && c.title && Array.isArray(c.items)], [None] when it throws. *)
Definition looksLikeCategory (c : JSONValue) : option bool :=
  match getProp c "id" with
  | None => None
  | Some i =>
      if jsTruthy i then
        match getProp c "title" with
        | None => None
        | Some t =>
            if jsTruthy t then
              match getProp c "items" with
              | None => None
              | Some (Some its) => Some (isArray its)
              | Some None => Some false
              end
            else Some false
        end
      else Some false
  end.

(** [arr.every(p)] with a [p] that may throw: it stops at the first element
    that fails. *)
Fixpoint every {A} (p : A -> option bool) (l : list A) : option bool :=
  match l with
  | [] => Some true
  | x :: l' =>
      match p x with
      | None => None
      | Some false => Some false
      | Some true => every p l'
      end
  end.

Section ImportFile.
Variable JSON_parse : string -> option JSONValue.

Definition handleImportFile (content : string) : ImportResult :=
  match JSON_parse content with
  | None => FailedToParse
  | Some (JArray parsed) =>
      match every looksLikeCategory parsed with
      | Some true => Imported parsed
      | Some false => InvalidFormat
      | None => FailedToParse
      end
  | Some _ => InvalidFormat
  end.
End ImportFile.

End CategoryList.

(** ** Ids of a document and of the generator *)

(** The id of a category and the ids of its items; all the ids of a
    document. *)
Definition catIds (c : Category) : list ID := cat_id c :: allIds (cat_items c).

Definition docIds (doc : list Category) : list ID := doc ≫= catIds.

(** The results of the next [k] calls of [generateId()]. *)
Definition genIds (w : World) (k : nat) : list ID := ids w <$> seq 0 k.

(** [w'] is [w] after [k] calls of [generateId()]. *)
Definition shifted (w w' : World) (k : nat) : Prop :=
  forall n, ids w' n = ids w (k + n).

(** Run from [w], [m] calls [generateId()] some [k] times, and its result
    is related by [Q] to the ids it was given. *)
Definition generates {A} (m : M A) (w : World) (Q : A -> list ID -> Prop)
  : Prop :=
  exists k, Q (fst (m w)) (genIds w k) /\ shifted w (snd (m w)) k.

(** ** The notification bell ([NotificationCenter], [src/unnamed/part_000]) *)

(** [isOpen], [hasUnread] and the stored value of [NOTIFICATION_SEEN_KEY]. *)
Record Notifications : Type := mkNotifications {
  isOpen : bool;
  hasUnread : bool;
  seen : option string
}.

(** The initial state: [hasUnread] is [!localStorage.getItem(...)]. *)
Definition initNotifications (stored : option string) : Notifications :=
  {| isOpen := false; hasUnread := negb (truthy stored); seen := stored |}.

Definition toggleNotifications (st : Notifications) : Notifications :=
  if isOpen st
  then {| isOpen := false; hasUnread := hasUnread st; seen := seen st |}
  else {| isOpen := true; hasUnread := false;
          seen := if hasUnread st then Some "true" else seen st |}.

(** The two clicks: on the bell, and on the backdrop behind the open
    panel ([setIsOpen(false)]). *)
Inductive NotificationEvent : Type := ClickBell | ClickBackdrop.

Definition notify (st : Notifications) (e : NotificationEvent)
  : Notifications :=
  match e with
  | ClickBell => toggleNotifications st
  | ClickBackdrop =>
      {| isOpen := false; hasUnread := hasUnread st; seen := seen st |}
  end.

(** ** Sample data of the examples *)

Definition optP : CategoryItem := OptionItem "p" "P" 1.
Definition optQ : CategoryItem := OptionItem "q" "Q" 2.
Definition optR : CategoryItem := OptionItem "r" "R" 3.
Definition subS : CategoryItem := OptionItem "s" "S" 4.
Definition subT : CategoryItem := OptionItem "t" "T" 5.
Definition groupG : CategoryItem := GroupItem "g" "G" 6 [subS; subT].

(** A page in manual order with nothing open. *)
Definition idleDetail : DetailState :=
  {| st_activeId := None; st_modalMode := None; st_targetGroupId := None;
     st_moveTargetId := None; st_inputText := "";
     st_sortField := MANUAL; st_sortDir := ASC |}.

Definition idleList : CategoryList.State :=
  {| CategoryList.isModalOpen := false; CategoryList.editingCategory := None;
     CategoryList.formTitle := ""; CategoryList.formDesc := "";
     CategoryList.deleteId := None; CategoryList.search := "";
     CategoryList.sortField := CategoryList.CREATED_AT;
     CategoryList.sortDir := DESC |}.

(** The parsed text of a file with one category, and of one whose second
    entry is [null]. *)
Definition parsedCategory : JSONValue :=
  JObject [("id", JString "c1"); ("title", JString "Fruit");
           ("items", JArray [])].

(** ** Lemmas on the array primitives *)

Section ArrayLemmas.
Context {A : Type}.
Implicit Types (p : A -> bool) (l : list A).

Lemma findIndex_Some p l i :
  findIndex p l = Some i ->
  exists x, l !! i = Some x /\ p x = true /\ List.find p l = Some x /\
            forallb (fun y => negb (p y)) (take i l) = true.
Proof.
  revert i. induction l as [|y l IH]; intros i; simpl; [discriminate|].
  destruct (p y) eqn:Hy.
  - intros [= <-]. exists y. by rewrite Hy.
  - destruct (findIndex p l) as [j|]; simpl; [|discriminate].
    intros [= <-]. destruct (IH j eq_refl) as (x & ? & ? & ? & ?).
    exists x. simpl. by rewrite Hy.
Qed.

Lemma findIndex_None p l :
  findIndex p l = None <-> forallb (fun y => negb (p y)) l = true.
Proof.
  induction l as [|y l IH]; simpl; [done|].
  destruct (p y); simpl; [split; discriminate|].
  destruct (findIndex p l); simpl; split; try discriminate; try tauto.
  intros H. destruct IH as [_ IH]. by specialize (IH H).
Qed.

Lemma findIndex_None_find p l :
  findIndex p l = None <-> List.find p l = None.
Proof.
  induction l as [|y l IH]; simpl; [done|].
  destruct (p y); [split; discriminate|].
  destruct (findIndex p l); simpl.
  - split; [discriminate|]. intros H. apply IH in H. discriminate.
  - tauto.
Qed.

Lemma find_findIndex p l x :
  List.find p l = Some x ->
  exists i, findIndex p l = Some i /\ l !! i = Some x.
Proof.
  intros Hf. destruct (findIndex p l) as [i|] eqn:Hi.
  - destruct (findIndex_Some _ _ _ Hi) as (y & ? & ? & ? & ?).
    exists i. split; congruence.
  - apply findIndex_None_find in Hi. congruence.
Qed.

Lemma findIndex_first p l1 x l2 :
  forallb (fun y => negb (p y)) l1 = true -> p x = true ->
  findIndex p (l1 ++ x :: l2) = Some (length l1).
Proof.
  induction l1 as [|y l1 IH]; simpl; intros H Hx; [by rewrite Hx|].
  apply andb_true_iff in H as [Hy H].
  apply negb_true_iff in Hy. rewrite Hy, IH; done.
Qed.

Lemma some_findIndex p l :
  some p l = true -> is_Some (findIndex p l).
Proof.
  unfold some. induction l as [|y l IH]; simpl; [discriminate|].
  destruct (p y); simpl; [eauto|]. intros H.
  destruct (IH H) as [i ->]. simpl. eauto.
Qed.

Lemma filter_all p l : forallb p l = true -> List.filter p l = l.
Proof.
  induction l as [|y l IH]; simpl; [done|].
  intros H. apply andb_true_iff in H as [-> H]. by rewrite IH.
Qed.

Lemma some_false_forallb p l :
  some p l = false -> forallb (fun y => negb (p y)) l = true.
Proof.
  unfold some. induction l as [|y l IH]; simpl; [done|].
  intros H. apply orb_false_iff in H as [-> H]. simpl. auto.
Qed.
End ArrayLemmas.

Lemma isGroup_negb i : isGroup i = negb (isOption i).
Proof. by destruct i. Qed.

Lemma has_id_true x i : has_id x i = true <-> item_id i = x.
Proof. unfold has_id. apply String.eqb_eq. Qed.

Lemma has_id_false x i : has_id x i = false <-> item_id i <> x.
Proof. unfold has_id. apply String.eqb_neq. Qed.

Lemma truthy_Some s : truthy (Some s) = true <-> s <> "".
Proof.
  simpl. rewrite negb_true_iff. apply String.eqb_neq.
Qed.

(** Running a handler: unfold the plumbing of [M]. *)
Ltac run := unfold commit, bind, ret, dateNow, generateId; simpl.

(** ** The branches marked "not reached" *)

Lemma some_filter_findIndex (p : CategoryItem -> bool) x l :
  some (has_id x) (List.filter p l) = true -> is_Some (findIndex (has_id x) l).
Proof.
  intros Hs. apply some_findIndex. unfold some in *.
  apply existsb_exists in Hs as (g & Hin & Hg).
  apply existsb_exists. exists g. split; [|done].
  by apply List.filter_In in Hin as [Hin _].
Qed.

(** [handleDragEnd] enters [reorderRoot] with two ids that [groups] or
    [options] hold: both indices exist and the category is updated. *)
Lemma reorderRoot_updates (p q : CategoryItem -> bool) category active over w :
  some (has_id active) (List.filter p (cat_items category)) = true ->
  some (has_id over) (List.filter q (cat_items category)) = true ->
  exists c', fst (reorderRoot category active over w) = Updated c'.
Proof.
  intros [i Hi]%some_filter_findIndex [j Hj]%some_filter_findIndex.
  unfold reorderRoot. rewrite Hi, Hj. run. eauto.
Qed.

(** The index that the nested branch of [handleDragEnd] finds is the index
    of a group that holds the dragged id. *)
Lemma parentGroupIndex_group active l k :
  findIndex (fun i => isGroup i &&
                      some (has_id active) (default [] (item_items i))) l
    = Some k ->
  exists gi gt gc gitems,
    l !! k = Some (GroupItem gi gt gc gitems) /\
    is_Some (findIndex (has_id active) gitems).
Proof.
  intros (x & Hx & Hp & _)%findIndex_Some.
  destruct x as [i t c|i t c sub]; [discriminate|]. simpl in Hp.
  exists i, t, c, sub. split; [done|]. by apply some_findIndex.
Qed.

(** ** [blank] and [trim] *)

(** Every white-space code point of [trim] is blank, alone and among
    others; U+0085, U+180E, U+200B and U+2060, a letter, and the cut-off
    encodings [C2] and [E2 80] are not. *)
Lemma blank_white_space :
  Forall (fun l => blank (bytes l) = true)
    [[]; [9]; [10]; [11]; [12]; [13]; [32]; [194; 160]; [225; 154; 128];
     [226; 128; 128]; [226; 128; 129]; [226; 128; 130]; [226; 128; 131];
     [226; 128; 132]; [226; 128; 133]; [226; 128; 134]; [226; 128; 135];
     [226; 128; 136]; [226; 128; 137]; [226; 128; 138]; [226; 128; 168];
     [226; 128; 169]; [226; 128; 175]; [226; 129; 159]; [227; 128; 128];
     [239; 187; 191]; [32; 194; 160; 9; 227; 128; 128; 239; 187; 191]] /\
  Forall (fun l => blank (bytes l) = false)
    [[97]; [194; 133]; [225; 160; 142]; [226; 128; 139]; [226; 129; 160];
     [194; 160; 97]; [97; 194; 160]; [194]; [226; 128]].
Proof. split; repeat constructor. Qed.

(** ** [updateCategory] at an index *)

Lemma map_fmap {A B} (f : A -> B) (l : list A) : map f l = f <$> l.
Proof. induction l; simpl; by f_equal. Qed.

Lemma updateCategory_lookup updatedCat prev k c :
  prev !! k = Some c ->
  updateCategory updatedCat prev !! k
  = Some (if String.eqb (cat_id c) (cat_id updatedCat) then updatedCat else c).
Proof.
  intros Hk. unfold updateCategory.
  by rewrite map_fmap, list_lookup_fmap, Hk.
Qed.

Lemma updateCategory_at updatedCat prev k c :
  NoDup (cat_id <$> prev) ->
  prev !! k = Some c -> cat_id c = cat_id updatedCat ->
  updateCategory updatedCat prev = <[k := updatedCat]> prev.
Proof.
  intros Hnd Hk Hid. apply list_eq. intros j.
  destruct (prev !! j) as [d|] eqn:Hj.
  - rewrite (updateCategory_lookup _ _ _ _ Hj).
    destruct (decide (j = k)) as [->|Hne].
    + rewrite list_lookup_insert_eq by by eapply lookup_lt_Some.
      assert (d = c) as -> by congruence.
      by rewrite Hid, String.eqb_refl.
    + rewrite list_lookup_insert_ne by done. rewrite Hj.
      destruct (String.eqb (cat_id d) (cat_id updatedCat)) eqn:E; [|done].
      apply String.eqb_eq in E. exfalso. apply Hne.
      apply (NoDup_lookup _ j k (cat_id c) Hnd).
      * rewrite list_lookup_fmap, Hj. simpl. congruence.
      * by rewrite list_lookup_fmap, Hk.
  - assert (j <> k) by (intros ->; congruence).
    rewrite list_lookup_insert_ne by done. rewrite Hj.
    apply lookup_ge_None.
    unfold updateCategory. rewrite map_fmap, length_fmap.
    by apply lookup_ge_None.
Qed.

(** ** What the no-op paths do to [modifiedAt] *)

(** An id that no group holds is not found by the group search. *)
Lemma searchGroups_absent x l :
  findInGroups x l = None -> searchGroups x l = (None, l).
Proof.
  induction l as [|[i t c|i t c sub] l IH]; simpl; [done| |].
  - intros H. by rewrite (IH H).
  - destruct (List.find (has_id x) sub) eqn:Hs; [discriminate|].
    apply findIndex_None_find in Hs. rewrite Hs.
    intros H. by rewrite (IH H).
Qed.

(** C9. The paths that change nothing still update and save.  Inserting an
    option into a group whose id is absent or is held by an item that is
    not a group, and deleting under a parent group that does not hold the
    item, both call [updateCategory] with a category that has the same
    items and id and whose [modifiedAt] is the current time, the result of
    the last call of [Date.now()] the handler made (in [handleAddItem] the
    one before it dated the new item, which is dropped); the document with
    this category in its place goes to the storage.  [handleMoveOption]
    with an id that [findItem] finds nowhere returns without calling
    [updateCategory]: nothing is saved and the clock is not read. *)
Theorem C9_noop_paths_and_modifiedAt :
  (forall inputText gid category w,
      blank inputText = false -> gid <> "" ->
      (forall g, List.find (has_id gid) (cat_items category) = Some g ->
                 isGroup g = false) ->
      let r := handleAddItem inputText (Some createOption) (Some gid)
                 category w in
      exists c',
        fst r = Updated c' /\
        cat_items c' = cat_items category /\
        cat_modifiedAt c' = clock w 1 /\
        (forall n, clock (snd r) n = clock w (2 + n)) /\
        cat_id c' = cat_id category /\
        forall categories k,
          NoDup (cat_id <$> categories) -> categories !! k = Some category ->
          saved (fst r) categories = Some (<[k := c']> categories)) /\
  (forall itemId pg gi gt gc gitems category w,
      pg <> "" ->
      List.find (has_id pg) (cat_items category)
        = Some (GroupItem gi gt gc gitems) ->
      some (has_id itemId) gitems = false ->
      let r := handleDeleteItem true itemId (Some pg) category w in
      exists c',
        fst r = Updated c' /\
        cat_items c' = cat_items category /\
        cat_modifiedAt c' = clock w 0 /\
        (forall n, clock (snd r) n = clock w (1 + n)) /\
        cat_id c' = cat_id category /\
        forall categories k,
          NoDup (cat_id <$> categories) -> categories !! k = Some category ->
          saved (fst r) categories = Some (<[k := c']> categories)) /\
  (forall optionId dest category w categories,
      findItem category optionId = None ->
      let r := handleMoveOption (Some optionId) dest category w in
      fst r = NoUpdate /\ saved (fst r) categories = None /\
      forall n, clock (snd r) n = clock w n).
Proof.
  split; [|split].
  - intros inputText gid category w Hb Hg Habs r.
    assert (Hr : r = (Updated (touch category (cat_items category) (clock w 1)),
                      {| ids := fun n => ids w (S n);
                         clock := fun n => clock w (S (S n)) |})).
    { subst r. unfold handleAddItem. rewrite Hb. simpl is_createGroup.
      cbv iota. apply truthy_Some in Hg. rewrite Hg. simpl.
      destruct (findIndex (has_id gid) (cat_items category)) as [k|] eqn:Hk.
      - destruct (findIndex_Some _ _ _ Hk) as (x & Hx & _ & Hf & _).
        specialize (Habs _ Hf). rewrite Hx.
        destruct x; [|discriminate]. by run.
      - by run. }
    rewrite Hr. eexists. split; [reflexivity|]. repeat split.
    intros categories k Hnd Hk. cbn [fst saved]. f_equal.
    by apply (updateCategory_at _ _ k category).
  - intros itemId pg gi gt gc gitems category w Hp Hf Hno r.
    assert (Hr : r = (Updated (touch category (cat_items category) (clock w 0)),
                      {| ids := ids w; clock := fun n => clock w (S n) |})).
    { subst r. unfold handleDeleteItem. apply truthy_Some in Hp.
      rewrite Hp. simpl.
      destruct (find_findIndex _ _ _ Hf) as (k & -> & Hk). rewrite Hk.
      rewrite (filter_all _ _ (some_false_forallb _ _ Hno)).
      rewrite (list_insert_id _ _ _ Hk). by run. }
    rewrite Hr. eexists. split; [reflexivity|]. repeat split.
    intros categories k Hnd Hk. cbn [fst saved]. f_equal.
    by apply (updateCategory_at _ _ k category).
  - intros optionId dest category w categories Hnone r.
    assert (Hr : r = (NoUpdate, w)).
    { subst r. unfold handleMoveOption. unfold findItem in Hnone.
      destruct (truthy (Some optionId)); simpl; [|done].
      destruct (List.find (has_id optionId) (cat_items category)) eqn:Hr;
        [discriminate|].
      apply findIndex_None_find in Hr. rewrite Hr.
      by rewrite (searchGroups_absent _ _ Hnone). }
    rewrite Hr. done.
Qed.

Lemma C9_noop_paths_and_modifiedAt_witness :
  let cat1 := mkCat "T" [OptionItem "o1" "a" 1] in
  let cat2 := mkCat "T" [GroupItem "g1" "g" 1 [OptionItem "o1" "a" 1]] in
  (exists c',
     fst (handleAddItem "n" (Some createOption) (Some "o1") cat1 world0)
       = Updated c' /\
     cat_items c' = [OptionItem "o1" "a" 1] /\
     cat_modifiedAt c' = 1001%Z /\
     saved (fst (handleAddItem "n" (Some createOption) (Some "o1") cat1
                   world0)) [mkCat "S" []; cat1]
       = Some [mkCat "S" []; c']) /\
  (exists c',
     fst (handleDeleteItem true "zz" (Some "g1") cat2 world0) = Updated c' /\
     cat_items c' = [GroupItem "g1" "g" 1 [OptionItem "o1" "a" 1]] /\
     cat_modifiedAt c' = 1000%Z) /\
  fst (handleMoveOption (Some "zz") "g1" cat2 world0) = NoUpdate /\
  saved (fst (handleMoveOption (Some "zz") "g1" cat2 world0)) [cat2] = None.
Proof.
  intros cat1 cat2.
  destruct C9_noop_paths_and_modifiedAt as (Hadd & Hdel & Hmove).
  split; [|split].
  - destruct (Hadd "n" "o1" cat1 world0) as (c' & H1 & H2 & H3 & _ & _ & H6).
    + reflexivity.
    + discriminate.
    + simpl. intros g [= <-]. reflexivity.
    + exists c'. split; [exact H1|]. split; [exact H2|]. split; [exact H3|].
      apply (H6 [mkCat "S" []; cat1] 1).
      * apply (bool_decide_unpack _). vm_compute. exact I.
      * reflexivity.
  - destruct (Hdel "zz" "g1" "g1" "g" 1%Z [OptionItem "o1" "a" 1] cat2 world0)
      as (c' & H1 & H2 & H3 & _).
    + discriminate.
    + reflexivity.
    + reflexivity.
    + exists c'. split; [exact H1|]. split; [exact H2|]. exact H3.
  - destruct (Hmove "zz" "g1" cat2 world0 [cat2]) as (H1 & H2 & _).
    + reflexivity.
    + split; [exact H1|exact H2].
Defined.

(** ** [handleDeleteItem] under a parent that is not a group *)

(** A parent id that no root item has leaves the items as they are. *)
Lemma handleDeleteItem_absent_parent itemId pg category w :
  pg <> "" ->
  List.find (has_id pg) (cat_items category) = None ->
  fst (handleDeleteItem true itemId (Some pg) category w)
  = Updated (touch category (cat_items category) (clock w 0)).
Proof.
  intros Hp Hf. unfold handleDeleteItem.
  apply truthy_Some in Hp. rewrite Hp. simpl.
  apply findIndex_None_find in Hf. by rewrite Hf.
Qed.

(** A parent id held by a root option makes the handler throw: it reads
    [group.items.filter] on an object without [items]. *)
Lemma handleDeleteItem_option_parent_throws itemId pg o category w :
  pg <> "" ->
  List.find (has_id pg) (cat_items category) = Some o ->
  isGroup o = false ->
  handleDeleteItem true itemId (Some pg) category w = (Threw, w).
Proof.
  intros Hp Hf Ho. unfold handleDeleteItem.
  apply truthy_Some in Hp. rewrite Hp. simpl.
  destruct (find_findIndex _ _ _ Hf) as (k & -> & ->).
  by destruct o.
Qed.

(** C3, at the failing input: with the root option "o1" named as the parent
    group, [handleDeleteItem] throws instead of leaving the category as it
    is; [handleAddItem], which tests [newItems[groupIndex].type === 'GROUP']
    at the same place, leaves the items as they are. *)
Theorem C3_delete_under_option_parent_throws :
  let category := mkCat "T" [OptionItem "o1" "a" 1] in
  fst (handleDeleteItem true "x" (Some "o1") category world0) = Threw /\
  fst (handleAddItem "n" (Some createOption) (Some "o1") category world0)
    = Updated (touch category (cat_items category) 1001).
Proof. repeat split. Qed.

(** ** Insertion at the root *)

Lemma forallb_isGroup_negb l :
  forallb isGroup l = true ->
  forallb (fun y => negb (isOption y)) l = true.
Proof.
  induction l as [|i l IH]; simpl; [done|].
  intros H. apply andb_true_iff in H as [Hi H].
  rewrite isGroup_negb in Hi. rewrite Hi. auto.
Qed.

Lemma insertBeforeFirstOption_split n gs o rest :
  forallb isGroup gs = true -> isOption o = true ->
  insertBeforeFirstOption n (gs ++ o :: rest) = gs ++ n :: o :: rest.
Proof.
  intros Hgs Ho. unfold insertBeforeFirstOption.
  rewrite (findIndex_first isOption gs o rest (forallb_isGroup_negb _ Hgs) Ho).
  unfold splice_in.
  by rewrite take_app_length, drop_app_length.
Qed.

Lemma insertBeforeFirstOption_no_option n l :
  forallb isGroup l = true -> insertBeforeFirstOption n l = l ++ [n].
Proof.
  intros Hl. unfold insertBeforeFirstOption.
  by rewrite (proj2 (findIndex_None isOption l) (forallb_isGroup_negb _ Hl)).
Qed.

Lemma findLastIndex_options os :
  forallb isOption os = true -> findLastIndex isGroup os = None.
Proof.
  induction os as [|o os IH]; simpl; [done|].
  intros H. apply andb_true_iff in H as [Ho H]. rewrite (IH H).
  by rewrite isGroup_negb, Ho.
Qed.

Lemma findLastIndex_groupsFirst g gs os :
  forallb isGroup (g :: gs) = true -> forallb isOption os = true ->
  findLastIndex isGroup ((g :: gs) ++ os) = Some (length gs).
Proof.
  revert g. induction gs as [|g' gs IH]; intros g Hgs Hos.
  - simpl in *. rewrite (findLastIndex_options _ Hos).
    apply andb_true_iff in Hgs as [-> _]. done.
  - change (forallb isGroup (g :: g' :: gs))
      with (isGroup g && forallb isGroup (g' :: gs)) in Hgs.
    apply andb_true_iff in Hgs as [_ Hgs].
    change (findLastIndex isGroup ((g :: g' :: gs) ++ os))
      with (match findLastIndex isGroup ((g' :: gs) ++ os) with
            | Some i => Some (S i)
            | None => if isGroup g then Some 0 else None
            end).
    by rewrite (IH g' Hgs Hos).
Qed.

Lemma insertBeforeFirstOption_groupsFirst n l :
  groupsFirst l -> placedAfterLastGroup n l (insertBeforeFirstOption n l).
Proof.
  intros (gs & os & -> & Hgs & Hos). unfold placedAfterLastGroup.
  assert (Hins : insertBeforeFirstOption n (gs ++ os) = gs ++ n :: os).
  { destruct os as [|o os].
    - rewrite app_nil_r. by apply insertBeforeFirstOption_no_option.
    - simpl in Hos. apply andb_true_iff in Hos as [Ho _].
      by apply insertBeforeFirstOption_split. }
  rewrite Hins. destruct gs as [|g gs].
  - simpl. by rewrite (findLastIndex_options _ Hos).
  - rewrite (findLastIndex_groupsFirst g gs os Hgs Hos).
    unfold splice_in.
    change (S (length gs)) with (length (g :: gs)).
    by rewrite take_app_length, drop_app_length.
Qed.

(** C6, as amended.  At the root a new group is prepended; a new option is
    placed immediately before the first option of [items], and at the end
    when [items] has no option.  When every root group comes before every
    root option, that place is the one after the last group (position 0
    when there is no group). *)
Theorem C6_insert_at_root inputText modalMode targetGroupId category w :
  blank inputText = false ->
  is_createOption modalMode && truthy targetGroupId = false ->
  let l := cat_items category in
  let newGroup := GroupItem (ids w 0) inputText (clock w 0) [] in
  let newOption := OptionItem (ids w 0) inputText (clock w 0) in
  exists c',
    fst (handleAddItem inputText modalMode targetGroupId category w)
      = Updated c' /\
    (is_createGroup modalMode = true -> cat_items c' = newGroup :: l) /\
    (is_createGroup modalMode = false ->
     (forall gs o rest,
         l = gs ++ o :: rest -> forallb isGroup gs = true ->
         isOption o = true ->
         cat_items c' = gs ++ newOption :: o :: rest) /\
     (forallb isGroup l = true -> cat_items c' = l ++ [newOption]) /\
     (groupsFirst l -> placedAfterLastGroup newOption l (cat_items c'))).
Proof.
  intros Hb Hroot l newGroup newOption.
  unfold handleAddItem. rewrite Hb, Hroot.
  destruct (is_createGroup modalMode) eqn:Hm; run.
  - eexists. split; [reflexivity|]. split; [done|discriminate].
  - eexists. split; [reflexivity|]. split; [discriminate|].
    intros _. simpl. split; [|split].
    + intros gs o rest Hl Hgs Ho. fold l. rewrite Hl.
      by apply insertBeforeFirstOption_split.
    + intros Hl. by apply insertBeforeFirstOption_no_option.
    + apply insertBeforeFirstOption_groupsFirst.
Qed.

Lemma C6_insert_at_root_witness :
  exists c',
    fst (handleAddItem "n" (Some createOption) None
           (mkCat "T" [GroupItem "g1" "g" 1 []; OptionItem "o1" "a" 1]) world0)
      = Updated c' /\
    cat_items c' = [GroupItem "g1" "g" 1 []; OptionItem "A" "n" 1000;
                    OptionItem "o1" "a" 1].
Proof.
  destruct (C6_insert_at_root "n" (Some createOption) None
              (mkCat "T" [GroupItem "g1" "g" 1 []; OptionItem "o1" "a" 1])
              world0 eq_refl eq_refl) as (c' & Hrun & _ & Hopt).
  exists c'. split; [exact Hrun|].
  destruct (Hopt eq_refl) as (Hsplit & _ & _).
  exact (Hsplit [GroupItem "g1" "g" 1 []] (OptionItem "o1" "a" 1) []
           eq_refl eq_refl eq_refl).
Defined.

(** C6 as stated fails when a root option comes before a root group (a
    layout the import merge produces, which appends new groups): the new
    option lands at position 0, before the group. *)
Lemma C6_counterexample :
  let category :=
    mkCat "T" [OptionItem "o1" "a" 1; GroupItem "g1" "g" 1 []] in
  exists c',
    fst (handleAddItem "n" (Some createOption) None category world0)
      = Updated c' /\
    cat_items c' = [OptionItem "A" "n" 1000; OptionItem "o1" "a" 1;
                    GroupItem "g1" "g" 1 []] /\
    ~ placedAfterLastGroup (OptionItem "A" "n" 1000)
        (cat_items category) (cat_items c').
Proof.
  eexists. split; [reflexivity|]. split; [reflexivity|].
  unfold placedAfterLastGroup. simpl. discriminate.
Qed.

(** ** The invariant "a group holds only options" *)

Lemma forallb_Forall {A} (p : A -> bool) (l : list A) :
  forallb p l = true <-> Forall (fun x => p x = true) l.
Proof.
  induction l as [|x l IH]; simpl.
  - split; [constructor|done].
  - rewrite andb_true_iff, IH, Forall_cons. tauto.
Qed.

Lemma Forall_List_filter {A} (P : A -> Prop) (p : A -> bool) (l : list A) :
  Forall P l -> Forall P (List.filter p l).
Proof.
  induction 1 as [|x l Hx Hl IH]; simpl; [constructor|].
  destruct (p x); [by constructor|done].
Qed.

Lemma Forall_splice_in {A} (P : A -> Prop) k x (l : list A) :
  P x -> Forall P l -> Forall P (splice_in k x l).
Proof.
  intros Hx Hl. unfold splice_in. apply Forall_app. split.
  - by apply Forall_take.
  - constructor; [done|]. by apply Forall_drop.
Qed.

Lemma Forall_arrayMove {A} (P : A -> Prop) (l : list A) i j :
  Forall P l -> Forall P (arrayMove l i j).
Proof.
  intros Hl. unfold arrayMove. destruct (l !! i) as [x|] eqn:Hx; [|done].
  apply Forall_splice_in.
  - by eapply Forall_lookup_1.
  - by apply Forall_delete.
Qed.

Lemma Forall_insertBeforeFirstOption (P : CategoryItem -> Prop) n l :
  P n -> Forall P l -> Forall P (insertBeforeFirstOption n l).
Proof.
  intros Hn Hl. unfold insertBeforeFirstOption.
  destruct (findIndex isOption l).
  - by apply Forall_splice_in.
  - apply Forall_app. split; [done|]. by constructor.
Qed.

Lemma groupsAreFlat_Forall l : groupsAreFlat l <-> Forall flat l.
Proof. apply forallb_Forall. Qed.

Lemma flat_group i t c sub : flat (GroupItem i t c sub) <-> Forall opt sub.
Proof. simpl. apply forallb_Forall. Qed.

Lemma flat_option i : isOption i = true -> flat i.
Proof. by destruct i. Qed.

Lemma flat_lookup_group l k i t c sub :
  Forall flat l -> l !! k = Some (GroupItem i t c sub) -> Forall opt sub.
Proof.
  intros Hl Hk. apply (flat_group i t c sub).
  by apply (Forall_lookup_1 _ _ _ _ Hl Hk).
Qed.

(** The group search of [handleMoveOption] hands out an option and leaves
    flat groups behind. *)
Lemma searchGroups_flat x l it l' :
  Forall flat l -> searchGroups x l = (Some it, l') ->
  isOption it = true /\ Forall flat l'.
Proof.
  revert l'. induction l as [|[i t c|i t c sub] l IH]; intros l' Hl; simpl.
  - discriminate.
  - apply Forall_cons in Hl as [Ho Hl].
    destruct (searchGroups x l) as [found rest] eqn:Hs.
    intros [= -> <-]. destruct (IH rest Hl eq_refl) as [? ?].
    split; [done|]. by constructor.
  - apply Forall_cons in Hl as [Hg Hl]. apply flat_group in Hg.
    destruct (findIndex (has_id x) sub) as [k|] eqn:Hk.
    + intros [= Hit <-]. split.
      * by apply (Forall_lookup_1 _ _ _ _ Hg Hit).
      * constructor; [|done]. apply flat_group. by apply Forall_delete.
    + destruct (searchGroups x l) as [found rest] eqn:Hs.
      intros [= -> <-]. destruct (IH rest Hl eq_refl) as [? ?].
      split; [done|]. constructor; [|done]. by apply flat_group.
Qed.

Lemma handleAddItem_flat inputText modalMode targetGroupId category w c' :
  groupsAreFlat (cat_items category) ->
  fst (handleAddItem inputText modalMode targetGroupId category w) = Updated c' ->
  groupsAreFlat (cat_items c').
Proof.
  rewrite !groupsAreFlat_Forall. intros Hflat. unfold handleAddItem.
  destruct (blank inputText); [discriminate|].
  destruct modalMode as [[]|]; simpl is_createGroup; simpl is_createOption;
    cbv iota; run.
  - (* createOption *)
    destruct (truthy targetGroupId); simpl.
    + destruct (findIndex _ _) as [k|]; [|by intros [= <-]].
      destruct (cat_items category !! k) as [[i t c|i t c sub]|] eqn:Hk;
        intros [= <-]; simpl; try done.
      apply Forall_insert; [done|]. apply flat_group. constructor; [done|].
      by eapply flat_lookup_group.
    + intros [= <-]. simpl. by apply Forall_insertBeforeFirstOption.
  - intros [= <-]. simpl. by constructor.
  - intros [= <-]. simpl. by apply Forall_insertBeforeFirstOption.
  - intros [= <-]. simpl. by apply Forall_insertBeforeFirstOption.
Qed.

Lemma handleDeleteItem_flat confirmed itemId parentGroupId category w c' :
  groupsAreFlat (cat_items category) ->
  fst (handleDeleteItem confirmed itemId parentGroupId category w) = Updated c' ->
  groupsAreFlat (cat_items c').
Proof.
  rewrite !groupsAreFlat_Forall. intros Hflat. unfold handleDeleteItem.
  destruct confirmed; simpl; [|discriminate].
  destruct (truthy parentGroupId).
  - destruct (findIndex _ _) as [k|]; [|by intros [= <-]].
    destruct (cat_items category !! k) as [[i t c|i t c sub]|] eqn:Hk;
      try discriminate.
    intros [= <-]. simpl. apply Forall_insert; [done|].
    apply flat_group, Forall_List_filter. by eapply flat_lookup_group.
  - intros [= <-]. simpl. by apply Forall_List_filter.
Qed.

Lemma reorderRoot_flat category active over w c' :
  Forall flat (cat_items category) ->
  fst (reorderRoot category active over w) = Updated c' ->
  Forall flat (cat_items c').
Proof.
  intros Hflat. unfold reorderRoot.
  destruct (findIndex (has_id active) _); [|discriminate].
  destruct (findIndex (has_id over) _); [|discriminate].
  intros [= <-]. simpl. by apply Forall_arrayMove.
Qed.

Lemma handleDragEnd_flat sortField category active over w c' :
  groupsAreFlat (cat_items category) ->
  fst (handleDragEnd sortField category active over w) = Updated c' ->
  groupsAreFlat (cat_items c').
Proof.
  rewrite !groupsAreFlat_Forall. intros Hflat. unfold handleDragEnd.
  destruct sortField; try discriminate.
  destruct over as [over|]; [|discriminate].
  destruct (String.eqb active over); [discriminate|].
  destruct (_ && _); [by apply reorderRoot_flat|].
  destruct (_ && _); [by apply reorderRoot_flat|].
  destruct (findIndex _ _) as [k|]; [|discriminate].
  destruct (cat_items category !! k) as [[i t c|i t c sub]|] eqn:Hk;
    try discriminate.
  destruct (some (has_id over) sub); [|discriminate].
  destruct (findIndex (has_id active) sub); [|discriminate].
  destruct (findIndex (has_id over) sub); [|discriminate].
  intros [= <-]. simpl. apply Forall_insert; [done|].
  apply flat_group, Forall_arrayMove. by eapply flat_lookup_group.
Qed.

Lemma appendToGroup_flat dest it l :
  isOption it = true -> Forall flat l ->
  Forall flat
    match findIndex (has_id dest) l with
    | Some destIndex =>
      match l !! destIndex with
      | Some (GroupItem gi gt gc gitems) =>
          <[destIndex := GroupItem gi gt gc (gitems ++ [it])]> l
      | _ => l
      end
    | None => l
    end.
Proof.
  intros Hit Hl. destruct (findIndex _ _) as [k|]; [|done].
  destruct (l !! k) as [[i t c|i t c sub]|] eqn:Hk; try done.
  apply Forall_insert; [done|]. apply flat_group, Forall_app. split.
  - by eapply flat_lookup_group.
  - by constructor.
Qed.

Lemma nested_group_not_flat l d gi gt gc gitems g :
  d < length l -> isGroup g = true ->
  ~ Forall flat (<[d := GroupItem gi gt gc (gitems ++ [g])]> l).
Proof.
  intros Hd Hg Hall.
  assert (Hk : <[d := GroupItem gi gt gc (gitems ++ [g])]> l !! d
               = Some (GroupItem gi gt gc (gitems ++ [g])))
    by by apply list_lookup_insert_eq.
  pose proof (flat_lookup_group _ _ _ _ _ _ Hall Hk) as Hsub.
  apply Forall_app in Hsub as [_ Hlast].
  apply Forall_cons in Hlast as [Ho _].
  rewrite isGroup_negb, Ho in Hg. discriminate.
Qed.

Lemma handleMoveOption_flat_iff moveTargetId dest category w c' :
  groupsAreFlat (cat_items category) ->
  fst (handleMoveOption moveTargetId dest category w) = Updated c' ->
  groupsAreFlat (cat_items c')
  <-> ~ nestsGroup (MoveOption moveTargetId dest) category.
Proof.
  rewrite !groupsAreFlat_Forall. intros Hflat. unfold handleMoveOption.
  destruct moveTargetId as [x|]; [|discriminate].
  destruct (truthy (Some x)) eqn:Hx; [|discriminate].
  apply truthy_Some in Hx.
  change (default "" (Some x)) with x. change (negb true) with false.
  cbv iota zeta. cbn [nestsGroup].
  destruct (findIndex (has_id x) (cat_items category)) as [k|] eqn:Hk.
  - destruct (findIndex_Some _ _ _ Hk) as (it & Hit & _ & Hfind & _).
    rewrite Hit.
    assert (Hdel : Forall flat (delete k (cat_items category)))
      by by apply Forall_delete.
    assert (Hfit : flat it) by by apply (Forall_lookup_1 _ _ _ _ Hflat Hit).
    destruct (String.eqb dest ROOT) eqn:Hd.
    + apply String.eqb_eq in Hd. intros [= <-]. simpl. split.
      * intros _ (_ & Hne & _). done.
      * intros _. by apply Forall_insertBeforeFirstOption.
    + apply String.eqb_neq in Hd.
      destruct (isOption it) eqn:Ho.
      * intros [= <-]. simpl. split.
        -- intros _ (_ & _ & k' & g & d & gi & gt & gc & gitems & Hk' & Hg
                       & Hgrp & _).
           assert (g = it) as -> by congruence.
           rewrite isGroup_negb, Ho in Hgrp. discriminate.
        -- intros _. by apply appendToGroup_flat.
      * assert (Hgrp : isGroup it = true) by by rewrite isGroup_negb, Ho.
        destruct (findIndex (has_id dest) (delete k (cat_items category)))
          as [d|] eqn:Hdest.
        -- destruct (delete k (cat_items category) !! d)
             as [[i t c|gi gt gc gitems]|] eqn:Hlook.
           ++ intros [= <-]. simpl. split; [|done].
              intros _ (_ & _ & k' & g & d' & gi & gt & gc & gitems & Hk' & _
                          & _ & Hd' & Hl').
              congruence.
           ++ intros [= <-]. simpl. split.
              ** intros Hall. exfalso.
                 eapply nested_group_not_flat; [|exact Hgrp|exact Hall].
                 by eapply lookup_lt_Some.
              ** intros Hno. exfalso. apply Hno.
                 split; [done|]. split; [done|].
                 by exists k, it, d, gi, gt, gc, gitems.
           ++ intros [= <-]. simpl. split; [|done].
              intros _ (_ & _ & k' & g & d' & gi & gt & gc & gitems & Hk' & _
                          & _ & Hd' & Hl').
              congruence.
        -- intros [= <-]. simpl. split; [|done].
           intros _ (_ & _ & k' & g & d' & gi & gt & gc & gitems & Hk' & _
                       & _ & Hd' & _).
           congruence.
  - destruct (searchGroups x (cat_items category)) as [[it|] l'] eqn:Hs;
      [|discriminate].
    destruct (searchGroups_flat _ _ _ _ Hflat Hs) as [Ho Hl'].
    assert (Hno : ~ (x <> "" /\ dest <> ROOT /\
                     exists k g d gi gt gc gitems,
                       None = Some k /\
                       cat_items category !! k = Some g /\ isGroup g = true /\
                       findIndex (has_id dest) (delete k (cat_items category))
                         = Some d /\
                       delete k (cat_items category) !! d
                         = Some (GroupItem gi gt gc gitems))).
    { intros (_ & _ & k' & g & d' & gi & gt & gc & gitems & Hk' & _).
      discriminate. }
    destruct (String.eqb dest ROOT).
    + intros [= <-]. simpl. split; [done|]. intros _.
      apply Forall_insertBeforeFirstOption; [by apply flat_option|done].
    + intros [= <-]. simpl. split; [done|]. intros _.
      by apply appendToGroup_flat.
Qed.

(** C2.  On a category whose groups hold options, whatever a command
    commits has groups that hold options, except in one case, where it has
    not: [handleMoveOption] is given the id of a root group and, as
    destination, the id of a group among the items that remain.  The
    handler casts what it finds at the root to [OptionItem] without a test
    of its type and appends the group to the destination's items. *)
Theorem C2_flat_unless_group_moved_into_group cmd category w c' :
  groupsAreFlat (cat_items category) ->
  fst (perform cmd category w) = Updated c' ->
  groupsAreFlat (cat_items c') <-> ~ nestsGroup cmd category.
Proof.
  intros Hflat Hup. destruct cmd; cbn [perform nestsGroup] in *.
  - split; [tauto|]. intros _. by eapply handleAddItem_flat.
  - split; [tauto|]. intros _. by eapply handleDeleteItem_flat.
  - split; [tauto|]. intros _. by eapply handleDragEnd_flat.
  - by eapply handleMoveOption_flat_iff.
Qed.

Lemma C2_flat_unless_group_moved_into_group_witness :
  let category :=
    mkCat "T" [GroupItem "g1" "a" 1 []; GroupItem "g2" "b" 1 []] in
  let c' := touch category [GroupItem "g2" "b" 1 [GroupItem "g1" "a" 1 []]]
              1000 in
  groupsAreFlat (cat_items category) /\
  fst (perform (MoveOption (Some "g1") "g2") category world0) = Updated c' /\
  ~ groupsAreFlat (cat_items c').
Proof.
  intros category c'. split; [reflexivity|]. split; [reflexivity|].
  intros Hflat.
  apply (proj1 (C2_flat_unless_group_moved_into_group
                  (MoveOption (Some "g1") "g2") category world0 c'
                  eq_refl eq_refl) Hflat).
  split; [discriminate|]. split; [discriminate|].
  by exists 0, (GroupItem "g1" "a" 1 []), 0, "g2", "b", 1%Z, [].
Defined.

(** ** [handleMoveOption] and the number of options *)

Lemma optionCount_app l1 l2 :
  optionCount (l1 ++ l2) = optionCount l1 + optionCount l2.
Proof. unfold optionCount. by rewrite fmap_app, list_sum_app. Qed.

Lemma optionCount_delete l k x :
  l !! k = Some x -> optionCount (delete k l) + optionsIn x = optionCount l.
Proof.
  intros Hk. rewrite <- (take_drop_middle l k x Hk) at 2.
  rewrite delete_take_drop, !optionCount_app.
  change (x :: drop (S k) l) with ([x] ++ drop (S k) l).
  rewrite optionCount_app. unfold optionCount at 4. simpl. lia.
Qed.

Lemma optionCount_splice_in k x l :
  optionCount (splice_in k x l) = optionsIn x + optionCount l.
Proof.
  unfold splice_in. rewrite <- (take_drop k l) at 3.
  change (x :: drop k l) with ([x] ++ drop k l).
  rewrite !optionCount_app. unfold optionCount at 2. simpl. lia.
Qed.

Lemma optionCount_insertBeforeFirstOption n l :
  optionCount (insertBeforeFirstOption n l) = optionsIn n + optionCount l.
Proof.
  unfold insertBeforeFirstOption. destruct (findIndex isOption l).
  - apply optionCount_splice_in.
  - rewrite optionCount_app. unfold optionCount at 2. simpl. lia.
Qed.

Lemma optionCount_insert l k x y :
  l !! k = Some x ->
  optionCount (<[k:=y]> l) + optionsIn x = optionCount l + optionsIn y.
Proof.
  intros Hk. rewrite <- (take_drop_middle l k x Hk) at 2.
  rewrite insert_take_drop by by eapply lookup_lt_Some.
  rewrite !optionCount_app.
  change (x :: drop (S k) l) with ([x] ++ drop (S k) l).
  change (y :: drop (S k) l) with ([y] ++ drop (S k) l).
  rewrite !optionCount_app. unfold optionCount at 2 5. simpl. lia.
Qed.

Lemma searchGroups_count x l it l' :
  searchGroups x l = (Some it, l') -> optionCount l' + 1 = optionCount l.
Proof.
  revert l'. induction l as [|[i t c|i t c sub] l IH]; intros l'; simpl.
  - discriminate.
  - destruct (searchGroups x l) as [found rest]. intros [= -> <-].
    specialize (IH rest eq_refl).
    change (optionCount (OptionItem i t c :: rest))
      with (1 + optionCount rest).
    change (optionCount (OptionItem i t c :: l)) with (1 + optionCount l).
    lia.
  - destruct (findIndex (has_id x) sub) as [k|] eqn:Hk.
    + intros [= Hit <-].
      change (optionCount (GroupItem i t c (delete k sub) :: l))
        with (length (delete k sub) + optionCount l).
      change (optionCount (GroupItem i t c sub :: l))
        with (length sub + optionCount l).
      rewrite length_delete by eauto.
      apply lookup_lt_Some in Hit. lia.
    + destruct (searchGroups x l) as [found rest]. intros [= -> <-].
      specialize (IH rest eq_refl).
      change (optionCount (GroupItem i t c sub :: rest))
        with (length sub + optionCount rest).
      change (optionCount (GroupItem i t c sub :: l))
        with (length sub + optionCount l).
      lia.
Qed.

(** Where the move keeps the number of options and where it does not: on
    a category whose groups hold options, an option that is moved is
    counted once before and once after, unless the destination is not the
    root and does not resolve to a group among the items that remain; then
    the option is gone. *)
Lemma handleMoveOption_optionCount moveTargetId dest category w c' :
  groupsAreFlat (cat_items category) ->
  (forall x it, moveTargetId = Some x ->
                List.find (has_id x) (cat_items category) = Some it ->
                isOption it = true) ->
  fst (handleMoveOption moveTargetId dest category w) = Updated c' ->
  optionCount (cat_items c') = optionCount (cat_items category) \/
  (optionCount (cat_items c') + 1 = optionCount (cat_items category) /\
   dest <> ROOT /\
   forall d g, findIndex (has_id dest) (cat_items c') = Some d ->
               cat_items c' !! d = Some g -> isGroup g = false).
Proof.
  intros Hflat Hopt. apply groupsAreFlat_Forall in Hflat.
  unfold handleMoveOption.
  destruct moveTargetId as [x|]; [|discriminate].
  destruct (truthy (Some x)); [|discriminate].
  change (default "" (Some x)) with x. change (negb true) with false.
  cbv iota zeta.
  assert (Hdest : forall it l,
    isOption it = true ->
    let l' :=
      if String.eqb dest ROOT then insertBeforeFirstOption it l
      else match findIndex (has_id dest) l with
           | Some destIndex =>
             match l !! destIndex with
             | Some (GroupItem gi gt gc gitems) =>
                 <[destIndex := GroupItem gi gt gc (gitems ++ [it])]> l
             | _ => l
             end
           | None => l
           end in
    optionCount l' = optionCount l + 1 \/
    (l' = l /\ dest <> ROOT /\
     forall d g, findIndex (has_id dest) l = Some d ->
                 l !! d = Some g -> isGroup g = false)).
  { intros it l Hit. simpl. destruct (String.eqb dest ROOT) eqn:Hd.
    - left. rewrite optionCount_insertBeforeFirstOption.
      destruct it; [simpl; lia|discriminate].
    - apply String.eqb_neq in Hd.
      destruct (findIndex (has_id dest) l) as [d|] eqn:Hfd.
      + destruct (l !! d) as [[i t c|i t c sub]|] eqn:Hld.
        * right. split; [done|]. split; [done|].
          intros d' g Hd' Hg. by simplify_eq.
        * left. pose proof (optionCount_insert l d _
                              (GroupItem i t c (sub ++ [it])) Hld) as Hc.
          simpl in Hc. rewrite length_app in Hc. simpl in Hc. lia.
        * right. split; [done|]. split; [done|].
          intros d' g Hd' Hg. by simplify_eq.
      + right. split; [done|]. split; [done|]. intros d' g Hd'. discriminate. }
  destruct (findIndex (has_id x) (cat_items category)) as [k|] eqn:Hk.
  - destruct (findIndex_Some _ _ _ Hk) as (it & Hit & _ & Hfind & _).
    rewrite Hit. specialize (Hopt x it eq_refl Hfind).
    pose proof (optionCount_delete _ _ _ Hit) as Hdel.
    destruct it as [i t c|]; [|discriminate]. simpl in Hdel.
    intros [= <-]. simpl.
    destruct (Hdest (OptionItem i t c) (delete k (cat_items category))
                eq_refl) as [Hc|(Heq & Hd & Hno)].
    + left. simpl in Hc. lia.
    + right. simpl in Heq. rewrite Heq. split; [lia|]. by split.
  - destruct (searchGroups x (cat_items category)) as [[it|] l'] eqn:Hs;
      [|discriminate].
    destruct (searchGroups_flat _ _ _ _ Hflat Hs) as [Ho _].
    pose proof (searchGroups_count _ _ _ _ Hs) as Hcount.
    intros [= <-]. simpl.
    destruct (Hdest it l' Ho) as [Hc|(Heq & Hd & Hno)].
    + left. simpl in Hc. lia.
    + right. simpl in Heq. rewrite Heq. split; [lia|]. by split.
Qed.

(** C1, at the failing input: the option is taken out of its container
    before the destination is looked up, and the new items are committed
    even when the destination is not a group; the option "o1" is lost and
    the category goes from two options to one. *)
Theorem C1_move_to_missing_group_loses_option :
  let category :=
    mkCat "T" [OptionItem "o1" "a" 1; OptionItem "o2" "b" 1] in
  exists c',
    fst (handleMoveOption (Some "o1") "gone" category world0) = Updated c' /\
    cat_items c' = [OptionItem "o2" "b" 1] /\
    optionCount (cat_items category) = 2 /\
    optionCount (cat_items c') = 1.
Proof. eexists. repeat split. Qed.

(** ** The relative order of the root groups and of the root options *)

Section RelativeOrder.
Implicit Types (l : list CategoryItem) (old new small big : list ID).




End RelativeOrder.

Section RootSequences.
Implicit Types (l : list CategoryItem) (p : CategoryItem -> bool).


















Lemma unique_id l x y :
  uniqueRootIds l -> x ∈ l -> y ∈ l -> item_id x = item_id y -> x = y.
Proof.
  intros Hnd [i Hi]%list_elem_of_lookup [j Hj]%list_elem_of_lookup Hid.
  assert (i = j) as ->.
  { apply (NoDup_lookup _ i j (item_id x) Hnd).
    - by rewrite list_lookup_fmap, Hi.
    - by rewrite list_lookup_fmap, Hj, Hid. }
  congruence.
Qed.

Lemma some_filter_elem p x l :
  some (has_id x) (List.filter p l) = true ->
  exists g, g ∈ l /\ p g = true /\ item_id g = x.
Proof.
  unfold some. intros (g & Hin & Hid)%existsb_exists.
  apply List.filter_In in Hin as [Hin Hp]. exists g.
  split; [by apply list_elem_of_In|]. split; [done|].
  by apply has_id_true.
Qed.


Lemma not_both_kinds category x :
  uniqueRootIds (cat_items category) ->
  some (has_id x) (groups category) = true ->
  some (has_id x) (options category) = true -> False.
Proof.
  intros Hnd (g & Hg & Hgk & Hgid)%some_filter_elem
         (o & Ho & Hok & Hoid)%some_filter_elem.
  assert (g = o) as -> by (apply (unique_id _ _ _ Hnd); congruence).
  rewrite isGroup_negb, Hok in Hgk. discriminate.
Qed.




End RootSequences.





(** ** Initial load *)

Lemma loadCategories_nothing_stored JSON_parse :
  loadCategories JSON_parse None = JArray [] /\
  loadCategories JSON_parse (Some "") = JArray [].
Proof. done. Qed.

(** An unparsable text falls back to the empty document. *)
Lemma loadCategories_unparsable JSON_parse stored :
  JSON_parse stored = None ->
  loadCategories JSON_parse (Some stored) = JArray [].
Proof.
  intros Hp. unfold loadCategories. destruct (truthy (Some stored)); [|done].
  simpl. by rewrite Hp.
Qed.

(** C7, on the code: whatever [JSON.parse] returns becomes the document;
    there is no test of its shape, so a stored text that parses to something
    else than an array of categories is not replaced by the empty
    document. *)
Theorem C7_load_keeps_any_parsed_value JSON_parse stored parsed :
  stored <> "" ->
  JSON_parse stored = Some parsed ->
  loadCategories JSON_parse (Some stored) = parsed.
Proof.
  intros Hs Hp. unfold loadCategories.
  apply truthy_Some in Hs. rewrite Hs. simpl. by rewrite Hp.
Qed.

Lemma C7_load_keeps_any_parsed_value_witness :
  loadCategories parseSample (Some "{}") = JObject [] /\
  isArray (loadCategories parseSample (Some "{}")) = false.
Proof.
  split.
  - apply (C7_load_keeps_any_parsed_value parseSample "{}" (JObject [])).
    + discriminate.
    + reflexivity.
  - reflexivity.
Defined.

(** ** The merge by title: what one group merge appends *)

Lemma item_title_with_id i x : item_title (with_id i x) = item_title x.
Proof. by destruct x. Qed.

Lemma isGroup_with_id i x : isGroup (with_id i x) = isGroup x.
Proof. by destruct x. Qed.

Lemma isOption_with_id i x : isOption (with_id i x) = isOption x.
Proof. by destruct x. Qed.

Section GroupMerge.
Variable existingSubTitles : gset string.

(** The function folded by [mergeGroupOptions], with the set of titles
    fixed. *)
Let step (acc : list CategoryItem) (impSubItem : CategoryItem)
  : M (list CategoryItem) :=
  if negb (bool_decide (item_title impSubItem ∈ existingSubTitles))
  then i <- generateId ;; ret (acc ++ [with_id i impSubItem])
  else ret acc.

Let fresh (x : CategoryItem) : bool :=
  negb (bool_decide (item_title x ∈ existingSubTitles)).

(** The fold appends a copy of every imported item whose title is not in
    the set, whatever was appended before. *)
Lemma foldM_step_appends acc imp w :
  exists added,
    fst (foldM step acc imp w) = acc ++ added /\
    item_title <$> added = item_title <$> List.filter fresh imp.
Proof.
  revert acc w. induction imp as [|x imp IH]; intros acc w.
  - exists []. by rewrite app_nil_r.
  - simpl. unfold bind, step at 1, fresh. fold fresh.
    destruct (negb (bool_decide (item_title x ∈ existingSubTitles))).
    + run. destruct (IH (acc ++ [with_id (ids w 0) x])
                        {| ids := fun n => ids w (S n); clock := clock w |})
        as (added & Hrun & Htitles).
      exists (with_id (ids w 0) x :: added). split.
      * rewrite Hrun. by rewrite <- app_assoc.
      * rewrite !fmap_cons, item_title_with_id. by f_equal.
    + run. apply IH.
Qed.

(** When every imported title is in the set, nothing is appended and no id
    is generated. *)
Lemma foldM_step_nothing acc imp w :
  Forall (fun x => item_title x ∈ existingSubTitles) imp ->
  foldM step acc imp w = (acc, w).
Proof.
  induction 1 as [|x imp Hx _ IH]; [done|].
  simpl. unfold bind, step at 1.
  by rewrite (bool_decide_eq_true_2 _ Hx).
Qed.
End GroupMerge.

Lemma mergeGroupOptions_appends existing imp w :
  exists added,
    fst (mergeGroupOptions existing imp w) = existing ++ added /\
    item_title <$> added =
    item_title <$>
      List.filter
        (fun x => negb (bool_decide (item_title x ∈ item_title <$> existing)))
        imp.
Proof.
  unfold mergeGroupOptions.
  destruct (foldM_step_appends (list_to_set (item_title <$> existing))
              existing imp w) as (added & Hrun & Htitles).
  exists added. split; [exact Hrun|]. rewrite Htitles. f_equal.
  apply List.filter_ext. intros x. f_equal.
  apply bool_decide_ext, elem_of_list_to_set.
Qed.

Lemma mergeGroupOptions_nothing existing imp w :
  Forall (fun x => item_title x ∈ item_title <$> existing) imp ->
  mergeGroupOptions existing imp w = (existing, w).
Proof.
  intros Hall. unfold mergeGroupOptions. apply foldM_step_nothing.
  eapply Forall_impl; [exact Hall|]. intros x Hx.
  by apply elem_of_list_to_set.
Qed.









(** The merged group of the example: "Maldives" twice. *)
Example import_duplicates_example :
  cat_items <$>
    fst (importCategories
           [mkCat "Travel"
              [GroupItem "x" "Beach" 2
                 [OptionItem "y" "Maldives" 2; OptionItem "z" "Maldives" 3]]]
           [mkCat "Travel"
              [GroupItem "g1" "Beach" 1 [OptionItem "o1" "Hawaii" 1]]]
           world0)
  = [[GroupItem "g1" "Beach" 1
        [OptionItem "o1" "Hawaii" 1; OptionItem "A" "Maldives" 2;
         OptionItem "B" "Maldives" 3]]].
Proof. vm_compute. reflexivity. Qed.

(** ** The merge by title only adds *)

Section Grows.
Context {A : Type} (R : relation A) `{!Reflexive R, !Transitive R}.
Implicit Types l k : list A.

Lemma Forall2_refl l : Forall2 R l l.
Proof. induction l; by constructor. Qed.

Lemma grows_refl l : grows R l l.
Proof. exists l, []. split; [by rewrite app_nil_r|apply Forall2_refl]. Qed.

Lemma grows_trans l1 l2 l3 : grows R l1 l2 -> grows R l2 l3 -> grows R l1 l3.
Proof.
  intros (m1 & r1 & -> & H1) (m2 & r2 & -> & H2).
  apply Forall2_app_inv_l in H2 as (k1 & k2 & Hk1 & Hk2 & ->).
  exists k1, (k2 ++ r2). split; [by rewrite app_assoc|].
  eapply Forall2_trans; [|exact H1|exact Hk1].
  intros x y z. apply transitivity.
Qed.

Lemma grows_app l k : grows R l (l ++ k).
Proof. exists l, k. split; [done|apply Forall2_refl]. Qed.

Lemma grows_insert l i x y :
  l !! i = Some x -> R x y -> grows R l (<[i:=y]> l).
Proof.
  intros Hi Hxy. exists (<[i:=y]> l), []. split; [by rewrite app_nil_r|].
  rewrite <- (list_insert_id l i x Hi) at 1.
  apply Forall2_insert; [apply Forall2_refl|done].
Qed.

Lemma grows_lookup l l' i x :
  grows R l l' -> l !! i = Some x -> exists y, l' !! i = Some y /\ R x y.
Proof.
  intros (mid & rest & -> & HF) Hi.
  destruct (Forall2_lookup_l _ _ _ _ _ HF Hi) as (y & Hy & Hxy).
  exists y. split; [|done]. by apply lookup_app_l_Some.
Qed.

(** A test that [R] does not change gives the same first index. *)
Lemma grows_findIndex (p : A -> bool) l l' i :
  (forall x y, R x y -> p y = p x) ->
  grows R l l' -> findIndex p l = Some i -> findIndex p l' = Some i.
Proof.
  intros Hp (mid & rest & -> & HF). revert i.
  induction HF as [|x y l mid Hxy HF IH]; intros i; simpl; [discriminate|].
  rewrite (Hp _ _ Hxy). destruct (p x); [done|].
  destruct (findIndex p l) as [j|]; [|discriminate].
  by rewrite (IH j eq_refl).
Qed.

Lemma grows_some (p : A -> bool) l l' :
  (forall x y, R x y -> p y = p x) ->
  grows R l l' -> some p l = true -> some p l' = true.
Proof.
  intros Hp (mid & rest & -> & HF). unfold some.
  rewrite existsb_app. intros Hs. apply orb_true_iff. left.
  induction HF as [|x y l mid Hxy HF IH]; simpl in *; [done|].
  rewrite (Hp _ _ Hxy). destruct (p x); [done|]. by apply IH.
Qed.
End Grows.

Global Instance itemExtends_refl : Reflexive itemExtends.
Proof. intros [i t c|i t c sub]; simpl; done. Qed.

Global Instance itemExtends_trans : Transitive itemExtends.
Proof.
  intros [i1 t1 c1|i1 t1 c1 s1] [i2 t2 c2|i2 t2 c2 s2] [i3 t3 c3|i3 t3 c3 s3];
    simpl; try done; try congruence.
  intros (-> & -> & -> & H12) (-> & -> & -> & H23).
  repeat split; try done. by etrans.
Qed.

Global Instance catExtends_refl : Reflexive catExtends.
Proof. intros c. repeat split; try done. apply grows_refl, _. Qed.

Global Instance catExtends_trans : Transitive catExtends.
Proof.
  intros c1 c2 c3 (E1 & E2 & E3 & E4 & H12) (F1 & F2 & F3 & F4 & H23).
  repeat split; try congruence. by eapply (grows_trans itemExtends).
Qed.

Lemma itemExtends_kind_title x y :
  itemExtends x y -> isGroup y = isGroup x /\ isOption y = isOption x /\
                     item_title y = item_title x /\ item_id y = item_id x.
Proof.
  destruct x as [i t c|i t c sub], y as [i' t' c'|i' t' c' sub']; simpl;
    try done.
  - by intros [= -> -> ->].
  - by intros (-> & -> & -> & _).
Qed.

Lemma regenerateSubIds_shape subs w :
  Forall2 (fun x y => exists i, y = with_id i x)
          subs (fst (regenerateSubIds subs w)).
Proof.
  unfold regenerateSubIds. revert w.
  induction subs as [|x subs IH]; intros w; [constructor|].
  simpl. run.
  specialize (IH {| ids := fun n => ids w (S n); clock := clock w |}).
  destruct (mapM _ subs _) as [ys w']. simpl in *.
  constructor; [by eexists|done].
Qed.

Lemma regenerateSubIds_titles subs w :
  item_title <$> fst (regenerateSubIds subs w) = item_title <$> subs.
Proof.
  pose proof (regenerateSubIds_shape subs w) as H.
  induction H as [|x y l k [i ->] _ IH]; [done|].
  by rewrite !fmap_cons, item_title_with_id, IH.
Qed.

(** The two tests of [mergeItem] look at the kind and the title only. *)
Lemma groupTitled_extends t x y :
  itemExtends x y ->
  isGroup y && String.eqb (item_title y) t
  = isGroup x && String.eqb (item_title x) t.
Proof. intros (-> & _ & -> & _)%itemExtends_kind_title. done. Qed.

Lemma optionTitled_extends t x y :
  itemExtends x y ->
  isOption y && String.eqb (item_title y) t
  = isOption x && String.eqb (item_title x) t.
Proof. intros (_ & -> & -> & _)%itemExtends_kind_title. done. Qed.

Lemma groupTitled_lookup t items j :
  findIndex (fun i => isGroup i && String.eqb (item_title i) t) items = Some j ->
  exists gi gc sub, items !! j = Some (GroupItem gi t gc sub).
Proof.
  intros (x & Hx & Hp & _)%findIndex_Some.
  destruct x as [i t' c|i t' c sub]; [discriminate|]. simpl in Hp.
  apply String.eqb_eq in Hp as ->. eauto.
Qed.

Lemma mergeItem_grows items it w :
  grows itemExtends items (fst (mergeItem items it w)).
Proof.
  destruct it as [i t c|i t c impSub]; unfold mergeItem.
  - destruct (negb _); run; [apply grows_app, _|apply grows_refl, _].
  - destruct (findIndex _ items) as [j|] eqn:Hj.
    + destruct (groupTitled_lookup _ _ _ Hj) as (gi & gc & sub & Hsub).
      rewrite Hsub. unfold bind.
      destruct (mergeGroupOptions_appends sub impSub w) as (added & Hrun & _).
      destruct (mergeGroupOptions sub impSub w) as [merged w']. simpl in *.
      apply (grows_insert _ _ _ _ _ Hsub). subst merged. simpl.
      repeat split; try done. by apply prefix_app_r.
    + unfold bind. run. destruct (regenerateSubIds impSub _) as [subs w'].
      simpl. apply grows_app, _.
Qed.

Lemma mergeItem_covers items it w :
  coversItem (fst (mergeItem items it w)) it.
Proof.
  destruct it as [i t c|i t c impSub]; unfold mergeItem.
  - simpl coversItem.
    destruct (some _ items) eqn:Hs; run; [done|].
    unfold some. rewrite existsb_app. simpl.
    by rewrite String.eqb_refl, orb_true_r.
  - destruct (findIndex _ items) as [j|] eqn:Hj.
    + destruct (groupTitled_lookup _ _ _ Hj) as (gi & gc & sub & Hsub).
      rewrite Hsub. unfold bind.
      destruct (mergeGroupOptions_appends sub impSub w)
        as (added & Hrun & Htitles).
      destruct (mergeGroupOptions sub impSub w) as [merged w']. simpl in *.
      subst merged. exists j, gi, gc, (sub ++ added). split; [|split].
      * eapply (grows_findIndex itemExtends); [|
          apply (grows_insert itemExtends _ _ _ _ Hsub)|exact Hj].
        -- intros x y. apply groupTitled_extends.
        -- simpl. repeat split; try done. by apply prefix_app_r.
      * apply list_lookup_insert_eq. by eapply lookup_lt_Some.
      * rewrite fmap_app, Htitles. apply Forall_forall. intros o Ho.
        apply elem_of_app.
        destruct (decide (item_title o ∈ item_title <$> sub)) as [Hin|Hin];
          [by left|right].
        apply list_elem_of_fmap_2. apply list_elem_of_In, List.filter_In.
        split; [by apply list_elem_of_In|].
        by rewrite (bool_decide_eq_false_2 _ Hin).
    + unfold bind. run.
      pose proof (regenerateSubIds_titles impSub
                    {| ids := fun n => ids w (S n); clock := clock w |})
        as Htitles.
      destruct (regenerateSubIds impSub _) as [subs w']. simpl in *.
      exists (length items), (ids w 0), c, subs. split; [|split].
      * apply findIndex_first; [by apply findIndex_None|].
        simpl. apply String.eqb_refl.
      * by apply list_lookup_middle.
      * rewrite Htitles. apply Forall_forall. intros o Ho.
        by apply list_elem_of_fmap_2.
Qed.

Lemma mergeItem_covered items it w :
  coversItem items it -> mergeItem items it w = (items, w).
Proof.
  destruct it as [i t c|i t c impSub]; unfold mergeItem; simpl coversItem.
  - by intros ->.
  - intros (j & gi & gc & sub & -> & Hsub & Hall). rewrite Hsub. unfold bind.
    rewrite (mergeGroupOptions_nothing _ _ _ Hall). run.
    by rewrite (list_insert_id _ _ _ Hsub).
Qed.

Lemma coversItem_grows items items' it :
  coversItem items it -> grows itemExtends items items' ->
  coversItem items' it.
Proof.
  destruct it as [i t c|i t c impSub]; simpl.
  - intros Hs Hg. eapply (grows_some itemExtends); [|exact Hg|exact Hs].
    intros x y. apply optionTitled_extends.
  - intros (j & gi & gc & sub & Hj & Hsub & Hall) Hg.
    destruct (grows_lookup _ _ _ _ _ Hg Hsub) as (y & Hy & Hext).
    destruct y as [i' t' c'|i' t' c' sub']; [done|].
    destruct Hext as (-> & -> & -> & [k ->]).
    exists j, gi, gc, (sub ++ k). split; [|split; [done|]].
    + eapply (grows_findIndex itemExtends); [|exact Hg|exact Hj].
      intros x y. apply groupTitled_extends.
    + eapply Forall_impl; [exact Hall|]. intros o Ho. simpl in Ho.
      rewrite fmap_app. apply elem_of_app. by left.
Qed.

Lemma foldM_mergeItem_grows items its w :
  grows itemExtends items (fst (foldM mergeItem items its w)).
Proof.
  revert items w. induction its as [|x its IH]; intros items w.
  - apply grows_refl, _.
  - simpl. unfold bind. pose proof (mergeItem_grows items x w) as Hstep.
    destruct (mergeItem items x w) as [items1 w1].
    eapply (grows_trans itemExtends); [exact Hstep|apply IH].
Qed.

Lemma foldM_mergeItem_covers items its w :
  Forall (coversItem (fst (foldM mergeItem items its w))) its.
Proof.
  revert items w. induction its as [|x its IH]; intros items w; [constructor|].
  simpl. unfold bind. pose proof (mergeItem_covers items x w) as Hx.
  destruct (mergeItem items x w) as [items1 w1]. constructor.
  - eapply coversItem_grows; [exact Hx|apply foldM_mergeItem_grows].
  - apply IH.
Qed.

Lemma foldM_mergeItem_covered items its w :
  Forall (coversItem items) its -> foldM mergeItem items its w = (items, w).
Proof.
  induction 1 as [|x its Hx _ IH]; [done|].
  simpl. unfold bind. by rewrite (mergeItem_covered _ _ _ Hx).
Qed.

(** *** A category that is new to the document *)

Lemma regenerateItem_shape x w : sameShape x (fst (regenerateItem x w)).
Proof.
  destruct x as [i t c|i t c subs]; unfold regenerateItem; run; [done|].
  pose proof (regenerateSubIds_titles subs
                {| ids := fun n => ids w (S n); clock := clock w |}) as Ht.
  destruct (regenerateSubIds subs _) as [subs' w']. by repeat split.
Qed.

Lemma mapM_regenerateItem_shape its w :
  Forall2 sameShape its (fst (mapM regenerateItem its w)).
Proof.
  revert w. induction its as [|x its IH]; intros w; [constructor|].
  simpl. unfold bind. pose proof (regenerateItem_shape x w) as Hx.
  destruct (regenerateItem x w) as [y w1]. specialize (IH w1).
  destruct (mapM regenerateItem its w1) as [ys w2]. by constructor.
Qed.

(** An item in front that is not a group of the title sought does not
    change what the rest covers. *)
Lemma coversItem_cons y items it :
  (isGroup it = true -> isGroup y = true -> item_title y <> item_title it) ->
  coversItem items it -> coversItem (y :: items) it.
Proof.
  destruct it as [i t c|i t c impSub]; simpl.
  - intros _ ->. apply orb_true_r.
  - intros Hy (j & gi & gc & sub & Hj & Hsub & Hall).
    exists (S j), gi, gc, sub. split; [|done]. rewrite Hj.
    destruct (isGroup y) eqn:Hg; [|done]. simpl.
    specialize (Hy eq_refl eq_refl). apply String.eqb_neq in Hy.
    by rewrite Hy.
Qed.

Lemma sameShape_covers x y items :
  sameShape x y -> coversItem (y :: items) x.
Proof.
  intros (Hk & Ht & Hs).
  destruct x as [i t c|i t c sub], y as [i' t' c'|i' t' c' sub'];
    simpl in *; try discriminate; subst.
  - by rewrite String.eqb_refl.
  - exists 0, i', c', sub'. rewrite String.eqb_refl. repeat split.
    rewrite Hs. apply Forall_forall. intros o Ho.
    by apply list_elem_of_fmap_2.
Qed.

Lemma regenerated_covers its its' :
  Forall2 sameShape its its' ->
  NoDup (item_title <$> List.filter isGroup its) ->
  Forall (coversItem its') its.
Proof.
  induction 1 as [|x y its its' Hxy HF IH]; intros Hnd; [constructor|].
  assert (Hrest : NoDup (item_title <$> List.filter isGroup its) /\
                  (isGroup x = true ->
                   item_title x ∉ item_title <$> List.filter isGroup its)).
  { simpl in Hnd. destruct (isGroup x).
    - rewrite fmap_cons in Hnd. apply NoDup_cons in Hnd. tauto.
    - split; [done|discriminate]. }
  destruct Hrest as [Hnd' Hx]. constructor.
  - by apply sameShape_covers.
  - apply Forall_forall. intros z Hz.
    apply coversItem_cons.
    + destruct Hxy as (Hk & Ht & _). rewrite Hk, Ht. intros Hzg Hxg Heq.
      apply (Hx Hxg). rewrite Heq. apply list_elem_of_fmap_2.
      apply list_elem_of_In, List.filter_In.
      split; [by apply list_elem_of_In|done].
    + revert z Hz. apply Forall_forall. by apply IH.
Qed.

(** *** One imported category *)

Lemma catTitled_extends t x y :
  catExtends x y ->
  String.eqb (cat_title y) t = String.eqb (cat_title x) t.
Proof. by intros (_ & -> & _). Qed.

Lemma touch_extends e newItems now :
  grows itemExtends (cat_items e) newItems ->
  catExtends e (touch e newItems now).
Proof. intros H. by repeat split. Qed.

Lemma importCategory_extends doc impCat w :
  docExtends doc (fst (importCategory doc impCat w)).
Proof.
  unfold importCategory, docExtends.
  destruct (findIndex _ doc) as [k|] eqn:Hk.
  - destruct (doc !! k) as [e|] eqn:He; [|apply grows_refl, _].
    unfold bind.
    pose proof (foldM_mergeItem_grows (cat_items e) (cat_items impCat) w)
      as Hg.
    destruct (foldM mergeItem _ _ w) as [newItems w1]. run.
    apply (grows_insert _ _ _ _ _ He). by apply touch_extends.
  - unfold bind. run. destruct (mapM regenerateItem _ _) as [its w1].
    simpl. apply grows_app, _.
Qed.

Lemma importCategory_covers doc impCat w :
  distinctGroupTitles impCat ->
  coversCat (fst (importCategory doc impCat w)) impCat.
Proof.
  intros Hnd. unfold importCategory, coversCat.
  destruct (findIndex _ doc) as [k|] eqn:Hk.
  - destruct (findIndex_Some _ _ _ Hk) as (e & He & _).
    rewrite He. unfold bind.
    pose proof (foldM_mergeItem_grows (cat_items e) (cat_items impCat) w)
      as Hg.
    pose proof (foldM_mergeItem_covers (cat_items e) (cat_items impCat) w)
      as Hc.
    destruct (foldM mergeItem _ _ w) as [newItems w1]. run.
    exists k, (touch e newItems (clock w1 0)). split; [|split].
    + eapply (grows_findIndex catExtends); [|
        apply (grows_insert catExtends _ _ _ _ He)|exact Hk].
      * intros x y. apply catTitled_extends.
      * by apply touch_extends.
    + apply list_lookup_insert_eq. by eapply lookup_lt_Some.
    + exact Hc.
  - unfold bind. run.
    pose proof (mapM_regenerateItem_shape (cat_items impCat)
                  {| ids := fun n => ids w (S n); clock := clock w |})
      as Hshape.
    destruct (mapM regenerateItem _ _) as [its w1]. simpl in *.
    eexists (length doc), _. split; [|split].
    + apply findIndex_first; [by apply findIndex_None|].
      simpl. apply String.eqb_refl.
    + by apply list_lookup_middle.
    + simpl. by apply regenerated_covers.
Qed.

Lemma coversCat_extends doc doc' c :
  coversCat doc c -> docExtends doc doc' -> coversCat doc' c.
Proof.
  intros (k & e & Hk & He & Hall) Hg.
  destruct (grows_lookup _ _ _ _ _ Hg He) as (e' & He' & Hext).
  exists k, e'. split; [|split; [done|]].
  - eapply (grows_findIndex catExtends); [|exact Hg|exact Hk].
    intros x y. apply catTitled_extends.
  - destruct Hext as (_ & _ & _ & _ & Hitems).
    eapply Forall_impl; [exact Hall|]. intros it Hit.
    by eapply coversItem_grows.
Qed.

Lemma touch_same c : c = touch c (cat_items c) (cat_modifiedAt c).
Proof. by destruct c. Qed.

Lemma sameContent_refl d : sameContent d d.
Proof. induction d; constructor; [apply touch_same|done]. Qed.

Lemma sameContent_trans d1 d2 d3 :
  sameContent d1 d2 -> sameContent d2 d3 -> sameContent d1 d3.
Proof.
  apply Forall2_trans. intros x y z -> ->. done.
Qed.

Lemma sameContent_extends d d' : sameContent d d' -> docExtends d d'.
Proof.
  intros H. exists d', []. split; [by rewrite app_nil_r|].
  eapply Forall2_impl; [exact H|]. intros c c' ->.
  apply touch_extends, grows_refl, _.
Qed.

(** A category that the document covers changes nothing but the
    [modifiedAt] of the category it is merged into. *)
Lemma importCategory_covered doc c w :
  coversCat doc c -> sameContent doc (fst (importCategory doc c w)).
Proof.
  intros (k & e & Hk & He & Hall). unfold importCategory.
  rewrite Hk, He. unfold bind.
  rewrite (foldM_mergeItem_covered _ _ _ Hall). run.
  unfold sameContent. rewrite <- (list_insert_id doc k e He) at 1.
  apply Forall2_insert; [apply sameContent_refl|done].
Qed.

(** *** The whole import *)

Lemma importCategories_extends imported prev w :
  docExtends prev (fst (importCategories imported prev w)).
Proof.
  unfold importCategories. revert prev w.
  induction imported as [|c imported IH]; intros prev w.
  - apply grows_refl, _.
  - simpl. unfold bind.
    pose proof (importCategory_extends prev c w) as Hstep.
    destruct (importCategory prev c w) as [doc1 w1].
    eapply (grows_trans catExtends); [exact Hstep|apply IH].
Qed.

Lemma importCategories_covers imported prev w :
  Forall distinctGroupTitles imported ->
  Forall (coversCat (fst (importCategories imported prev w))) imported.
Proof.
  intros Hnd. revert prev w.
  induction Hnd as [|c imported Hc _ IH]; intros prev w; [constructor|].
  unfold importCategories. simpl. unfold bind.
  pose proof (importCategory_covers prev c w Hc) as Hcov.
  destruct (importCategory prev c w) as [doc1 w1]. constructor.
  - eapply coversCat_extends; [exact Hcov|].
    apply (importCategories_extends imported doc1 w1).
  - apply IH.
Qed.

Lemma importCategories_covered imported doc w :
  Forall (coversCat doc) imported ->
  sameContent doc (fst (importCategories imported doc w)).
Proof.
  unfold importCategories. revert doc w.
  induction imported as [|c imported IH]; intros doc w Hall.
  - apply sameContent_refl.
  - apply Forall_cons in Hall as [Hc Hall]. simpl. unfold bind.
    pose proof (importCategory_covered doc c w Hc) as Hstep.
    destruct (importCategory doc c w) as [doc1 w1].
    eapply sameContent_trans; [exact Hstep|]. apply IH.
    eapply Forall_impl; [exact Hall|]. intros c' Hc'.
    eapply coversCat_extends; [exact Hc'|by apply sameContent_extends].
Qed.

(** C5. The merge by title deletes nothing: every category of the document
    is still there after the import, with its id and title; each of its
    root options is still among its items; each of its groups is still
    among its items with its id and title, holding every option it held. *)
Theorem C5_import_never_deletes imported prev w c :
  c ∈ prev ->
  exists c',
    c' ∈ fst (importCategories imported prev w) /\
    cat_id c' = cat_id c /\ cat_title c' = cat_title c /\
    forall it, it ∈ cat_items c ->
      match it with
      | OptionItem _ _ _ => it ∈ cat_items c'
      | GroupItem i t cr sub =>
          exists sub', GroupItem i t cr sub' ∈ cat_items c' /\
                       forall o, o ∈ sub -> o ∈ sub'
      end.
Proof.
  intros [k Hk]%list_elem_of_lookup.
  destruct (grows_lookup _ _ _ _ _
              (importCategories_extends imported prev w) Hk)
    as (c' & Hc' & Hid & Htitle & _ & _ & Hitems).
  exists c'. split; [by eapply list_elem_of_lookup_2|].
  split; [done|]. split; [done|].
  intros it [j Hj]%list_elem_of_lookup.
  destruct (grows_lookup _ _ _ _ _ Hitems Hj) as (it' & Hit' & Hext).
  apply list_elem_of_lookup_2 in Hit'.
  destruct it as [i t cr|i t cr sub].
  - simpl in Hext. by subst it'.
  - destruct it' as [i' t' cr'|i' t' cr' sub']; [done|].
    destruct Hext as (-> & -> & -> & Hpre).
    exists sub'. split; [done|]. intros o Ho. by eapply elem_of_prefix.
Qed.

Lemma C5_import_never_deletes_witness :
  exists c',
    c' ∈ fst (importCategories
                [mkCat "Travel"
                   [GroupItem "x" "Beach" 2 [OptionItem "y" "Maldives" 2]]]
                [mkCat "Travel"
                   [GroupItem "g1" "Beach" 1 [OptionItem "o1" "Hawaii" 1]]]
                world0) /\
    cat_title c' = "Travel" /\
    exists sub', GroupItem "g1" "Beach" 1 sub' ∈ cat_items c' /\
                 OptionItem "o1" "Hawaii" 1 ∈ sub'.
Proof.
  destruct (C5_import_never_deletes
              [mkCat "Travel"
                 [GroupItem "x" "Beach" 2 [OptionItem "y" "Maldives" 2]]]
              [mkCat "Travel"
                 [GroupItem "g1" "Beach" 1 [OptionItem "o1" "Hawaii" 1]]]
              world0
              (mkCat "Travel"
                 [GroupItem "g1" "Beach" 1 [OptionItem "o1" "Hawaii" 1]]))
    as (c' & Hin & _ & Htitle & Hitems).
  - apply list_elem_of_here.
  - exists c'. split; [exact Hin|]. split; [exact Htitle|].
    destruct (Hitems (GroupItem "g1" "Beach" 1 [OptionItem "o1" "Hawaii" 1]))
      as (sub' & Hg & Hsub).
    + apply list_elem_of_here.
    + exists sub'. split; [exact Hg|]. apply Hsub, list_elem_of_here.
Defined.

(** C4, as amended.  When no imported category holds two groups of the same
    title, importing the same list a second time changes nothing but the
    [modifiedAt] of the categories it is merged into: no category, group or
    option is added, whatever ids and times the second import draws. *)
Theorem C4_import_idempotent imported prev w w' :
  Forall distinctGroupTitles imported ->
  sameContent
    (fst (importCategories imported prev w))
    (fst (importCategories imported
            (fst (importCategories imported prev w)) w')).
Proof.
  intros Hnd. apply importCategories_covered.
  by apply importCategories_covers.
Qed.

Lemma C4_import_idempotent_witness :
  sameContent
    (fst (importCategories
            [mkCat "Travel"
               [GroupItem "x" "Beach" 2 [OptionItem "y" "Maldives" 2];
                OptionItem "z" "Rome" 3]]
            [] world0))
    (fst (importCategories
            [mkCat "Travel"
               [GroupItem "x" "Beach" 2 [OptionItem "y" "Maldives" 2];
                OptionItem "z" "Rome" 3]]
            (fst (importCategories
                    [mkCat "Travel"
                       [GroupItem "x" "Beach" 2 [OptionItem "y" "Maldives" 2];
                        OptionItem "z" "Rome" 3]]
                    [] world0))
            world0)).
Proof.
  apply (C4_import_idempotent
           [mkCat "Travel"
              [GroupItem "x" "Beach" 2 [OptionItem "y" "Maldives" 2];
               OptionItem "z" "Rome" 3]]
           [] world0 world0).
  constructor; [|constructor].
  apply (bool_decide_unpack _). vm_compute. exact I.
Defined.

(** C4 as stated fails: an imported category that is new to the document is
    copied as it is, also when two of its groups have the same title; the
    second import merges the second of them into the first one, and adds
    the option "b" to it. *)
Lemma C4_counterexample :
  let imported :=
    [mkCat "T" [GroupItem "x" "g" 2 [OptionItem "y" "a" 2];
                GroupItem "x2" "g" 2 [OptionItem "y2" "b" 2]]] in
  let once := importCategories imported [] world0 in
  let twice := importCategories imported (fst once) (snd once) in
  cat_items <$> fst once
    = [[GroupItem "B" "g" 2 [OptionItem "C" "a" 2];
        GroupItem "D" "g" 2 [OptionItem "E" "b" 2]]] /\
  cat_items <$> fst twice
    = [[GroupItem "B" "g" 2 [OptionItem "C" "a" 2; OptionItem "F" "b" 2];
        GroupItem "D" "g" 2 [OptionItem "E" "b" 2]]] /\
  ~ sameContent (fst once) (fst twice).
Proof.
  split; [vm_compute; reflexivity|]. split; [vm_compute; reflexivity|].
  intros H. vm_compute in H.
  inversion H as [|c c' d d' Heq _]. discriminate Heq.
Qed.

(** * Further properties of the code *)

(** ** The document store *)

(** X1. [updateCategory] keeps the ids of the document, in their order. *)
Theorem updateCategory_keeps_ids updatedCat prev :
  cat_id <$> updateCategory updatedCat prev = cat_id <$> prev.
Proof.
  unfold updateCategory. induction prev as [|c prev IH]; [done|].
  cbn [map]. rewrite !fmap_cons, IH. f_equal.
  destruct (String.eqb (cat_id c) (cat_id updatedCat)) eqn:E; [|done].
  by apply String.eqb_eq in E.
Qed.

(** X2. [updateCategory] in a document with distinct ids: the entry of the
    category's id is replaced, at its index, and no other; without an entry
    of that id the document stays as it is. *)
Theorem updateCategory_replaces_one updatedCat prev :
  NoDup (cat_id <$> prev) ->
  (forall k c, prev !! k = Some c -> cat_id c = cat_id updatedCat ->
               updateCategory updatedCat prev = <[k := updatedCat]> prev) /\
  (categoryById (cat_id updatedCat) prev = None ->
   updateCategory updatedCat prev = prev).
Proof.
  intros Hnd. split.
  - intros k c. by apply updateCategory_at.
  - unfold categoryById, updateCategory. intros Hnone.
    clear Hnd. induction prev as [|c prev IH]; [done|]. simpl in *.
    destruct (String.eqb (cat_id c) (cat_id updatedCat)); [discriminate|].
    by rewrite IH.
Qed.

Lemma updateCategory_replaces_one_witness :
  updateCategory (mkCat "b" [optP]) [mkCat "a" []; mkCat "b" []]
  = [mkCat "a" []; mkCat "b" [optP]].
Proof.
  refine (proj1 (updateCategory_replaces_one (mkCat "b" [optP])
                   [mkCat "a" []; mkCat "b" []] _) 1 (mkCat "b" []) _ _).
  - apply (bool_decide_unpack _). vm_compute. exact I.
  - reflexivity.
  - reflexivity.
Defined.

Lemma sublist_filter_bool {A} (p : A -> bool) (l : list A) :
  List.filter p l `sublist_of` l.
Proof.
  induction l as [|x l IH]; simpl; [constructor|].
  destruct (p x); by constructor.
Qed.

(** X3. A category that is added and then deleted leaves the document as it
    was, when its id was not in the document. *)
Theorem deleteCategory_after_add c prev :
  categoryById (cat_id c) prev = None ->
  deleteCategory (cat_id c) (addCategory c prev) = prev.
Proof.
  intros Hnone. unfold deleteCategory, addCategory. simpl.
  rewrite String.eqb_refl. simpl. apply filter_all.
  unfold categoryById in Hnone. apply findIndex_None_find in Hnone.
  by apply findIndex_None in Hnone.
Qed.

Lemma deleteCategory_after_add_witness :
  deleteCategory "c-b" (addCategory (mkCat "b" [optP]) [mkCat "a" []])
  = [mkCat "a" []].
Proof.
  apply (deleteCategory_after_add (mkCat "b" [optP]) [mkCat "a" []]).
  reflexivity.
Defined.

(** X4. [deleteCategory] removes every category of the id and nothing else:
    the id is found no more, and every other id is found as before. *)
Theorem deleteCategory_removes_only_that_id id prev :
  categoryById id (deleteCategory id prev) = None /\
  (forall y, y <> id ->
             categoryById y (deleteCategory id prev) = categoryById y prev) /\
  deleteCategory id prev `sublist_of` prev.
Proof.
  unfold categoryById, deleteCategory. split; [|split].
  - induction prev as [|c prev IH]; [done|]. simpl.
    destruct (String.eqb (cat_id c) id) eqn:E; simpl; [done|].
    by rewrite E.
  - intros y Hy. induction prev as [|c prev IH]; [done|]. simpl.
    destruct (String.eqb (cat_id c) id) eqn:E; simpl.
    + apply String.eqb_eq in E. subst id.
      apply String.eqb_neq in Hy. rewrite String.eqb_sym in Hy.
      by rewrite Hy.
    + by rewrite IH.
  - apply sublist_filter_bool.
Qed.

Lemma deleteCategory_removes_only_that_id_witness :
  categoryById "c-a" (deleteCategory "c-b" [mkCat "a" []; mkCat "b" []])
  = Some (mkCat "a" []).
Proof.
  apply (proj1 (proj2 (deleteCategory_removes_only_that_id "c-b"
                         [mkCat "a" []; mkCat "b" []])) "c-a").
  discriminate.
Defined.

Lemma perform_touch cmd category w c' :
  fst (perform cmd category w) = Updated c' ->
  exists newItems now, c' = touch category newItems now.
Proof.
  destruct cmd; simpl.
  - unfold handleAddItem. repeat case_match; run; intros [= <-]; eauto.
  - unfold handleDeleteItem. repeat case_match; run; intros [= <-]; eauto.
  - unfold handleDragEnd, reorderRoot. repeat case_match; run;
      intros [= <-]; eauto.
  - unfold handleMoveOption. repeat case_match; run; intros [= <-]; eauto.
Qed.

(** X5. Whatever a handler of the category page commits is the category of the
    page with new items and a new [modifiedAt]: id, title, description and
    [createdAt] are kept.  In a document with distinct ids the update hence
    replaces the entry of that category and no other. *)
Theorem perform_updates_own_entry cmd category w c' doc k :
  NoDup (cat_id <$> doc) ->
  doc !! k = Some category ->
  fst (perform cmd category w) = Updated c' ->
  cat_id c' = cat_id category /\ cat_title c' = cat_title category /\
  cat_description c' = cat_description category /\
  cat_createdAt c' = cat_createdAt category /\
  updateCategory c' doc = <[k := c']> doc.
Proof.
  intros Hnd Hk (newItems & now & ->)%perform_touch.
  repeat split.
  by apply (updateCategory_at _ _ k category).
Qed.

Lemma perform_updates_own_entry_witness :
  let category := mkCat "a" [optP] in
  let doc := [mkCat "b" []; category] in
  let c' := touch category [GroupItem "A" "New" 1000 []; optP] 1001 in
  fst (perform (AddItem "New" (Some createGroup) None) category world0)
    = Updated c' /\
  updateCategory c' doc = [mkCat "b" []; c'].
Proof.
  intros category doc c'. split; [reflexivity|].
  apply (perform_updates_own_entry
           (AddItem "New" (Some createGroup) None) category world0 c' doc 1).
  - apply (bool_decide_unpack _). vm_compute. exact I.
  - reflexivity.
  - reflexivity.
Defined.

(** ** The merge by id *)

Section JsMap.
Context {V : Type}.
Implicit Types (m : list (ID * V)) (k x : ID) (v : V).

Lemma mapSet_keys k v m :
  (mapSet k v m).*1 = if decide (k ∈ m.*1) then m.*1 else m.*1 ++ [k].
Proof.
  induction m as [|[k' v'] m IH].
  - destruct (decide (k ∈ ([] : list (ID * V)).*1)) as [Hin|Hin]; [|done].
    by apply elem_of_nil in Hin.
  - cbn [mapSet]. rewrite fmap_cons. cbn [fst].
    destruct (String.eqb k' k) eqn:E.
    + apply String.eqb_eq in E. subst k'. rewrite fmap_cons. cbn [fst].
      rewrite decide_True; [done|]. left.
    + apply String.eqb_neq in E. rewrite fmap_cons, IH. cbn [fst].
      destruct (decide (k ∈ m.*1)) as [Hin|Hin].
      * rewrite decide_True; [done|]. by right.
      * rewrite decide_False; [done|].
        intros [?|?]%elem_of_cons; congruence.
Qed.

Lemma mapSet_NoDup k v m : NoDup m.*1 -> NoDup (mapSet k v m).*1.
Proof.
  intros Hnd. rewrite mapSet_keys. case_decide; [done|].
  apply NoDup_app. split; [done|]. split.
  - intros x Hx ->%list_elem_of_singleton. done.
  - apply NoDup_singleton.
Qed.

Lemma mapGet_mapSet x k v m :
  mapGet x (mapSet k v m) = if decide (x = k) then Some v else mapGet x m.
Proof.
  unfold mapGet. induction m as [|[k' v'] m IH]; simpl.
  - case_decide as Hx.
    + subst. by rewrite String.eqb_refl.
    + apply String.eqb_neq in Hx. rewrite String.eqb_sym in Hx.
      by rewrite Hx.
  - destruct (String.eqb k' k) eqn:E; simpl.
    + apply String.eqb_eq in E. subst k'. case_decide as Hx.
      * subst. by rewrite String.eqb_refl.
      * apply String.eqb_neq in Hx. rewrite String.eqb_sym in Hx.
        by rewrite Hx.
    + destruct (String.eqb k' x) eqn:E'; simpl; [|exact IH].
      apply String.eqb_eq in E'. subst k'.
      apply String.eqb_neq in E. rewrite decide_False; done.
Qed.

(** Two maps with the same keys in the same order and the same value at
    every key are equal. *)
Lemma map_ext m1 m2 :
  NoDup m1.*1 -> m1.*1 = m2.*1 ->
  (forall x, mapGet x m1 = mapGet x m2) -> m1 = m2.
Proof.
  revert m2. induction m1 as [|[k v] m1 IH]; intros [|[k2 v2] m2] Hnd Hk Hget;
    try done.
  rewrite !fmap_cons in Hk. cbn [fst] in Hk. injection Hk as <- Hk.
  rewrite fmap_cons in Hnd. cbn [fst] in Hnd.
  apply NoDup_cons in Hnd as [Hk1 Hnd].
  pose proof (Hget k) as Hgk. unfold mapGet in Hgk. simpl in Hgk.
  rewrite String.eqb_refl in Hgk. injection Hgk as <-.
  f_equal. apply IH; [done|done|].
  intros x. specialize (Hget x). unfold mapGet in *. simpl in Hget.
  destruct (String.eqb k x) eqn:E; [|done].
  apply String.eqb_eq in E. subst x.
  assert (Hn : forall m, k ∉ m.*1 ->
               List.find (fun e : ID * V => String.eqb (fst e) k) m = None).
  { clear. intros m. induction m as [|[k' v'] m IH]; [done|].
    simpl. intros [Hne Hm]%not_elem_of_cons.
    apply not_eq_sym, String.eqb_neq in Hne. rewrite Hne. by apply IH. }
  rewrite !Hn; [done| |done]. by rewrite <- Hk.
Qed.
End JsMap.

Lemma find_app {A} (p : A -> bool) (l1 l2 : list A) :
  List.find p (l1 ++ l2)
  = match List.find p l1 with Some x => Some x | None => List.find p l2 end.
Proof.
  induction l1 as [|x l1 IH]; [done|]. simpl. by destruct (p x).
Qed.

Lemma importCategoriesById_build imported prev :
  importCategoriesById imported prev
  = (fold_left setCategory (prev ++ imported) []).*2.
Proof.
  unfold importCategoriesById, newMap. rewrite fold_left_app. f_equal.
  f_equal. generalize ([] : list (ID * Category)).
  induction prev as [|c prev IH]; intros m; [done|].
  rewrite fmap_cons. simpl. apply IH.
Qed.

Lemma setCategory_keyed m c : keyed m -> keyed (setCategory m c).
Proof.
  unfold keyed, setCategory. induction 1 as [|[k v] m Hk Hm IH]; simpl.
  - by repeat constructor.
  - destruct (String.eqb k (cat_id c)); constructor; done.
Qed.

Lemma fold_setCategory_keyed l m :
  keyed m -> keyed (fold_left setCategory l m).
Proof.
  revert m. induction l as [|c l IH]; intros m Hm; [done|].
  simpl. by apply IH, setCategory_keyed.
Qed.

Lemma fold_setCategory_NoDup l m :
  NoDup m.*1 -> NoDup (fold_left setCategory l m).*1.
Proof.
  revert m. induction l as [|c l IH]; intros m Hm; [done|].
  simpl. by apply IH, mapSet_NoDup.
Qed.

Lemma keyed_values m : keyed m -> cat_id <$> m.*2 = m.*1.
Proof.
  induction 1 as [|[k v] m Hk Hm IH]; [done|].
  rewrite !fmap_cons. simpl in *. by rewrite IH, Hk.
Qed.

Lemma keyed_get x m : keyed m -> categoryById x m.*2 = mapGet x m.
Proof.
  unfold categoryById, mapGet.
  induction 1 as [|[k v] m Hk Hm IH]; [done|].
  rewrite fmap_cons. simpl in *. rewrite Hk.
  by destruct (String.eqb k x).
Qed.

Lemma fold_setCategory_get x l m :
  mapGet x (fold_left setCategory l m)
  = match categoryById x (reverse l) with
    | Some c => Some c
    | None => mapGet x m
    end.
Proof.
  revert m. induction l as [|c l IH]; intros m; [done|].
  simpl. rewrite IH. unfold setCategory. rewrite mapGet_mapSet.
  rewrite reverse_cons. unfold categoryById. rewrite find_app. simpl.
  destruct (List.find _ (reverse l)); [done|].
  destruct (String.eqb (cat_id c) x) eqn:E.
  - apply String.eqb_eq in E. by rewrite decide_True.
  - apply String.eqb_neq in E. by rewrite decide_False.
Qed.

(** X6. The merge by id never yields two categories of the same id, also when
    the document or the imported list do. *)
Theorem importCategoriesById_distinct_ids imported prev :
  NoDup (cat_id <$> importCategoriesById imported prev).
Proof.
  rewrite importCategoriesById_build.
  rewrite keyed_values by (apply fold_setCategory_keyed; constructor).
  apply fold_setCategory_NoDup. constructor.
Qed.

(** X7. In the merge by id the imported category wins: the category found under
    an id after the merge is the last imported one of that id, and for an id
    that is not imported the last one the document had. *)
Theorem importCategoriesById_last_wins imported prev x :
  categoryById x (importCategoriesById imported prev)
  = match categoryById x (reverse imported) with
    | Some c => Some c
    | None => categoryById x (reverse prev)
    end.
Proof.
  rewrite importCategoriesById_build.
  rewrite keyed_get by (apply fold_setCategory_keyed; constructor).
  rewrite fold_setCategory_get, reverse_app.
  unfold categoryById. rewrite find_app.
  destruct (List.find _ (reverse imported)); [done|].
  by destruct (List.find _ (reverse prev)).
Qed.

Lemma mapSet_new {V} k (v : V) m : k ∉ m.*1 -> mapSet k v m = m ++ [(k, v)].
Proof.
  induction m as [|[k' v'] m IH]; [done|].
  rewrite fmap_cons. cbn [fst]. intros [Hne Hm]%not_elem_of_cons.
  cbn [mapSet]. apply not_eq_sym, String.eqb_neq in Hne. rewrite Hne.
  by rewrite IH.
Qed.

(** A map built from categories of distinct ids holds them as they come. *)
Lemma fold_setCategory_distinct l m :
  NoDup (m.*1 ++ (cat_id <$> l)) ->
  fold_left setCategory l m = m ++ ((fun c => (cat_id c, c)) <$> l).
Proof.
  revert m. induction l as [|c l IH]; intros m Hnd.
  - by rewrite app_nil_r.
  - rewrite fmap_cons in Hnd. simpl. unfold setCategory at 2.
    rewrite mapSet_new.
    + rewrite IH.
      * by rewrite <- app_assoc.
      * rewrite fmap_app. simpl. by rewrite <- app_assoc.
    + apply NoDup_app in Hnd as (_ & Hdisj & _). intros Hin.
      apply (Hdisj _ Hin). left.
Qed.

Lemma build_distinct l :
  NoDup (cat_id <$> l) ->
  fold_left setCategory l [] = (fun c => (cat_id c, c)) <$> l.
Proof. intros Hnd. by rewrite fold_setCategory_distinct. Qed.

Lemma keyed_entries m : keyed m -> (fun c => (cat_id c, c)) <$> m.*2 = m.
Proof.
  induction 1 as [|[k v] m Hk Hm IH]; [done|].
  rewrite !fmap_cons. simpl in *. by rewrite IH, Hk.
Qed.

Lemma fold_setCategory_keys_known l m :
  Forall (fun c => cat_id c ∈ m.*1) l ->
  (fold_left setCategory l m).*1 = m.*1.
Proof.
  revert m. induction l as [|c l IH]; intros m Hall; [done|].
  apply Forall_cons in Hall as [Hc Hall]. simpl.
  assert (Hk : (setCategory m c).*1 = m.*1).
  { unfold setCategory. rewrite mapSet_keys. by rewrite decide_True. }
  rewrite IH; [done|]. by rewrite Hk.
Qed.

Lemma fold_setCategory_keys_grow l m x :
  x ∈ m.*1 \/ x ∈ cat_id <$> l -> x ∈ (fold_left setCategory l m).*1.
Proof.
  revert m. induction l as [|c l IH]; intros m.
  - intros [?|Hx]; [done|]. by apply elem_of_nil in Hx.
  - rewrite fmap_cons. simpl. intros Hx. apply IH.
    unfold setCategory. rewrite mapSet_keys.
    destruct Hx as [Hx|[->|Hx]%elem_of_cons].
    + left. case_decide; [done|]. apply elem_of_app. by left.
    + left. case_decide; [done|]. apply elem_of_app. right. left.
    + by right.
Qed.

(** X8. The merge by id is idempotent: merging the same list into the result
    once more gives the result again. *)
Theorem importCategoriesById_idempotent imported prev :
  importCategoriesById imported (importCategoriesById imported prev)
  = importCategoriesById imported prev.
Proof.
  rewrite !importCategoriesById_build.
  set (m := fold_left setCategory (prev ++ imported) []).
  assert (Hkeyed : keyed m) by (apply fold_setCategory_keyed; constructor).
  assert (Hnd : NoDup m.*1) by (apply fold_setCategory_NoDup; constructor).
  rewrite fold_left_app. f_equal.
  rewrite build_distinct by by rewrite keyed_values.
  rewrite keyed_entries by done.
  assert (Hknown : Forall (fun c => cat_id c ∈ m.*1) imported).
  { apply Forall_forall. intros c Hc. apply fold_setCategory_keys_grow.
    right. apply list_elem_of_fmap_2, elem_of_app. by right. }
  apply map_ext.
  - by apply fold_setCategory_NoDup.
  - by apply fold_setCategory_keys_known.
  - intros x. rewrite fold_setCategory_get.
    destruct (categoryById x (reverse imported)) as [c|] eqn:Hx; [|done].
    unfold m. rewrite fold_setCategory_get, reverse_app.
    unfold categoryById in *. by rewrite find_app, Hx.
Qed.

Lemma firstOccurrences_snoc l k :
  firstOccurrences (l ++ [k])
  = if decide (k ∈ l) then firstOccurrences l else firstOccurrences l ++ [k].
Proof.
  unfold firstOccurrences. rewrite reverse_snoc. cbn [remove_dups].
  destruct (decide_rel elem_of k (reverse l)) as [Hin|Hin].
  - rewrite decide_True; [done|]. by apply elem_of_reverse.
  - rewrite decide_False; [|by rewrite <- elem_of_reverse].
    by rewrite reverse_cons.
Qed.

Lemma elem_of_firstOccurrences l k : k ∈ firstOccurrences l <-> k ∈ l.
Proof.
  unfold firstOccurrences.
  by rewrite elem_of_reverse, elem_of_remove_dups, elem_of_reverse.
Qed.

(** X9. The order after the merge by id: the ids of the document followed by
    those of the imported list, each at its first place.  A category of the
    document keeps its position, also when an imported one replaces it, and
    a new id goes to the end. *)
Theorem importCategoriesById_order imported prev :
  cat_id <$> importCategoriesById imported prev
  = firstOccurrences ((cat_id <$> prev) ++ (cat_id <$> imported)).
Proof.
  rewrite importCategoriesById_build, <- fmap_app.
  rewrite keyed_values by (apply fold_setCategory_keyed; constructor).
  generalize (prev ++ imported). intros l.
  induction l as [|c l IH] using rev_ind; [done|].
  rewrite fold_left_app, fmap_app. simpl.
  rewrite firstOccurrences_snoc. unfold setCategory at 1.
  rewrite mapSet_keys, IH.
  destruct (decide (cat_id c ∈ cat_id <$> l)) as [Hin|Hin].
  - rewrite decide_True; [done|]. by apply elem_of_firstOccurrences.
  - rewrite decide_False; [done|]. by rewrite elem_of_firstOccurrences.
Qed.

(** ** Manual reorder *)

Lemma arrayMove_inside {A} (l : list A) i j x :
  l !! i = Some x -> j < length l ->
  arrayMove l i j !! j = Some x /\
  delete j (arrayMove l i j) = delete i l /\
  arrayMove l i j ≡ₚ l.
Proof.
  intros Hi Hj. unfold arrayMove, splice_in. rewrite Hi.
  assert (Hlen : length (take j (delete i l)) = j).
  { apply length_take_le. rewrite length_delete by eauto. lia. }
  split; [|split].
  - by apply list_lookup_middle.
  - rewrite <- Hlen at 1. rewrite delete_middle. apply take_drop.
  - rewrite <- Permutation_middle, take_drop.
    symmetry. by apply delete_Permutation.
Qed.

Lemma arrayMove_Permutation {A} (l : list A) i j : arrayMove l i j ≡ₚ l.
Proof.
  unfold arrayMove, splice_in. destruct (l !! i) as [x|] eqn:Hi; [|done].
  rewrite <- Permutation_middle, take_drop.
  symmetry. by apply delete_Permutation.
Qed.

Lemma unique_findIndex l i x :
  uniqueRootIds l -> l !! i = Some x ->
  findIndex (has_id (item_id x)) l = Some i.
Proof.
  intros Hnd Hi.
  destruct (findIndex (has_id (item_id x)) l) as [j|] eqn:Hj.
  - destruct (findIndex_Some _ _ _ Hj) as (y & Hy & Hid & _).
    apply has_id_true in Hid. f_equal.
    apply (NoDup_lookup _ j i (item_id x) Hnd).
    + by rewrite list_lookup_fmap, Hy, <- Hid.
    + by rewrite list_lookup_fmap, Hi.
  - apply findIndex_None in Hj.
    apply forallb_Forall in Hj.
    apply (Forall_lookup_1 _ _ _ _ Hj) in Hi. simpl in Hi.
    unfold has_id in Hi. by rewrite String.eqb_refl in Hi.
Qed.

Lemma some_filter_intro (p : CategoryItem -> bool) l i x :
  l !! i = Some x -> p x = true ->
  some (has_id (item_id x)) (List.filter p l) = true.
Proof.
  intros Hi Hp. unfold some. apply existsb_exists. exists x. split.
  - apply List.filter_In. split; [|done].
    apply list_elem_of_In. by eapply list_elem_of_lookup_2.
  - by apply has_id_true.
Qed.

(** X10. Dropping a root item on another root item of the same kind, in manual
    mode and with distinct root ids: the dragged item takes the place the
    other one had, and the items are otherwise in the order they were. *)
Theorem handleDragEnd_root_lands category a o i j w :
  uniqueRootIds (cat_items category) ->
  cat_items category !! i = Some a ->
  cat_items category !! j = Some o ->
  isGroup a = isGroup o ->
  i <> j ->
  exists c',
    fst (handleDragEnd MANUAL category (item_id a) (Some (item_id o)) w)
      = Updated c' /\
    cat_items c' !! j = Some a /\
    delete j (cat_items c') = delete i (cat_items category).
Proof.
  intros Hnd Hi Hj Hkind Hij.
  assert (Hne : String.eqb (item_id a) (item_id o) = false).
  { apply String.eqb_neq. intros Heq. apply Hij.
    apply (NoDup_lookup _ i j (item_id a) Hnd).
    - by rewrite list_lookup_fmap, Hi.
    - by rewrite list_lookup_fmap, Hj, Heq. }
  assert (Hroot : exists c',
    fst (reorderRoot category (item_id a) (item_id o) w) = Updated c' /\
    cat_items c' !! j = Some a /\
    delete j (cat_items c') = delete i (cat_items category)).
  { unfold reorderRoot.
    rewrite (unique_findIndex _ _ _ Hnd Hi), (unique_findIndex _ _ _ Hnd Hj).
    run. eexists. split; [reflexivity|]. simpl.
    destruct (arrayMove_inside (cat_items category) i j a Hi) as (? & ? & _);
      [by eapply lookup_lt_Some|done]. }
  unfold handleDragEnd. rewrite Hne. cbv zeta.
  destruct (isGroup a) eqn:Ha.
  - unfold groups.
    rewrite (some_filter_intro isGroup _ _ _ Hi Ha),
      (some_filter_intro isGroup _ _ _ Hj (eq_sym Hkind)).
    exact Hroot.
  - destruct (_ && _); [exact Hroot|]. unfold options.
    assert (Hoa : isOption a = true) by (rewrite isGroup_negb in Ha;
                                         by destruct (isOption a)).
    assert (Hoo : isOption o = true)
      by (rewrite isGroup_negb in Hkind; by destruct (isOption o)).
    rewrite (some_filter_intro isOption _ _ _ Hi Hoa),
      (some_filter_intro isOption _ _ _ Hj Hoo).
    exact Hroot.
Qed.

Lemma handleDragEnd_root_lands_witness :
  exists c',
    fst (handleDragEnd MANUAL (mkCat "a" [optP; optQ; optR]) "p" (Some "r")
           world0) = Updated c' /\
    cat_items c' !! 2 = Some optP /\
    delete 2 (cat_items c') = [optQ; optR].
Proof.
  apply (handleDragEnd_root_lands (mkCat "a" [optP; optQ; optR])
           optP optR 0 2 world0).
  - apply (bool_decide_unpack _). vm_compute. exact I.
  - reflexivity.
  - reflexivity.
  - reflexivity.
  - discriminate.
Defined.

Lemma allIds_insert (l : list CategoryItem) k x y :
  l !! k = Some x -> idsOf y ≡ₚ idsOf x -> allIds (<[k:=y]> l) ≡ₚ allIds l.
Proof.
  intros Hk Hxy. unfold allIds.
  rewrite insert_take_drop by by eapply lookup_lt_Some.
  rewrite <- (take_drop_middle l k x Hk) at 3.
  rewrite !bind_app, !bind_cons. by rewrite Hxy.
Qed.

Lemma root_ids_insert (l : list CategoryItem) k x y :
  l !! k = Some x -> item_id y = item_id x ->
  item_id <$> <[k:=y]> l = item_id <$> l.
Proof.
  intros Hk Hid. rewrite list_fmap_insert, Hid.
  apply list_insert_id. by rewrite list_lookup_fmap, Hk.
Qed.

Lemma reorderRoot_permutes category active over w c' :
  fst (reorderRoot category active over w) = Updated c' ->
  item_id <$> cat_items c' ≡ₚ item_id <$> cat_items category /\
  allIds (cat_items c') ≡ₚ allIds (cat_items category).
Proof.
  unfold reorderRoot. repeat case_match; try discriminate.
  run. intros [= <-]. simpl. unfold allIds.
  by rewrite !arrayMove_Permutation.
Qed.

(** X11. A manual reorder is a permutation: whatever [handleDragEnd] commits has
    the same root ids and the same ids overall (root items and items of
    groups), each as many times as before. *)
Theorem handleDragEnd_permutes sortField category active over w c' :
  fst (handleDragEnd sortField category active over w) = Updated c' ->
  item_id <$> cat_items c' ≡ₚ item_id <$> cat_items category /\
  allIds (cat_items c') ≡ₚ allIds (cat_items category).
Proof.
  unfold handleDragEnd.
  destruct sortField; try discriminate.
  destruct over as [over|]; [|discriminate].
  destruct (String.eqb active over); [discriminate|]. cbv zeta.
  destruct (_ && _); [apply reorderRoot_permutes|].
  destruct (_ && _); [apply reorderRoot_permutes|].
  destruct (findIndex _ _) as [k|]; [|discriminate].
  destruct (cat_items category !! k) as [[i t c|i t c sub]|] eqn:Hk;
    try discriminate.
  repeat case_match; try discriminate.
  run. intros [= <-]. simpl. split.
  - by rewrite (root_ids_insert _ _ _ _ Hk).
  - apply (allIds_insert _ _ _ _ Hk). unfold idsOf. simpl.
    by rewrite arrayMove_Permutation.
Qed.

Lemma handleDragEnd_permutes_witness :
  item_id <$> [groupG; optQ; optR; optP]
    ≡ₚ item_id <$> [groupG; optP; optQ; optR] /\
  allIds [groupG; optQ; optR; optP] ≡ₚ allIds [groupG; optP; optQ; optR].
Proof.
  apply (handleDragEnd_permutes MANUAL (mkCat "a" [groupG; optP; optQ; optR])
           "p" (Some "r") world0
           (touch (mkCat "a" [groupG; optP; optQ; optR])
                  [groupG; optQ; optR; optP] 1000)).
  reflexivity.
Defined.

Lemma find_some_false {A} (p : A -> bool) l :
  List.find p l = None <-> some p l = false.
Proof.
  unfold some. induction l as [|x l IH]; [done|]. simpl.
  destruct (p x); [done|]. exact IH.
Qed.

Lemma findInGroups_None_parent active l :
  findInGroups active l = None ->
  findIndex (fun i => isGroup i &&
                      some (has_id active) (default [] (item_items i))) l
  = None.
Proof.
  induction l as [|[i t c|i t c sub] l IH]; simpl; [done| |].
  - intros H. by rewrite (IH H).
  - destruct (List.find (has_id active) sub) eqn:Hs; [discriminate|].
    apply find_some_false in Hs. rewrite Hs. intros H. by rewrite (IH H).
Qed.

Lemma some_filter_absent (p : CategoryItem -> bool) x l :
  List.find (has_id x) l = None -> some (has_id x) (List.filter p l) = false.
Proof.
  intros Hf. apply not_true_is_false. intros Hs.
  apply some_filter_findIndex in Hs as [i Hi].
  apply findIndex_None_find in Hf. congruence.
Qed.

(** X12. Drops across sections change nothing.  (1) A root item dropped on
    anything that is not a root item of its kind, when no group holds an
    item of the same id.  (2) An item of a group, not at the root, dropped on
    anything that its group does not hold. *)
Theorem handleDragEnd_across_sections :
  (forall category a i over w,
      uniqueRootIds (cat_items category) ->
      cat_items category !! i = Some a ->
      some (has_id over)
           (List.filter (if isGroup a then isGroup else isOption)
                        (cat_items category)) = false ->
      findInGroups (item_id a) (cat_items category) = None ->
      fst (handleDragEnd MANUAL category (item_id a) (Some over) w)
      = NoUpdate) /\
  (forall category active over k gi gt gc gitems w,
      List.find (has_id active) (cat_items category) = None ->
      findIndex (fun i => isGroup i &&
                          some (has_id active) (default [] (item_items i)))
                (cat_items category) = Some k ->
      cat_items category !! k = Some (GroupItem gi gt gc gitems) ->
      some (has_id over) gitems = false ->
      fst (handleDragEnd MANUAL category active (Some over) w) = NoUpdate).
Proof.
  split.
  - intros category a i over w Hnd Hi Hover Hnested. unfold handleDragEnd.
    destruct (String.eqb (item_id a) over); [done|]. cbv zeta.
    rewrite (findInGroups_None_parent _ _ Hnested).
    unfold groups, options. destruct (isGroup a) eqn:Ha.
    + rewrite Hover, andb_false_r.
      assert (Hno : some (has_id (item_id a))
                         (List.filter isOption (cat_items category)) = false).
      { apply not_true_is_false. intros Hs.
        apply (not_both_kinds category (item_id a) Hnd); [|done].
        by apply (some_filter_intro isGroup _ _ _ Hi). }
      by rewrite Hno.
    + rewrite Hover, andb_false_r.
      assert (Hno : some (has_id (item_id a))
                         (List.filter isGroup (cat_items category)) = false).
      { apply not_true_is_false. intros Hs.
        apply (not_both_kinds category (item_id a) Hnd); [done|].
        apply (some_filter_intro isOption _ _ _ Hi).
        rewrite isGroup_negb in Ha. by destruct (isOption a). }
      by rewrite Hno.
  - intros category active over k gi gt gc gitems w Hroot Hk Hg Hover.
    unfold handleDragEnd.
    destruct (String.eqb active over); [done|]. cbv zeta.
    unfold groups, options.
    rewrite !(some_filter_absent _ _ _ Hroot). simpl.
    by rewrite Hk, Hg, Hover.
Qed.

Lemma handleDragEnd_across_sections_witness :
  fst (handleDragEnd MANUAL (mkCat "a" [groupG; optP]) "p" (Some "g") world0)
    = NoUpdate /\
  fst (handleDragEnd MANUAL (mkCat "a" [groupG; optP]) "s" (Some "p") world0)
    = NoUpdate.
Proof.
  split.
  - apply (proj1 handleDragEnd_across_sections
             (mkCat "a" [groupG; optP]) optP 1 "g" world0).
    + apply (bool_decide_unpack _). vm_compute. exact I.
    + reflexivity.
    + reflexivity.
    + reflexivity.
  - apply (proj2 handleDragEnd_across_sections
             (mkCat "a" [groupG; optP]) "s" "p" 0 "g" "G" 6%Z [subS; subT]
             world0).
    + reflexivity.
    + reflexivity.
    + reflexivity.
    + reflexivity.
Defined.

(** ** [findItem] after an insertion and after a deletion *)

Lemma find_take_None {A} (p : A -> bool) (l : list A) k :
  List.find p l = None -> List.find p (take k l) = None.
Proof.
  revert k. induction l as [|x l IH]; intros [|k]; simpl; try done.
  destruct (p x); [done|]. apply IH.
Qed.

Lemma find_insertBeforeFirstOption x n l :
  has_id x n = true -> List.find (has_id x) l = None ->
  List.find (has_id x) (insertBeforeFirstOption n l) = Some n.
Proof.
  intros Hn Hl. unfold insertBeforeFirstOption, splice_in.
  destruct (findIndex isOption l) as [k|]; rewrite find_app.
  - rewrite (find_take_None _ _ k Hl). simpl. by rewrite Hn.
  - rewrite Hl. simpl. by rewrite Hn.
Qed.

Lemma find_has_id_insert x (l : list CategoryItem) k a b :
  l !! k = Some a -> item_id b = item_id a ->
  List.find (has_id x) l = None ->
  List.find (has_id x) (<[k:=b]> l) = None.
Proof.
  revert k. induction l as [|y l IH]; intros [|k] Hk Hid; simpl in *;
    try done.
  - injection Hk as ->. unfold has_id. rewrite Hid.
    by destruct (String.eqb (item_id a) x).
  - destruct (has_id x y); [done|]. by apply IH.
Qed.

Lemma findInGroups_prepend x n (l : list CategoryItem) k i t c sub :
  has_id x n = true -> findInGroups x l = None ->
  l !! k = Some (GroupItem i t c sub) ->
  findInGroups x (<[k := GroupItem i t c (n :: sub)]> l) = Some n.
Proof.
  intros Hn. revert k.
  induction l as [|y l IH]; intros k Hnone Hk; [done|].
  destruct k as [|k].
  - injection Hk as ->. simpl. by rewrite Hn.
  - simpl in Hk. change (<[S k:=?z]> (y :: l)) with (y :: <[k:=z]> l).
    destruct y as [i' t' c'|i' t' c' sub']; simpl in *.
    + by apply IH.
    + destruct (List.find (has_id x) sub'); [done|]. by apply IH.
Qed.

(** X13. An item that has just been added is found under its id, when the id was
    found nowhere in the category before: at the root, and in the group
    when the target resolves to a group. *)
Theorem findItem_after_add inputText modalMode targetGroupId category w :
  blank inputText = false ->
  findItem category (ids w 0) = None ->
  (is_createOption modalMode && truthy targetGroupId = true ->
   exists g, List.find (has_id (default "" targetGroupId))
                       (cat_items category) = Some g /\
             isGroup g = true) ->
  exists c' newItem,
    fst (handleAddItem inputText modalMode targetGroupId category w)
      = Updated c' /\
    item_id newItem = ids w 0 /\ item_title newItem = inputText /\
    findItem c' (ids w 0) = Some newItem.
Proof.
  intros Hb Hfresh Htarget. unfold findItem in Hfresh.
  destruct (List.find (has_id (ids w 0)) (cat_items category)) eqn:Hroot;
    [discriminate|].
  unfold handleAddItem. rewrite Hb.
  destruct (is_createOption modalMode && truthy targetGroupId) eqn:Hmode.
  - destruct (Htarget eq_refl) as (g & Hg & Hkind).
    destruct (find_findIndex _ _ _ Hg) as (k & Hk & Hlook).
    destruct g as [|gi gt gc gitems]; [discriminate|].
    assert (is_createGroup modalMode = false) as ->
      by (by destruct modalMode as [[]|]).
    run. rewrite Hk, Hlook.
    eexists _, (OptionItem (ids w 0) inputText (clock w 0)).
    split; [reflexivity|]. split; [done|]. split; [done|].
    unfold findItem. simpl.
    rewrite (find_has_id_insert _ _ _ _ (GroupItem gi gt gc (_ :: gitems))
               Hlook eq_refl Hroot).
    apply findInGroups_prepend; [|done|done].
    apply String.eqb_refl.
  - destruct (is_createGroup modalMode); run.
    + eexists _, (GroupItem (ids w 0) inputText (clock w 0) []).
      split; [reflexivity|]. split; [done|]. split; [done|].
      unfold findItem. simpl. unfold has_id at 1. simpl.
      by rewrite String.eqb_refl.
    + eexists _, (OptionItem (ids w 0) inputText (clock w 0)).
      split; [reflexivity|]. split; [done|]. split; [done|].
      unfold findItem. simpl.
      rewrite find_insertBeforeFirstOption; [done| |done].
      apply String.eqb_refl.
Qed.

Lemma findItem_after_add_witness :
  exists c' newItem,
    fst (handleAddItem "New" (Some createOption) (Some "g")
           (mkCat "a" [groupG; optP]) world0) = Updated c' /\
    item_id newItem = "A" /\ item_title newItem = "New" /\
    findItem c' "A" = Some newItem.
Proof.
  apply (findItem_after_add "New" (Some createOption) (Some "g")
           (mkCat "a" [groupG; optP]) world0).
  - reflexivity.
  - reflexivity.
  - intros _. exists groupG. split; reflexivity.
Defined.

Lemma find_filter_other x y (l : list CategoryItem) :
  y <> x ->
  List.find (has_id y) (List.filter (fun i => negb (has_id x i)) l)
  = List.find (has_id y) l.
Proof.
  intros Hne. induction l as [|i l IH]; [done|]. simpl.
  destruct (has_id x i) eqn:Hx; simpl.
  - apply has_id_true in Hx.
    assert (has_id y i = false) as -> by (apply has_id_false; congruence).
    exact IH.
  - by rewrite IH.
Qed.

Lemma find_filter_self x (l : list CategoryItem) :
  List.find (has_id x) (List.filter (fun i => negb (has_id x i)) l) = None.
Proof.
  induction l as [|i l IH]; [done|]. simpl.
  destruct (has_id x i) eqn:Hx; simpl; [done|]. by rewrite Hx.
Qed.

Lemma findInGroups_filter_options x y (l : list CategoryItem) :
  (forall g, g ∈ l -> item_id g = x -> isOption g = true) ->
  findInGroups y (List.filter (fun i => negb (has_id x i)) l)
  = findInGroups y l.
Proof.
  induction l as [|i l IH]; intros Hopt; [done|].
  assert (IH' : findInGroups y (List.filter (fun i => negb (has_id x i)) l)
                = findInGroups y l).
  { apply IH. intros g Hg. apply Hopt. by right. }
  simpl. destruct (has_id x i) eqn:Hx; simpl.
  - apply has_id_true in Hx.
    specialize (Hopt i (list_elem_of_here _ _) Hx).
    destruct i; [done|discriminate].
  - destruct i; [done|]. by rewrite IH'.
Qed.

(** X14. Deleting at the root removes every root item of the id and no other:
    the id is found no more at the root, every other id is found at the
    root as before, and when the id belongs to no root group [findItem]
    answers as before for every other id. *)
Theorem handleDeleteItem_root_frame itemId category w :
  exists c',
    fst (handleDeleteItem true itemId None category w) = Updated c' /\
    List.find (has_id itemId) (cat_items c') = None /\
    cat_items c' `sublist_of` cat_items category /\
    (forall y, y <> itemId ->
       List.find (has_id y) (cat_items c')
       = List.find (has_id y) (cat_items category)) /\
    ((forall g, g ∈ cat_items category -> item_id g = itemId ->
                isOption g = true) ->
     forall y, y <> itemId -> findItem c' y = findItem category y).
Proof.
  unfold handleDeleteItem. run. eexists. split; [reflexivity|]. simpl.
  split; [apply find_filter_self|]. split; [apply sublist_filter_bool|].
  split; [intros y Hy; by apply find_filter_other|].
  intros Hopt y Hy. unfold findItem. simpl.
  rewrite find_filter_other by done.
  by rewrite findInGroups_filter_options.
Qed.

Lemma handleDeleteItem_root_frame_witness :
  exists c',
    fst (handleDeleteItem true "p" None (mkCat "a" [groupG; optP; optQ]) world0)
      = Updated c' /\
    findItem c' "s" = Some subS.
Proof.
  destruct (handleDeleteItem_root_frame "p" (mkCat "a" [groupG; optP; optQ])
              world0) as (c' & Hc & _ & _ & _ & Hframe).
  exists c'. split; [exact Hc|].
  change (Some subS) with (findItem (mkCat "a" [groupG; optP; optQ]) "s").
  apply Hframe; [|discriminate].
  intros g Hg Hid. cbn [cat_items mkCat] in Hg.
  repeat (apply elem_of_cons in Hg as [->|Hg]);
    try reflexivity; try discriminate.
  by apply elem_of_nil in Hg.
Defined.

Lemma find_has_id_insert_other y (l : list CategoryItem) k a b :
  l !! k = Some a -> item_id b = item_id a -> item_id a <> y ->
  List.find (has_id y) (<[k:=b]> l) = List.find (has_id y) l.
Proof.
  intros Hk Hid Hne. revert k Hk.
  induction l as [|z l IH]; intros [|k] Hk; try done.
  - injection Hk as ->. simpl.
    assert (has_id y a = false) as -> by by apply has_id_false.
    assert (has_id y b = false) as ->
      by (apply has_id_false; congruence).
    done.
  - simpl in Hk. change (<[S k:=b]> (z :: l)) with (z :: <[k:=b]> l).
    simpl. by rewrite (IH k Hk).
Qed.

Lemma findInGroups_insert_filtered x y (l : list CategoryItem) k i t c sub :
  y <> x -> l !! k = Some (GroupItem i t c sub) ->
  findInGroups y
    (<[k := GroupItem i t c (List.filter (fun o => negb (has_id x o)) sub)]> l)
  = findInGroups y l.
Proof.
  intros Hne. revert k.
  induction l as [|z l IH]; intros [|k] Hk; try done.
  - injection Hk as ->. simpl. by rewrite find_filter_other.
  - simpl in Hk. change (<[S k:=?b]> (z :: l)) with (z :: <[k:=b]> l).
    destruct z; simpl; by rewrite (IH k Hk).
Qed.

Lemma find_insert_at {A} (p : A -> bool) (l : list A) k b :
  findIndex p l = Some k -> p b = true ->
  List.find p (<[k:=b]> l) = Some b.
Proof.
  intros Hk Hb. revert k Hk. induction l as [|z l IH]; intros k; simpl;
    [discriminate|].
  destruct (p z) eqn:Hz.
  - intros [= <-]. simpl. by rewrite Hb.
  - destruct (findIndex p l) as [j|]; [|discriminate]. intros [= <-].
    change (<[S j:=b]> (z :: l)) with (z :: <[j:=b]> l).
    simpl. rewrite Hz. by apply IH.
Qed.

(** X15. Deleting inside a group: no item of the id is left in that group, and
    every id other than the deleted one and the group's own is found by
    [findItem] as before. *)
Theorem handleDeleteItem_nested_frame itemId pg gi gt gc gitems category w :
  pg <> "" ->
  List.find (has_id pg) (cat_items category)
    = Some (GroupItem gi gt gc gitems) ->
  exists c' gitems',
    fst (handleDeleteItem true itemId (Some pg) category w) = Updated c' /\
    List.find (has_id pg) (cat_items c') = Some (GroupItem gi gt gc gitems') /\
    List.find (has_id itemId) gitems' = None /\
    gitems' `sublist_of` gitems /\
    (forall y, y <> itemId -> y <> pg ->
               findItem c' y = findItem category y).
Proof.
  intros Hp Hg. unfold handleDeleteItem.
  apply truthy_Some in Hp. rewrite Hp. simpl.
  destruct (find_findIndex _ _ _ Hg) as (k & Hk & Hlook).
  rewrite Hk, Hlook. run.
  destruct (findIndex_Some _ _ _ Hk) as (g' & Hg' & Hid & _).
  assert (g' = GroupItem gi gt gc gitems) as -> by congruence.
  apply has_id_true in Hid. simpl in Hid.
  eexists _, (List.filter (fun i => negb (has_id itemId i)) gitems).
  split; [reflexivity|]. simpl. split; [|split; [|split]].
  - apply (find_insert_at _ _ _ _ Hk). by apply has_id_true.
  - apply find_filter_self.
  - apply sublist_filter_bool.
  - intros y Hy Hypg. unfold findItem. simpl.
    rewrite (find_has_id_insert_other y _ _ _
               (GroupItem gi gt gc
                  (List.filter (fun i => negb (has_id itemId i)) gitems))
               Hlook eq_refl)
      by (simpl; congruence).
    by rewrite (findInGroups_insert_filtered _ _ _ _ _ _ _ _ Hy Hlook).
Qed.

Lemma handleDeleteItem_nested_frame_witness :
  exists c' gitems',
    fst (handleDeleteItem true "s" (Some "g") (mkCat "a" [groupG; optP]) world0)
      = Updated c' /\
    List.find (has_id "g") (cat_items c')
      = Some (GroupItem "g" "G" 6 gitems') /\
    List.find (has_id "s") gitems' = None /\
    gitems' `sublist_of` [subS; subT] /\
    (forall y, y <> "s" -> y <> "g" ->
               findItem c' y = findItem (mkCat "a" [groupG; optP]) y).
Proof.
  apply (handleDeleteItem_nested_frame "s" "g" "g" "G" 6%Z [subS; subT]
           (mkCat "a" [groupG; optP]) world0).
  - discriminate.
  - reflexivity.
Defined.

(** ** Moving an option *)

Lemma some_false_findIndex {A} (p : A -> bool) (l : list A) :
  some p l = false -> findIndex p l = None.
Proof. intros H. by apply findIndex_None, some_false_forallb. Qed.

(** The group search of [handleMoveOption] when the first group that holds
    the id is known. *)
Lemma searchGroups_at x (l : list CategoryItem) k i t c sub si :
  findIndex (fun g => isGroup g &&
                      some (has_id x) (default [] (item_items g))) l = Some k ->
  l !! k = Some (GroupItem i t c sub) ->
  findIndex (has_id x) sub = Some si ->
  searchGroups x l = (sub !! si, <[k := GroupItem i t c (delete si sub)]> l).
Proof.
  revert k. induction l as [|z l IH]; intros k; [discriminate|].
  cbn [findIndex].
  destruct (isGroup z && some (has_id x) (default [] (item_items z))) eqn:Hz.
  - intros [= <-] [= ->] Hsi. simpl. by rewrite Hsi.
  - destruct (findIndex _ l) as [j|] eqn:Hj; [|discriminate].
    intros [= <-] Hk Hsi. simpl in Hk.
    change (<[S j:=?b]> (z :: l)) with (z :: <[j:=b]> l).
    cbn [searchGroups]. rewrite (IH j eq_refl Hk Hsi).
    destruct z as [i' t' c'|i' t' c' sub']; [done|].
    simpl in Hz. by rewrite (some_false_findIndex _ _ Hz).
Qed.

Lemma findIndex_has_id_insert d (l : list CategoryItem) k a b :
  l !! k = Some a -> item_id b = item_id a ->
  findIndex (has_id d) (<[k:=b]> l) = findIndex (has_id d) l.
Proof.
  intros Hk Hid. revert k Hk.
  induction l as [|z l IH]; intros [|k] Hk; try done.
  - injection Hk as ->. simpl. unfold has_id. by rewrite Hid.
  - simpl in Hk. change (<[S k:=b]> (z :: l)) with (z :: <[k:=b]> l).
    simpl. by rewrite (IH k Hk).
Qed.

Lemma handleMoveOption_into_own_group
    x k gi gt gc gitems si o category w :
  x <> "" -> gi <> ROOT ->
  List.find (has_id x) (cat_items category) = None ->
  findIndex (fun g => isGroup g &&
                      some (has_id x) (default [] (item_items g)))
            (cat_items category) = Some k ->
  cat_items category !! k = Some (GroupItem gi gt gc gitems) ->
  findIndex (has_id x) gitems = Some si ->
  gitems !! si = Some o ->
  findIndex (has_id gi) (cat_items category) = Some k ->
  fst (handleMoveOption (Some x) gi category w)
  = Updated (touch category
               (<[k := GroupItem gi gt gc (delete si gitems ++ [o])]>
                  (cat_items category))
               (clock w 0)).
Proof.
  intros Hx Hgi Hroot Hparent Hk Hsi Ho Hdest. unfold handleMoveOption.
  apply truthy_Some in Hx. rewrite Hx.
  change (default "" (Some x)) with x. change (negb true) with false.
  cbv iota zeta.
  apply findIndex_None_find in Hroot. rewrite Hroot.
  rewrite (searchGroups_at _ _ _ _ _ _ _ _ Hparent Hk Hsi), Ho.
  cbv beta iota. apply String.eqb_neq in Hgi. rewrite Hgi.
  erewrite findIndex_has_id_insert; [|exact Hk|reflexivity]. rewrite Hdest.
  rewrite list_lookup_insert_eq by by eapply lookup_lt_Some.
  run. by rewrite list_insert_insert_eq.
Qed.

(** X16. Moving an option into the group that holds it is not a no-op: the
    category is updated, the option goes to the end of its group, and
    [modifiedAt] becomes the result of [Date.now()]; the id of the category
    is kept. *)
Theorem handleMoveOption_same_group
    x k gi gt gc gitems si o category w :
  x <> "" -> gi <> ROOT ->
  List.find (has_id x) (cat_items category) = None ->
  findIndex (fun g => isGroup g &&
                      some (has_id x) (default [] (item_items g)))
            (cat_items category) = Some k ->
  cat_items category !! k = Some (GroupItem gi gt gc gitems) ->
  findIndex (has_id x) gitems = Some si ->
  gitems !! si = Some o ->
  findIndex (has_id gi) (cat_items category) = Some k ->
  exists c',
    fst (handleMoveOption (Some x) gi category w) = Updated c' /\
    cat_items c'
      = <[k := GroupItem gi gt gc (delete si gitems ++ [o])]>
          (cat_items category) /\
    cat_modifiedAt c' = clock w 0 /\
    cat_id c' = cat_id category.
Proof.
  intros Hx Hgi Hroot Hparent Hk Hsi Ho Hdest.
  rewrite (handleMoveOption_into_own_group x k gi gt gc gitems si o category w)
    by done.
  eexists. split; [reflexivity|]. split; [reflexivity|].
  split; reflexivity.
Qed.

Lemma handleMoveOption_same_group_witness :
  exists c',
    fst (handleMoveOption (Some "s") "g" (mkCat "a" [groupG; optP]) world0)
      = Updated c' /\
    cat_items c' = [GroupItem "g" "G" 6 [subT; subS]; optP] /\
    cat_modifiedAt c' = 1000%Z /\
    cat_id c' = "c-a".
Proof.
  apply (handleMoveOption_same_group "s" 0 "g" "G" 6%Z [subS; subT] 0 subS
           (mkCat "a" [groupG; optP]) world0).
  - discriminate.
  - discriminate.
  - reflexivity.
  - reflexivity.
  - reflexivity.
  - reflexivity.
  - reflexivity.
  - reflexivity.
Defined.

Lemma allIds_delete (l : list CategoryItem) k x :
  l !! k = Some x -> allIds l ≡ₚ idsOf x ++ allIds (delete k l).
Proof.
  intros Hk. unfold allIds.
  rewrite (delete_Permutation l k x Hk) at 1. by rewrite bind_cons.
Qed.








(** ** The state of the category page *)

(** X18. A second press does nothing.  After [handleAddItem] has run, running it
    again adds nothing, on any category: the text is cleared.  After
    [handleMoveOption] has committed a move, running it again moves nothing:
    the id to move is cleared. *)
Theorem second_press_does_nothing :
  (forall st category w category2 w2,
      let st' := snd (fst (onAddItem st category w)) in
      fst (fst (onAddItem st' category2 w2)) = NoUpdate) /\
  (forall st dest category w c' dest2 category2 w2,
      fst (fst (onMoveOption st dest category w)) = Updated c' ->
      let st' := snd (fst (onMoveOption st dest category w)) in
      fst (fst (onMoveOption st' dest2 category2 w2)) = NoUpdate).
Proof.
  split.
  - intros st category w category2 w2. unfold onAddItem, bind, ret.
    destruct (handleAddItem _ _ _ category w) as [out w1]. simpl.
    destruct (blank (st_inputText st)) eqn:Hb.
    + unfold handleAddItem. rewrite Hb. done.
    + done.
  - intros st dest category w c' dest2 category2 w2.
    unfold onMoveOption, bind, ret.
    destruct (handleMoveOption _ dest category w) as [out w1]. simpl.
    intros ->. done.
Qed.

Lemma second_press_does_nothing_witness :
  let st := openMoveModal "p" idleDetail in
  let category := mkCat "a" [groupG; optP] in
  let c' := touch category [GroupItem "g" "G" 6 [subS; subT; optP]] 1000 in
  fst (fst (onMoveOption st "g" category world0)) = Updated c' /\
  fst (fst (onMoveOption (snd (fst (onMoveOption st "g" category world0)))
              "g" c' world0)) = NoUpdate.
Proof.
  intros st category c'. split; [reflexivity|].
  apply (proj2 second_press_does_nothing st "g" category world0 c' "g" c'
           world0).
  reflexivity.
Defined.

(** X19. The sort buttons of the category page.  Name and Date call
    [toggleSort] with their field: the field becomes the sort field,
    ascending when it was not the active one, and pressing the active one
    twice gives the state back.  The Manual button sets the manual order
    and leaves the direction as it is; a press on Name or Date after it
    sorts ascending. *)
Theorem toggleSort_presses field st :
  field <> MANUAL ->
  st_sortField (toggleSort field st) = field /\
  (st_sortField st = field -> toggleSort field (toggleSort field st) = st) /\
  (st_sortField st <> field -> st_sortDir (toggleSort field st) = ASC) /\
  st_sortField (selectManual st) = MANUAL /\
  st_sortDir (selectManual st) = st_sortDir st /\
  st_sortDir (toggleSort field (selectManual st)) = ASC.
Proof.
  intros Hm. unfold toggleSort, selectManual.
  destruct st as [a m t mv txt f d]. cbn [st_sortField st_sortDir].
  destruct field; [done|..]; destruct f, d; repeat split; done.
Qed.

Lemma toggleSort_presses_witness :
  toggleSort TITLE (toggleSort TITLE (toggleSort TITLE idleDetail))
    = toggleSort TITLE idleDetail /\
  st_sortDir (selectManual (toggleSort TITLE (toggleSort TITLE idleDetail)))
    = DESC.
Proof.
  split.
  - apply (proj1 (proj2 (toggleSort_presses TITLE
                           (toggleSort TITLE idleDetail)
                           ltac:(discriminate)))).
    reflexivity.
  - reflexivity.
Defined.

(** ** Sorting *)

Section SortLemmas.
Context {A : Type}.
Implicit Types l : list A.

Lemma insertSorted_Permutation (cmp : A -> A -> Z) x l :
  insertSorted cmp x l ≡ₚ x :: l.
Proof.
  induction l as [|y l IH]; cbn [insertSorted]; [done|].
  destruct (cmp x y <=? 0)%Z; [done|].
  rewrite IH. apply perm_swap.
Qed.

Lemma jsSort_Permutation (cmp : A -> A -> Z) l : jsSort cmp l ≡ₚ l.
Proof.
  induction l as [|x l IH]; [done|].
  unfold jsSort in *. cbn [foldr]. rewrite insertSorted_Permutation.
  by constructor.
Qed.

Variable key : A -> Z.
Variable sortDir : SortDirection.

Lemma byKey_le a b :
  (byKey key sortDir a b <=? 0)%Z = true <-> inOrder key sortDir a b.
Proof.
  unfold byKey, inOrder, directed. rewrite Z.leb_le. destruct sortDir; lia.
Qed.

Lemma byKey_gt a b :
  (byKey key sortDir a b <=? 0)%Z = false ->
  inOrder key sortDir b a /\ key a <> key b.
Proof.
  unfold byKey, inOrder, directed. rewrite Z.leb_gt. destruct sortDir; lia.
Qed.

Lemma inOrder_trans a b c :
  inOrder key sortDir a b -> inOrder key sortDir b c ->
  inOrder key sortDir a c.
Proof. unfold inOrder. destruct sortDir; lia. Qed.

Lemma insertSorted_sorted x l :
  StronglySorted (inOrder key sortDir) l ->
  StronglySorted (inOrder key sortDir) (insertSorted (byKey key sortDir) x l).
Proof.
  induction 1 as [|y l Hs IH Hy]; cbn [insertSorted].
  - repeat constructor.
  - destruct (byKey key sortDir x y <=? 0)%Z eqn:Hc.
    + apply byKey_le in Hc. constructor; [by constructor|].
      constructor; [done|].
      eapply Forall_impl; [exact Hy|]. intros z Hz.
      by eapply inOrder_trans.
    + apply byKey_gt in Hc as [Hc _]. constructor; [done|].
      rewrite insertSorted_Permutation. by constructor.
Qed.

Lemma jsSort_sorted l :
  StronglySorted (inOrder key sortDir) (jsSort (byKey key sortDir) l).
Proof.
  induction l as [|x l IH]; [constructor|].
  unfold jsSort in *. cbn [foldr]. by apply insertSorted_sorted.
Qed.

Lemma insertSorted_stable k x l :
  StronglySorted (inOrder key sortDir) l ->
  List.filter (fun a => Z.eqb (key a) k)
    (insertSorted (byKey key sortDir) x l) =
  List.filter (fun a => Z.eqb (key a) k) (x :: l).
Proof.
  induction 1 as [|y l Hs IH Hy]; cbn [insertSorted]; [done|].
  destruct (byKey key sortDir x y <=? 0)%Z eqn:Hc; [done|].
  apply byKey_gt in Hc as [_ Hne].
  cbn [List.filter] in *. rewrite IH.
  destruct (Z.eqb_spec (key x) k), (Z.eqb_spec (key y) k); try done.
  congruence.
Qed.

Lemma jsSort_stable k l :
  List.filter (fun a => Z.eqb (key a) k) (jsSort (byKey key sortDir) l) =
  List.filter (fun a => Z.eqb (key a) k) l.
Proof.
  induction l as [|x l IH]; [done|].
  unfold jsSort in *. cbn [foldr].
  rewrite insertSorted_stable by apply jsSort_sorted.
  cbn [List.filter]. by rewrite IH.
Qed.
End SortLemmas.

(** The sorted view of the category page. *)
Lemma sortedItems_spec localeCompare sortField sortDir l :
  sortedItems localeCompare sortField sortDir l ≡ₚ l /\
  (sortField = MANUAL -> sortedItems localeCompare sortField sortDir l = l) /\
  (sortField = CREATED_AT ->
   StronglySorted (inOrder item_createdAt sortDir)
     (sortedItems localeCompare sortField sortDir l) /\
   forall t,
     List.filter (fun i => Z.eqb (item_createdAt i) t)
       (sortedItems localeCompare sortField sortDir l) =
     List.filter (fun i => Z.eqb (item_createdAt i) t) l).
Proof.
  split; [|split].
  - destruct sortField; cbn [sortedItems]; [done|..]; apply jsSort_Permutation.
  - by intros ->.
  - intros ->. cbn [sortedItems]. split.
    + apply (jsSort_sorted item_createdAt sortDir).
    + intros t. apply (jsSort_stable item_createdAt sortDir).
Qed.

(** X20. What the page shows.  In every sort mode the groups shown are the root
    groups and the options shown are the root options, each once; the manual
    mode shows them in the stored order; sorting by creation date orders them
    by date in the chosen direction and keeps the stored order among items of
    one date. *)
Theorem views_show_the_root_items localeCompare sortField sortDir category :
  let gs := groupsView localeCompare sortField sortDir category in
  let os := optionsView localeCompare sortField sortDir category in
  gs ++ os ≡ₚ cat_items category /\
  Forall (fun i => isGroup i = true) gs /\
  Forall (fun i => isOption i = true) os /\
  (sortField = MANUAL -> gs = groups category /\ os = options category) /\
  (sortField = CREATED_AT ->
   StronglySorted (inOrder item_createdAt sortDir) gs /\
   StronglySorted (inOrder item_createdAt sortDir) os /\
   forall t,
     List.filter (fun i => Z.eqb (item_createdAt i) t) gs =
       List.filter (fun i => Z.eqb (item_createdAt i) t) (groups category) /\
     List.filter (fun i => Z.eqb (item_createdAt i) t) os =
       List.filter (fun i => Z.eqb (item_createdAt i) t) (options category)).
Proof.
  intros gs os. subst gs os. unfold groupsView, optionsView, groups, options.
  set (l := cat_items category).
  pose proof (sortedItems_spec localeCompare sortField sortDir
                (List.filter isGroup l)) as (Hg1 & Hg2 & Hg3).
  pose proof (sortedItems_spec localeCompare sortField sortDir
                (List.filter isOption l)) as (Ho1 & Ho2 & Ho3).
  split; [|split; [|split; [|split]]].
  - rewrite Hg1, Ho1. clear. induction l as [|x l IH]; [done|].
    cbn [List.filter]. destruct x; cbn [isGroup isOption].
    + rewrite <- Permutation_middle. by constructor.
    + by constructor.
  - rewrite Hg1. apply List.Forall_forall. intros x Hx.
    apply filter_In in Hx. tauto.
  - rewrite Ho1. apply List.Forall_forall. intros x Hx.
    apply filter_In in Hx. tauto.
  - intros H. split; auto.
  - intros H. destruct (Hg3 H) as [? ?], (Ho3 H) as [? ?]. auto.
Qed.

Lemma views_show_the_root_items_witness :
  groupsView (fun _ _ => 0%Z) CREATED_AT DESC
    (mkCat "a" [optP; groupG; optQ; GroupItem "h" "H" 7 []])
    = [GroupItem "h" "H" 7 []; groupG] /\
  StronglySorted (inOrder item_createdAt DESC)
    (optionsView (fun _ _ => 0%Z) CREATED_AT DESC
       (mkCat "a" [optP; groupG; optQ; GroupItem "h" "H" 7 []])).
Proof.
  split; [reflexivity|].
  pose proof (views_show_the_root_items (fun _ _ => 0%Z) CREATED_AT DESC
                (mkCat "a" [optP; groupG; optQ; GroupItem "h" "H" 7 []]))
    as H.
  cbv zeta in H. destruct H as (_ & _ & _ & _ & H).
  destruct (H eq_refl) as (_ & Ho & _). exact Ho.
Defined.

(** ** The list page *)

Lemma filter_true {A} (l : list A) : List.filter (fun _ => true) l = l.
Proof. induction l as [|x l IH]; [done|]. cbn [List.filter]. by rewrite IH. Qed.

Lemma filter_ext_bool {A} (p q : A -> bool) (l : list A) :
  (forall x, p x = q x) -> List.filter p l = List.filter q l.
Proof.
  intros H. induction l as [|x l IH]; [done|].
  cbn [List.filter]. by rewrite H, IH.
Qed.

(** X21. The list shown.  It holds the categories that match the search, all of
    them when the search is empty, each once; sorted by a date it is ordered
    by that date in the chosen direction, and categories of one date keep
    the stored order. *)
Theorem list_shows_the_matching_categories toLowerCase localeCompare
    categories search sortField sortDir :
  let keep c :=
    String.eqb search "" ||
    CategoryList.matchesSearch toLowerCase (toLowerCase search) c in
  let shown :=
    CategoryList.filteredAndSortedCategories toLowerCase localeCompare
      categories search sortField sortDir in
  shown ≡ₚ List.filter keep categories /\
  (search = "" -> shown ≡ₚ categories) /\
  forall key,
    (sortField = CategoryList.CREATED_AT /\ key = cat_createdAt) \/
    (sortField = CategoryList.MODIFIED_AT /\ key = cat_modifiedAt) ->
    StronglySorted (inOrder key sortDir) shown /\
    forall t,
      List.filter (fun c => Z.eqb (key c) t) shown =
      List.filter (fun c => Z.eqb (key c) t) (List.filter keep categories).
Proof.
  intros keep shown. subst shown.
  unfold CategoryList.filteredAndSortedCategories.
  set (result := if negb (String.eqb search "") then _ else _).
  assert (result = List.filter keep categories) as ->.
  { subst result keep. destruct (String.eqb search ""); cbn [negb orb].
    - by rewrite filter_true.
    - done. }
  split; [apply jsSort_Permutation|]. split.
  - intros ->. rewrite jsSort_Permutation. subst keep. cbn [String.eqb orb].
    by rewrite filter_true.
  - intros key [[-> ->]|[-> ->]]; split.
    + apply (jsSort_sorted cat_createdAt sortDir).
    + intros t. apply (jsSort_stable cat_createdAt sortDir).
    + apply (jsSort_sorted cat_modifiedAt sortDir).
    + intros t. apply (jsSort_stable cat_modifiedAt sortDir).
Qed.

Lemma list_shows_the_matching_categories_witness :
  StronglySorted (inOrder cat_modifiedAt ASC)
    (CategoryList.filteredAndSortedCategories (fun s => s) (fun _ _ => 0%Z)
       [mkCat "b" []; mkCat "a" []] "" CategoryList.MODIFIED_AT ASC).
Proof.
  apply (proj2 (proj2 (list_shows_the_matching_categories (fun s => s)
                         (fun _ _ => 0%Z) [mkCat "b" []; mkCat "a" []] ""
                         CategoryList.MODIFIED_AT ASC)) cat_modifiedAt).
  right. split; reflexivity.
Defined.

(** X22. [toggleSort] of the list page: the field pressed becomes the sort
    field, and pressing the active field twice gives the state back. *)
Theorem list_toggleSort_presses field st :
  CategoryList.sortField (CategoryList.toggleSort field st) = field /\
  (CategoryList.sortField st = field ->
   CategoryList.toggleSort field (CategoryList.toggleSort field st) = st).
Proof.
  unfold CategoryList.toggleSort. split.
  - destruct (CategoryList.sortField st), field; done.
  - intros <-. destruct st as [o e ft fd di se f d].
    destruct f, d; done.
Qed.

Lemma list_toggleSort_presses_witness :
  CategoryList.toggleSort CategoryList.CREATED_AT
    (CategoryList.toggleSort CategoryList.CREATED_AT idleList) = idleList.
Proof.
  apply (proj2 (list_toggleSort_presses CategoryList.CREATED_AT idleList)).
  reflexivity.
Defined.

(** X23. [handleSubmit].  A blank title changes nothing.  Editing the category
    stored at an index replaces that entry alone, and keeps its id, creation
    date and items.  Without a category being edited a category with a fresh
    id and no items is put first.  The dialog is closed in both cases. *)
Theorem handleSubmit_edits_one_entry st categories w :
  let r := CategoryList.handleSubmit st categories w in
  (blank (CategoryList.formTitle st) = true -> fst r = (categories, st)) /\
  (blank (CategoryList.formTitle st) = false ->
   CategoryList.isModalOpen (snd (fst r)) = false /\
   CategoryList.editingCategory (snd (fst r)) = None /\
   (forall k editing,
      CategoryList.editingCategory st = Some editing ->
      NoDup (cat_id <$> categories) ->
      categories !! k = Some editing ->
      exists c',
        fst (fst r) = <[k := c']> categories /\
        cat_id c' = cat_id editing /\
        cat_createdAt c' = cat_createdAt editing /\
        cat_items c' = cat_items editing /\
        cat_title c' = CategoryList.formTitle st /\
        cat_modifiedAt c' = clock w 0) /\
   (CategoryList.editingCategory st = None ->
    exists c',
      fst (fst r) = c' :: categories /\
      cat_id c' = ids w 0 /\ cat_items c' = [] /\
      cat_title c' = CategoryList.formTitle st /\
      cat_createdAt c' = clock w 0 /\ cat_modifiedAt c' = clock w 1)).
Proof.
  intros r. subst r. unfold CategoryList.handleSubmit. split.
  - by intros ->.
  - intros ->. destruct (CategoryList.editingCategory st) as [editing|] eqn:He;
      run.
    + split; [done|]. split; [done|]. split; [|done].
      intros k e [= <-] Hnd Hk. eexists. split.
      * by apply (updateCategory_at _ _ k editing).
      * done.
    + split; [done|]. split; [done|]. split; [done|].
      intros _. eexists. split; [reflexivity|]. done.
Qed.

Lemma handleSubmit_edits_one_entry_witness :
  let editing := mkCat "a" [optP] in
  let st := {| CategoryList.isModalOpen := true;
               CategoryList.editingCategory := Some editing;
               CategoryList.formTitle := "A2"; CategoryList.formDesc := "";
               CategoryList.deleteId := None; CategoryList.search := "";
               CategoryList.sortField := CategoryList.CREATED_AT;
               CategoryList.sortDir := DESC |} in
  exists c',
    fst (fst (CategoryList.handleSubmit st [mkCat "b" []; editing] world0))
      = [mkCat "b" []; c'] /\
    cat_id c' = "c-a" /\ cat_createdAt c' = 1%Z /\ cat_items c' = [optP] /\
    cat_title c' = "A2" /\ cat_modifiedAt c' = 1000%Z.
Proof.
  intros editing st.
  apply (proj1 (proj2 (proj2
           (proj2 (handleSubmit_edits_one_entry st [mkCat "b" []; editing]
                     world0) eq_refl)))
           1 editing).
  - reflexivity.
  - apply (bool_decide_unpack _). vm_compute. exact I.
  - reflexivity.
Defined.

Lemma every_true {A} (p : A -> option bool) (l : list A) :
  CategoryList.every p l = Some true <-> Forall (fun x => p x = Some true) l.
Proof.
  induction l as [|x l IH]; cbn [CategoryList.every].
  - split; [constructor|done].
  - destruct (p x) as [[]|] eqn:Hp.
    + rewrite IH. split; [by constructor|]. by inversion 1.
    + split; [done|]. inversion 1. congruence.
    + split; [done|]. inversion 1. congruence.
Qed.

Lemma every_throws {A} (p : A -> option bool) (good : list A) x rest :
  Forall (fun x => p x = Some true) good -> p x = None ->
  CategoryList.every p (good ++ x :: rest) = None.
Proof.
  intros Hg Hx. induction Hg as [|y good Hy _ IH];
    cbn [app CategoryList.every].
  - by rewrite Hx.
  - by rewrite Hy.
Qed.

(** A value that passes the test of [handleImportFile]: an object whose
    [id] and [title] are neither missing nor [null], [false], [0] or the
    empty string, and whose [items] is an array. *)
Lemma looksLikeCategory_true c :
  CategoryList.looksLikeCategory c = Some true <->
  exists fields i t its,
    c = JObject fields /\
    CategoryList.getProp c "id" = Some (Some i) /\
    CategoryList.jsTruthy (Some i) = true /\
    CategoryList.getProp c "title" = Some (Some t) /\
    CategoryList.jsTruthy (Some t) = true /\
    CategoryList.getProp c "items" = Some (Some (JArray its)).
Proof.
  unfold CategoryList.looksLikeCategory. split.
  - destruct c as [| | | | |fields]; try done.
    destruct (CategoryList.getProp (JObject fields) "id") as [[i|]|] eqn:Hi;
      try done.
    destruct (CategoryList.jsTruthy (Some i)) eqn:Hti; [|done].
    destruct (CategoryList.getProp (JObject fields) "title") as [[t|]|] eqn:Ht;
      try done.
    destruct (CategoryList.jsTruthy (Some t)) eqn:Htt; [|done].
    destruct (CategoryList.getProp (JObject fields) "items")
      as [[its|]|] eqn:Hs; try done.
    destruct its; try done. intros _. by eexists _, _, _, _.
  - intros (fields & i & t & its & -> & -> & -> & -> & -> & ->). done.
Qed.

(** X24. [handleImportFile] hands a file to [importCategories] exactly when its
    text parses to an array of category-like objects: [id] and [title]
    present and truthy, [items] an array; nothing else of a category is
    looked at.  A [null] in the array, behind category-like objects only,
    ends in the message of the [catch]. *)
Theorem handleImportFile_accepts JSON_parse content :
  (forall parsed,
     CategoryList.handleImportFile JSON_parse content
       = CategoryList.Imported parsed <->
     JSON_parse content = Some (JArray parsed) /\
     Forall (fun c => exists fields i t its,
                c = JObject fields /\
                CategoryList.getProp c "id" = Some (Some i) /\
                CategoryList.jsTruthy (Some i) = true /\
                CategoryList.getProp c "title" = Some (Some t) /\
                CategoryList.jsTruthy (Some t) = true /\
                CategoryList.getProp c "items" = Some (Some (JArray its)))
            parsed) /\
  (forall good rest,
     JSON_parse content = Some (JArray (good ++ JNull :: rest)) ->
     Forall (fun c => CategoryList.looksLikeCategory c = Some true) good ->
     CategoryList.handleImportFile JSON_parse content
       = CategoryList.FailedToParse).
Proof.
  unfold CategoryList.handleImportFile. split.
  - intros parsed.
    etrans;
      [|apply and_iff_compat_l, Forall_iff; intros c;
        apply looksLikeCategory_true].
    rewrite <- every_true.
    destruct (JSON_parse content) as [[| | | |l|]|];
      try (split; [done|]; by intros [[=] _]).
    destruct (CategoryList.every CategoryList.looksLikeCategory l)
      as [[]|] eqn:He.
    + split.
      * intros [= <-]. done.
      * intros [[= <-] _]. done.
    + split; [done|]. intros [[= <-] H]. congruence.
    + split; [done|]. intros [[= <-] H]. congruence.
  - intros good rest -> Hg. by rewrite every_throws.
Qed.

Lemma handleImportFile_accepts_witness :
  CategoryList.handleImportFile (fun _ => Some (JArray [parsedCategory])) "f"
    = CategoryList.Imported [parsedCategory] /\
  CategoryList.handleImportFile
    (fun _ => Some (JArray [parsedCategory; JNull; JNumber 1])) "f"
    = CategoryList.FailedToParse.
Proof.
  split.
  - apply (proj1 (handleImportFile_accepts
                    (fun _ => Some (JArray [parsedCategory])) "f")
             [parsedCategory]).
    split; [reflexivity|].
    constructor; [|constructor].
    exists [("id", JString "c1"); ("title", JString "Fruit");
            ("items", JArray [])], (JString "c1"), (JString "Fruit"), [].
    repeat split.
  - apply (proj2 (handleImportFile_accepts
                    (fun _ => Some (JArray [parsedCategory; JNull; JNumber 1]))
                    "f")
             [parsedCategory] [JNumber 1]).
    + reflexivity.
    + constructor; [reflexivity|constructor].
Defined.

(** ** The ids of the merge by title *)

Lemma genIds_app w w' k k' :
  shifted w w' k -> genIds w k ++ genIds w' k' = genIds w (k + k').
Proof.
  intros Hs. unfold genIds. rewrite seq_app, fmap_app. f_equal.
  replace (0 + k) with (k + 0) by lia.
  rewrite <- (fmap_add_seq k 0 k'), <- list_fmap_compose.
  apply list_fmap_ext. intros _ n _. apply Hs.
Qed.

Lemma generates_bind {A B} (m : M A) (f : A -> M B) w
    (Q : A -> list ID -> Prop) (R : B -> list ID -> Prop) :
  generates m w Q ->
  (forall a g w', Q a g -> generates (f a) w' (fun b g' => R b (g ++ g'))) ->
  generates (bind m f) w R.
Proof.
  intros (k & HQ & Hs) Hf. unfold generates, bind.
  destruct (m w) as [a w'] eqn:Hm. cbn [fst snd] in *.
  destruct (Hf a _ w' HQ) as (k' & HR & Hs').
  exists (k + k'). split.
  - by rewrite <- (genIds_app w w').
  - intros n. rewrite Hs', Hs. f_equal. lia.
Qed.

Lemma generates_ret {A} (a : A) w (Q : A -> list ID -> Prop) :
  Q a [] -> generates (ret a) w Q.
Proof. intros HQ. exists 0. split; [done|]. by intros n. Qed.

Lemma generates_generateId w (Q : ID -> list ID -> Prop) :
  (forall i, Q i [i]) -> generates generateId w Q.
Proof. intros HQ. exists 1. split; [apply HQ|]. by intros n. Qed.

Lemma generates_dateNow w (Q : Z -> list ID -> Prop) :
  (forall now, Q now []) -> generates dateNow w Q.
Proof. intros HQ. exists 0. split; [apply HQ|]. by intros n. Qed.

Lemma generates_foldM {A B} (step : B -> A -> M B) (I : B -> list ID)
    (P : A -> Prop) l :
  (forall acc x w, P x ->
     generates (step acc x) w (fun acc' g => I acc' ≡ₚ I acc ++ g)) ->
  Forall P l ->
  forall acc w,
    generates (foldM step acc l) w (fun r g => I r ≡ₚ I acc ++ g).
Proof.
  intros Hstep. induction 1 as [|x l Hx _ IH]; intros acc w; cbn [foldM].
  - apply generates_ret. by rewrite app_nil_r.
  - eapply generates_bind; [by apply Hstep|].
    intros acc' g w' Hacc. cbv beta.
    destruct (IH acc' w') as (k & HQ & Hs). exists k. split; [|done].
    cbv beta in HQ. by rewrite HQ, Hacc, app_assoc.
Qed.

Lemma generates_mapM {A B} (f : A -> M B) (J : B -> list ID)
    (P : A -> Prop) l :
  (forall x w, P x -> generates (f x) w (fun y g => J y ≡ₚ g)) ->
  Forall P l ->
  forall w, generates (mapM f l) w (fun ys g => ys ≫= J ≡ₚ g).
Proof.
  intros Hf. induction 1 as [|x l Hx _ IH]; intros w; cbn [mapM].
  - by apply generates_ret.
  - eapply generates_bind; [by apply Hf|].
    intros y g w' Hy. cbv beta.
    eapply generates_bind; [apply IH|].
    intros ys g' w'' Hys. cbv beta.
    apply generates_ret. by rewrite bind_cons, Hy, Hys, app_nil_r.
Qed.

Lemma generates_weaken {A} (m : M A) w (Q Q' : A -> list ID -> Prop) :
  generates m w Q -> (forall a g, Q a g -> Q' a g) -> generates m w Q'.
Proof. intros (k & HQ & Hs) H. exists k. auto. Qed.

Lemma item_id_with_id i it : item_id (with_id i it) = i.
Proof. by destruct it. Qed.

Lemma bind_singleton {A B} (f : A -> B) (l : list A) :
  l ≫= (fun x => [f x]) = f <$> l.
Proof.
  induction l as [|x l IH]; [done|]. by rewrite bind_cons, fmap_cons, IH.
Qed.

Lemma regenerateSubIds_ids subs w :
  generates (regenerateSubIds subs) w
    (fun subs' g => item_id <$> subs' ≡ₚ g).
Proof.
  unfold regenerateSubIds.
  eapply generates_weaken.
  - apply (generates_mapM _ (fun y => [item_id y]) (fun _ => True)).
    + intros x w0 _. eapply generates_bind.
      * apply (generates_generateId _ (fun i g => g = [i])). done.
      * intros i g w' ->. apply generates_ret.
        by rewrite item_id_with_id.
    + by apply Forall_true.
  - intros subs' g. cbv beta. by rewrite bind_singleton.
Qed.

Lemma mergeGroupOptions_ids existing imp w :
  generates (mergeGroupOptions existing imp) w
    (fun merged g => item_id <$> merged ≡ₚ (item_id <$> existing) ++ g).
Proof.
  unfold mergeGroupOptions.
  generalize (list_to_set (item_title <$> existing) : gset string).
  intros titles.
  apply (generates_foldM _ (fmap item_id) (fun _ => True));
    [|by apply Forall_true].
  intros acc x w0 _.
  destruct (negb (bool_decide (item_title x ∈ titles))).
  - eapply generates_bind.
    + apply (generates_generateId _ (fun i g => g = [i])). done.
    + intros i g w' ->. apply generates_ret.
      rewrite fmap_app. cbn [fmap list_fmap]. by rewrite item_id_with_id.
  - apply generates_ret. by rewrite app_nil_r.
Qed.

Lemma bind_empty {A B} (f : A -> list B) : [] ≫= f = [].
Proof. done. Qed.

Lemma bind_insert_delete {A B} (f : A -> list B) (l : list A) k y :
  k < length l -> <[k:=y]> l ≫= f ≡ₚ f y ++ (delete k l ≫= f).
Proof.
  intros Hk. rewrite insert_take_drop by done. rewrite delete_take_drop.
  rewrite !bind_app, bind_cons. rewrite !app_assoc.
  apply Permutation_app_tail, Permutation_app_comm.
Qed.

Lemma allIds_app (l l' : list CategoryItem) :
  allIds (l ++ l') = allIds l ++ allIds l'.
Proof. apply bind_app. Qed.

Lemma mergeItem_ids items it w :
  generates (mergeItem items it) w
    (fun items' g => allIds items' ≡ₚ allIds items ++ g).
Proof.
  destruct it as [i t c|i t c subs]; cbn [mergeItem].
  - destruct (negb _).
    + eapply generates_bind.
      * apply (generates_generateId _ (fun i g => g = [i])). done.
      * intros j g w' ->. apply generates_ret.
        by rewrite allIds_app, app_nil_r.
    + apply generates_ret. by rewrite app_nil_r.
  - destruct (findIndex _ items) as [k|].
    + destruct (items !! k) as [[?|gi gt gc existing]|] eqn:Hk;
        try (apply generates_ret; by rewrite app_nil_r).
      eapply generates_bind; [by apply mergeGroupOptions_ids|].
      intros merged g w' Hm. apply generates_ret. rewrite app_nil_r.
      rewrite (allIds_delete items k _ Hk).
      unfold allIds at 1.
      rewrite bind_insert_delete by by eapply lookup_lt_Some.
      fold (allIds (delete k items)).
      unfold idsOf. cbn [item_id item_items default].
      rewrite Hm. cbn [app]. constructor.
      rewrite <- !app_assoc. apply Permutation_app_head, Permutation_app_comm.
    + eapply generates_bind.
      * apply (generates_generateId _ (fun i g => g = [i])). done.
      * intros j g w' ->. eapply generates_bind;
          [by apply regenerateSubIds_ids|].
        intros subs' g' w'' Hs. apply generates_ret.
        rewrite allIds_app, app_nil_r. apply Permutation_app_head.
        unfold allIds. rewrite bind_cons, bind_empty, app_nil_r.
        unfold idsOf. cbn [item_id item_items default app].
        by constructor.
Qed.

Lemma foldM_mergeItem_ids items its w :
  generates (foldM mergeItem items its) w
    (fun items' g => allIds items' ≡ₚ allIds items ++ g).
Proof.
  apply (generates_foldM _ allIds (fun _ => True)); [|by apply Forall_true].
  intros acc x w0 _. apply mergeItem_ids.
Qed.

Lemma regenerateItem_ids it w :
  generates (regenerateItem it) w (fun it' g => idsOf it' ≡ₚ g).
Proof.
  destruct it as [i t c|i t c subs]; cbn [regenerateItem].
  - eapply generates_bind.
    + apply (generates_generateId _ (fun i g => g = [i])). done.
    + intros j g w' ->. apply generates_ret. by rewrite app_nil_r.
  - eapply generates_bind.
    + apply (generates_generateId _ (fun i g => g = [i])). done.
    + intros j g w' ->. eapply generates_bind; [by apply regenerateSubIds_ids|].
      intros subs' g' w'' Hs. apply generates_ret. rewrite app_nil_r.
      unfold idsOf. cbn [item_id item_items default app]. by constructor.
Qed.

Lemma docIds_delete (doc : list Category) k c :
  doc !! k = Some c -> docIds doc ≡ₚ catIds c ++ docIds (delete k doc).
Proof.
  intros Hk. unfold docIds.
  rewrite (delete_Permutation doc k c Hk) at 1. by rewrite bind_cons.
Qed.

Lemma importCategory_ids doc impCat w :
  generates (importCategory doc impCat) w
    (fun doc' g => docIds doc' ≡ₚ docIds doc ++ g).
Proof.
  unfold importCategory. destruct (findIndex _ doc) as [k|].
  - destruct (doc !! k) as [existingCat|] eqn:Hk;
      [|apply generates_ret; by rewrite app_nil_r].
    eapply generates_bind; [by apply foldM_mergeItem_ids|].
    intros newItems g w' Hitems. eapply generates_bind.
    + apply (generates_dateNow _ (fun _ g => g = [])). done.
    + intros now g' w'' ->. apply generates_ret. rewrite !app_nil_r.
      rewrite (docIds_delete doc k _ Hk).
      unfold docIds at 1.
      rewrite bind_insert_delete by by eapply lookup_lt_Some.
      fold (docIds (delete k doc)).
      unfold catIds. cbn [touch cat_id cat_items app]. constructor.
      rewrite Hitems, <- !app_assoc.
      apply Permutation_app_head, Permutation_app_comm.
  - eapply generates_bind.
    + apply (generates_generateId _ (fun i g => g = [i])). done.
    + intros i g w' ->. eapply generates_bind.
      * apply (generates_mapM _ idsOf (fun _ => True));
          [|by apply Forall_true].
        intros x w0 _. apply regenerateItem_ids.
      * intros its g' w'' Hits. apply generates_ret.
        unfold docIds. rewrite bind_app, bind_cons, bind_empty, !app_nil_r.
        apply Permutation_app_head. unfold catIds.
        cbn [cat_id cat_items app]. by constructor.
Qed.

(** X25. The merge by title gives every new thing an id of its own.  The ids of
    the result (of the categories, of their root items and of the items of
    their groups) are the ids the document had, followed by the results of
    the calls of [generateId()] that were made, each used once: no id is
    taken from the imported file, and none of the document is dropped. *)
Theorem importCategories_ids_are_generated imported prev w :
  exists k,
    docIds (fst (importCategories imported prev w))
      ≡ₚ docIds prev ++ (ids w <$> seq 0 k) /\
    forall n, ids (snd (importCategories imported prev w)) n = ids w (k + n).
Proof.
  unfold importCategories.
  apply (generates_foldM importCategory docIds (fun _ => True));
    [|by apply Forall_true].
  intros acc x w0 _. apply importCategory_ids.
Qed.

(** ** What the merge by title leaves alone *)

Lemma findIndex_insert_same {A} (p : A -> bool) (l : list A) j x y :
  l !! j = Some x -> p y = p x -> findIndex p (<[j:=y]> l) = findIndex p l.
Proof.
  revert j. induction l as [|z l IH]; intros j Hj Hp; [done|].
  destruct j as [|j]; cbn [findIndex].
  - injection Hj as ->. cbn. by rewrite Hp.
  - change (<[S j:=y]> (z :: l)) with (z :: <[j:=y]> l). cbn [findIndex].
    by rewrite (IH j Hj Hp).
Qed.

Lemma findIndex_app_Some {A} (p : A -> bool) (l l' : list A) k :
  findIndex p (l ++ l') = Some k -> k < length l -> findIndex p l = Some k.
Proof.
  revert k. induction l as [|z l IH]; intros k; cbn [app findIndex length];
    [lia|].
  destruct (p z); [done|].
  destruct (findIndex p (l ++ l')) as [i|] eqn:Hi; [|discriminate].
  intros [= <-] Hlt. rewrite (IH i eq_refl); [done|lia].
Qed.

Lemma importCategory_keeps doc impCat w k c :
  doc !! k = Some c ->
  findIndex (fun c' => String.eqb (cat_title c') (cat_title impCat)) doc
    <> Some k ->
  fst (importCategory doc impCat w) !! k = Some c.
Proof.
  intros Hk Hne. unfold importCategory.
  destruct (findIndex _ doc) as [j|].
  - destruct (doc !! j) as [existingCat|]; [|done].
    unfold bind. destruct (foldM _ _ _ w) as [newItems w']. run.
    rewrite list_lookup_insert_ne; [done|congruence].
  - unfold bind. run. destruct (mapM _ _ _) as [its w']. simpl.
    rewrite lookup_app_l; [done|]. by eapply lookup_lt_Some.
Qed.

Lemma importCategory_first_of_title doc impCat w t k :
  k < length doc ->
  findIndex (fun c' => String.eqb (cat_title c') t)
    (fst (importCategory doc impCat w)) = Some k ->
  findIndex (fun c' => String.eqb (cat_title c') t) doc = Some k.
Proof.
  intros Hk. unfold importCategory.
  destruct (findIndex _ doc) as [j|].
  - destruct (doc !! j) as [existingCat|] eqn:Hj; [|done].
    unfold bind. destruct (foldM _ _ _ w) as [newItems w']. run.
    by rewrite (findIndex_insert_same _ _ _ existingCat _ Hj).
  - unfold bind. run. destruct (mapM _ _ _) as [its w']. simpl.
    intros H. by eapply findIndex_app_Some.
Qed.

Lemma importCategories_keeps imported : forall prev w k c,
  prev !! k = Some c ->
  (forall impCat, impCat ∈ imported ->
     findIndex (fun c' => String.eqb (cat_title c') (cat_title impCat)) prev
       <> Some k) ->
  fst (importCategories imported prev w) !! k = Some c.
Proof.
  unfold importCategories.
  induction imported as [|impCat imported IH]; intros prev w k c Hk Hne;
    [done|].
  cbn [foldM]. unfold bind.
  destruct (importCategory prev impCat w) as [doc' w'] eqn:Hstep.
  apply IH.
  - pose proof (importCategory_keeps prev impCat w k c Hk) as H.
    rewrite Hstep in H. apply H, Hne. by left.
  - intros imp Himp Hfind.
    apply (Hne imp); [by right|].
    apply (importCategory_first_of_title prev impCat w);
      [by eapply lookup_lt_Some|]. by rewrite Hstep.
Qed.

(** X26. The merge by title touches the first category of a title only.  A
    category of the document stays as it is, at its index, when every
    imported category has another title or a category of that title stands
    before it in the document. *)
Theorem importCategories_leaves_the_rest imported prev w k c :
  prev !! k = Some c ->
  (forall impCat, impCat ∈ imported ->
     cat_title impCat <> cat_title c \/
     exists j c0, j < k /\ prev !! j = Some c0 /\
                  cat_title c0 = cat_title c) ->
  fst (importCategories imported prev w) !! k = Some c.
Proof.
  intros Hk Hother. apply importCategories_keeps; [done|].
  intros impCat Himp Hfind.
  destruct (findIndex_Some _ _ _ Hfind) as (x & Hx & Hp & _ & Hmin).
  assert (x = c) as -> by congruence. apply String.eqb_eq in Hp.
  destruct (Hother impCat Himp) as [Hne|(j & c0 & Hj & Hc0 & Ht)];
    [congruence|].
  assert (Hin : c0 ∈ take k prev).
  { apply list_elem_of_lookup. exists j. by rewrite lookup_take_lt. }
  apply list_elem_of_In in Hin.
  pose proof (proj1 (forallb_forall _ _) Hmin c0 Hin) as Hc.
  apply negb_true_iff, String.eqb_neq in Hc. congruence.
Qed.

Lemma importCategories_leaves_the_rest_witness :
  fst (importCategories [mkCat "b" [optQ]]
         [mkCat "a" [optP]; mkCat "b" []] world0) !! 0
  = Some (mkCat "a" [optP]).
Proof.
  apply (importCategories_leaves_the_rest [mkCat "b" [optQ]]
           [mkCat "a" [optP]; mkCat "b" []] world0 0 (mkCat "a" [optP])).
  - reflexivity.
  - intros impCat Hin. apply elem_of_cons in Hin as [->|Hin].
    + left. discriminate.
    + by apply elem_of_nil in Hin.
Defined.

(** ** The notification bell *)

Lemma notify_invariant events : forall st,
  hasUnread st = negb (truthy (seen st)) ->
  (isOpen st = true -> hasUnread st = false) ->
  let st' := fold_left notify events st in
  hasUnread st' = negb (truthy (seen st')) /\
  (isOpen st' = true -> hasUnread st' = false) /\
  (hasUnread st = false -> hasUnread st' = false) /\
  (ClickBell ∈ events -> hasUnread st' = false) /\
  (ClickBell ∉ events -> hasUnread st' = hasUnread st /\ seen st' = seen st).
Proof.
  induction events as [|e events IH]; intros st Hinv Hopen; cbn [fold_left].
  - repeat split; try done. by intros ?%elem_of_nil.
  - assert (Hstep : hasUnread (notify st e) = negb (truthy (seen (notify st e)))
                    /\ (isOpen (notify st e) = true ->
                        hasUnread (notify st e) = false)
                    /\ (hasUnread st = false ->
                        hasUnread (notify st e) = false)
                    /\ (e = ClickBell -> hasUnread (notify st e) = false)
                    /\ (e <> ClickBell ->
                        hasUnread (notify st e) = hasUnread st /\
                        seen (notify st e) = seen st)).
    { destruct e; cbn [notify]; unfold toggleNotifications.
      - destruct (isOpen st) eqn:Ho; cbn.
        + rewrite (Hopen eq_refl) in *. done.
        + destruct (hasUnread st) eqn:Hu; cbn; [done|].
          repeat split; try done.
      - cbn. repeat split; try done. }
    destruct Hstep as (H1 & H2 & H3 & H4 & H5).
    destruct (IH (notify st e) H1 H2) as (I1 & I2 & I3 & I4 & I5).
    split; [done|]. split; [done|]. split; [auto|]. split.
    + intros [Heq|Hin]%elem_of_cons; [by apply I3, H4|auto].
    + intros Hnot. apply not_elem_of_cons in Hnot as [Hne Hnot].
      destruct (I5 Hnot) as [-> ->]. apply H5. congruence.
Qed.

(** X27. The badge of the bell.  Whatever is clicked, the badge shows exactly
    while the stored mark is missing or empty; the first click on the bell
    removes the badge for good; without a click on the bell the mark is
    not written. *)
Theorem notifications_badge stored events :
  let st := fold_left notify events (initNotifications stored) in
  hasUnread st = negb (truthy (seen st)) /\
  (ClickBell ∈ events -> hasUnread st = false) /\
  (ClickBell ∉ events -> seen st = stored).
Proof.
  destruct (notify_invariant events (initNotifications stored))
    as (H1 & _ & _ & H4 & H5); [done..|].
  split; [done|]. split; [done|]. intros H. by destruct (H5 H).
Qed.

Lemma notifications_badge_witness :
  hasUnread (fold_left notify [ClickBackdrop; ClickBell; ClickBackdrop]
               (initNotifications None)) = false.
Proof.
  apply (proj1 (proj2 (notifications_badge None
                         [ClickBackdrop; ClickBell; ClickBackdrop]))).
  apply elem_of_cons. right. apply elem_of_cons. by left.
Defined.
